(** * TiledArray: the reduce task and the sparse-shape algebra

    A shallow embedding of [TiledArray/reduce_task.h] (the streaming
    reducer [ReduceTask] / [ReduceTaskImpl] / [ReduceObject]) and of
    [TiledArray/sparse_shape.h] (the class [SparseShape]), together with
    the properties of both that the specification states; and, with
    further properties read off the code, of the pair reducer, of the
    contraction functor [ContractReduce], of [DimensionOrder] and of the
    expressions of the Python module. *)

From stdpp Require Import base list sorting.
From Stdlib Require Import ZArith QArith Qabs Lia Lqa SpecFloat.
From Stdlib Require String.

Close Scope Q_scope.
Set Default Proof Using "Type".

(* ===================================================================== *)
(** * Part I: [ReduceTask]                                                *)
(* ===================================================================== *)

Module ReduceTask.

(** The reduction operation concept [opT] documented at the head of
    [class ReduceTask]: an object with five call operators.  The C++
    operators that take [result_type&] mutate their first argument; here
    they return the new value of that argument. *)
Class ReduceOp : Type := {
  result_type : Type;
  argument_type : Type;
  op_new : result_type;                                      (* op()             *)
  op_post : result_type -> result_type;                      (* op(temp)         *)
  op_res : result_type -> result_type -> result_type;        (* op(result, res)  *)
  op_arg : result_type -> argument_type -> result_type;      (* op(result, arg)  *)
  op_arg2 : result_type -> argument_type -> argument_type -> result_type
                                                             (* op(result, a, b) *)
}.

(** What a worker or the client does, as seen from outside: the history
    of a run is a list of these. *)
Inductive event : Type :=
| EvAdd (o : nat) (cb : bool)   (* ReduceTask::add created object [o]            *)
| EvOpArg (o : nat)             (* op_( *result, object->arg())                   *)
| EvOpArg2 (o1 o2 : nat)        (* op_( *result, object1->arg(), object2->arg())  *)
| EvOpRes                       (* op_( *result, *ready_result)                   *)
| EvNotify (o : nat)            (* object->callback_->notify() in destroy        *)
| EvDelete (o : nat)            (* delete object in destroy                      *)
| EvTakeObject (o : nat)        (* reduce(): ready_object_ claimed under lock_   *)
| EvTakeResult                  (* reduce(): ready_result_ claimed under lock_   *)
| EvPark                        (* reduce(): result parked, the loop is left     *)
| EvDec                         (* this->dec()                                   *)
| EvSet                         (* result_.set(...) in run                       *)
| EvDone.                       (* callback_->notify() in run                    *)

Section Model.

Context {op : ReduceOp}.
Local Abbreviation R := (@result_type op).
Local Abbreviation A := (@argument_type op).

(** [class ReduceObject]: the argument (its future is set by the time any
    of the code below reads it), the optional callback pointer, and an
    identity standing for the address of the heap object. *)
Record ReduceObject : Type := mkObject {
  oid : nat;
  arg : A;
  ocallback_ : bool
}.

(** [ReduceObject::destroy]: invoke the callback when there is one, then
    delete the object. *)
Definition destroy (object : ReduceObject) : list event :=
  (if ocallback_ object then [EvNotify (oid object)] else [])
    ++ [EvDelete (oid object)].

(** The data members of [ReduceTaskImpl] that the algorithm reads and
    writes.  [ndep] is the dependency counter inherited from
    [madness::TaskInterface], moved by [inc()] and [dec()]. *)
Record Impl : Type := mkImpl {
  ready_result_ : option R;
  ready_object_ : option ReduceObject;
  ndep : nat;
  result_ : option R;
  callback_ : bool
}.

Definition set_ready_result (v : option R) (m : Impl) : Impl :=
  mkImpl v (ready_object_ m) (ndep m) (result_ m) (callback_ m).
Definition set_ready_object (v : option ReduceObject) (m : Impl) : Impl :=
  mkImpl (ready_result_ m) v (ndep m) (result_ m) (callback_ m).
Definition inc (m : Impl) : Impl :=
  mkImpl (ready_result_ m) (ready_object_ m) (S (ndep m)) (result_ m) (callback_ m).
Definition dec (m : Impl) : Impl :=
  mkImpl (ready_result_ m) (ready_object_ m) (pred (ndep m)) (result_ m) (callback_ m).
Definition set_result (v : R) (m : Impl) : Impl :=
  mkImpl (ready_result_ m) (ready_object_ m) (ndep m) (Some v) (callback_ m).

(** The constructor [ReduceTaskImpl(world, op, callback)]: one dependency
    (the not-yet-submitted sentinel), [ready_result_] holding [op()]. *)
Definition new_impl (callback : bool) : Impl :=
  mkImpl (Some (op_new)) None 1 None callback.

(** The straight-line pieces of a task body.  A task that the queue runs
    is a local [result] pointer and the statements it still has to
    execute; between two statements other workers may run. *)
Inductive instr : Type :=
| IOpArg (o : ReduceObject)        (* op_( *result, o->arg());              *)
| IOpArg2 (o1 o2 : ReduceObject)   (* op_( *result, o1->arg(), o2->arg());  *)
| IOpRes (r : R)                   (* op_( *result, *ready_result);         *)
| IDestroy (o : ReduceObject)      (* ReduceObject::destroy(o);             *)
| IReduce                          (* reduce(result);  -- the drain loop    *)
| IDec.                            (* this->dec();                          *)

Record task : Type := mkTask {
  result : option R;               (* std::shared_ptr<result_type> result *)
  code : list instr
}.

(** [ReduceTaskImpl::reduce_result_object(result, object)] *)
Definition reduce_result_object (r : R) (object : ReduceObject) : task :=
  mkTask (Some r) [IOpArg object; IDestroy object; IReduce; IDec].

(** [ReduceTaskImpl::reduce_object_object(object1, object2)] *)
Definition reduce_object_object (object1 object2 : ReduceObject) : task :=
  mkTask (Some (op_new))
         [IOpArg2 object1 object2; IDestroy object1; IDestroy object2;
          IReduce; IDec; IDec].

(** One turn of the [while(result)] loop of [ReduceTaskImpl::reduce]: the
    critical section, which claims whatever is ready, and the statements
    that follow it outside the lock.  [rest] is what the caller of
    [reduce] does after the loop. *)
Definition reduce (r : option R) (rest : list instr) (m : Impl)
  : Impl * task * list event :=
  match r with
  | None => (m, mkTask None rest, [])
  | Some res =>
      match ready_object_ m with
      | Some ready_object =>
          (set_ready_object None m,
           mkTask (Some res)
                  (IOpArg ready_object :: IDestroy ready_object :: IDec
                     :: IReduce :: rest),
           [EvTakeObject (oid ready_object)])
      | None =>
          match ready_result_ m with
          | Some ready_result =>
              (set_ready_result None m,
               mkTask (Some res) (IOpRes ready_result :: IReduce :: rest),
               [EvTakeResult])
          | None =>
              (set_ready_result (Some res) m, mkTask None rest, [EvPark])
          end
      end
  end.

(** Execute the next statement of a task. *)
Definition exec (t : task) (m : Impl) : Impl * task * list event :=
  match code t with
  | [] => (m, t, [])
  | IOpArg o :: c =>
      (m, mkTask (option_map (fun r => op_arg r (arg o)) (result t)) c,
       [EvOpArg (oid o)])
  | IOpArg2 o1 o2 :: c =>
      (m, mkTask (option_map (fun r => op_arg2 r (arg o1) (arg o2)) (result t)) c,
       [EvOpArg2 (oid o1) (oid o2)])
  | IOpRes s :: c =>
      (m, mkTask (option_map (fun r => op_res r s) (result t)) c, [EvOpRes])
  | IDestroy o :: c => (m, mkTask (result t) c, destroy o)
  | IReduce :: c => reduce (result t) c m
  | IDec :: c => (dec m, mkTask (result t) c, [EvDec])
  end.

(** [ReduceTaskImpl::ready(object)]: the new state of the two slots and
    the task, if any, handed to [world_.taskq.add]. *)
Definition ready (object : ReduceObject) (m : Impl) : Impl * list task :=
  match ready_result_ m with
  | Some ready_result =>
      (set_ready_result None m, [reduce_result_object ready_result object])
  | None =>
      match ready_object_ m with
      | Some ready_object =>
          (set_ready_object None m, [reduce_object_object object ready_object])
      | None => (set_ready_object (Some object) m, [])
      end
  end.

(** [ReduceTaskImpl::run]: [MADNESS_ASSERT(ready_result_)] fails with
    [None]. *)
Definition run (m : Impl) : option (Impl * list event) :=
  match ready_result_ m with
  | None => None
  | Some r =>
      Some (set_result (op_post r) m,
            EvSet :: (if callback_ m then [EvDone] else []))
  end.

(** The whole system: the client that owns the [ReduceTask] (the calls to
    [add] it has still to make, then [submit]), the [ReduceTask] members
    [count_] and [pimpl_], the futures not yet set, and the tasks in the
    MADNESS queue. *)
Record state : Type := mkState {
  script : list (A * bool);       (* add(arg, callback) calls still to come *)
  count_ : nat;                   (* ReduceTask::count_                     *)
  submitted : bool;               (* submit() has returned                  *)
  queued : bool;                  (* world_.taskq.add(pimpl_) was called    *)
  pimpl_ : Impl;
  pending : list ReduceObject;    (* objects whose future is not set yet    *)
  tasks : list task;
  trace : list event
}.

(** The constructor [ReduceTask(world, op, callback)] *)
Definition init (callback : bool) (adds : list (A * bool)) : state :=
  mkState adds 0 false false (new_impl callback) [] [] [].

(** [ReduceTask::add(arg, callback)]; [is_set] is what [f.probe()] answers
    in [ReduceObject::register_callbacks]. *)
Definition add (a : A) (cb : bool) (is_set : bool) (rest : list (A * bool))
    (s : state) : state :=
  let object := mkObject (count_ s) a cb in
  let m := inc (pimpl_ s) in
  if is_set then
    let '(m', spawned) := ready object m in
    mkState rest (S (count_ s)) (submitted s) (queued s) m' (pending s)
            (tasks s ++ spawned) (trace s ++ [EvAdd (count_ s) cb])
  else
    mkState rest (S (count_ s)) (submitted s) (queued s) m (pending s ++ [object])
            (tasks s) (trace s ++ [EvAdd (count_ s) cb]).

(** [ReduceTask::submit()] *)
Definition submit (s : state) : option state :=
  if Nat.eqb (count_ s) 0 then
    match run (dec (pimpl_ s)) with
    | Some (m, evs) =>
        Some (mkState (script s) (count_ s) true (queued s) m (pending s) (tasks s)
                      (trace s ++ EvDec :: evs))
    | None => None
    end
  else
    Some (mkState (script s) (count_ s) true true (dec (pimpl_ s)) (pending s)
                  (tasks s) (trace s ++ [EvDec])).

(** The interleavings.  The client adds its arguments and then submits;
    at any moment a pending future may be set, which notifies its
    [ReduceObject] ([notify] calls [parent_->ready(this)]); a worker may
    execute the next statement of any queued task; and once the task has
    been queued and its dependency counter is zero, the queue runs it. *)
Inductive step : state -> state -> Prop :=
| step_add s a cb rest is_set :
    script s = (a, cb) :: rest -> submitted s = false ->
    step s (add a cb is_set rest s)
| step_submit s s' :
    script s = [] -> submitted s = false -> submit s = Some s' ->
    step s s'
| step_notify s l1 object l2 m spawned :
    pending s = l1 ++ object :: l2 ->
    ready object (pimpl_ s) = (m, spawned) ->
    step s (mkState (script s) (count_ s) (submitted s) (queued s) m (l1 ++ l2)
                    (tasks s ++ spawned) (trace s))
| step_task s l1 t l2 m t' evs :
    tasks s = l1 ++ t :: l2 -> code t <> [] ->
    exec t (pimpl_ s) = (m, t', evs) ->
    step s (mkState (script s) (count_ s) (submitted s) (queued s) m (pending s)
                    (l1 ++ t' :: l2) (trace s ++ evs))
| step_run s m evs :
    queued s = true -> ndep (pimpl_ s) = 0 -> result_ (pimpl_ s) = None ->
    run (pimpl_ s) = Some (m, evs) ->
    step s (mkState (script s) (count_ s) (submitted s) (queued s) m (pending s)
                    (tasks s) (trace s ++ evs)).

Inductive reachable (s0 : state) : state -> Prop :=
| reach_refl : reachable s0 s0
| reach_step s s' : reachable s0 s -> step s s' -> reachable s0 s'.

(** On every path from [s], [P] comes to hold after finitely many steps,
    and no path gets stuck before. *)
Inductive always_reaches (P : state -> Prop) (s : state) : Prop :=
| ar_now : P s -> always_reaches P s
| ar_later :
    (exists s', step s s') ->
    (forall s', step s s' -> always_reaches P s') ->
    always_reaches P s.

(** A schedule made explicit: which of the enabled steps is taken next.
    [fire] is [step] as a function of that choice, so that a scenario can
    be run. *)
Inductive choice : Type :=
| CAdd (is_set : bool)   (* the client calls add; the future is set or not *)
| CSubmit                (* the client calls submit                        *)
| CNotify (k : nat)      (* the future of the k-th pending object is set   *)
| CTask (k : nat)        (* a worker executes a statement of the k-th task  *)
| CRun.                  (* the queue runs the ReduceTaskImpl itself       *)

Definition fire (c : choice) (s : state) : option state :=
  match c with
  | CAdd is_set =>
      match script s, submitted s with
      | (a, cb) :: rest, false => Some (add a cb is_set rest s)
      | _, _ => None
      end
  | CSubmit =>
      match script s, submitted s with
      | [], false => submit s
      | _, _ => None
      end
  | CNotify k =>
      match pending s !! k with
      | Some object =>
          let '(m, spawned) := ready object (pimpl_ s) in
          Some (mkState (script s) (count_ s) (submitted s) (queued s) m
                        (take k (pending s) ++ drop (S k) (pending s))
                        (tasks s ++ spawned) (trace s))
      | None => None
      end
  | CTask k =>
      match tasks s !! k with
      | Some t =>
          match code t with
          | [] => None
          | _ :: _ =>
              let '(m, t', evs) := exec t (pimpl_ s) in
              Some (mkState (script s) (count_ s) (submitted s) (queued s) m
                            (pending s)
                            (take k (tasks s) ++ t' :: drop (S k) (tasks s))
                            (trace s ++ evs))
          end
      | None => None
      end
  | CRun =>
      match queued s, ndep (pimpl_ s), result_ (pimpl_ s), run (pimpl_ s) with
      | true, 0, None, Some (m, evs) =>
          Some (mkState (script s) (count_ s) (submitted s) (queued s) m
                        (pending s) (tasks s) (trace s ++ evs))
      | _, _, _, _ => None
      end
  end.

Fixpoint schedule (cs : list choice) (s : state) : option state :=
  match cs with
  | [] => Some s
  | c :: cs' =>
      match fire c s with
      | Some s' => schedule cs' s'
      | None => None
      end
  end.

(** ** Bookkeeping used by the invariants *)

Definition slot {X : Type} (f : X -> nat) (x : option X) : nat :=
  match x with Some v => f v | None => 0 end.

Fixpoint total {X : Type} (f : X -> nat) (l : list X) : nat :=
  match l with
  | [] => 0
  | x :: l' => f x + total f l'
  end.

Definition one {X : Type} (_ : X) : nat := 1.

(** Object [o] is the one with identity [i]; and it carries a callback. *)
Definition is_obj (i : nat) (o : ReduceObject) : nat :=
  if Nat.eqb (oid o) i then 1 else 0.
Definition is_obj_cb (i : nat) (o : ReduceObject) : nat :=
  if ocallback_ o then (if Nat.eqb (oid o) i then 1 else 0) else 0.

(** Per statement: the [dec()] calls, the objects still to be fed to
    [op_], the objects still to be destroyed, and a weight for the
    termination measure. *)
Definition i_dec (x : instr) : nat :=
  match x with IDec => 1 | _ => 0 end.
Definition i_use (w : ReduceObject -> nat) (x : instr) : nat :=
  match x with
  | IOpArg o => w o
  | IOpArg2 o1 o2 => w o1 + w o2
  | _ => 0
  end.
Definition i_del (w : ReduceObject -> nat) (x : instr) : nat :=
  match x with IDestroy o => w o | _ => 0 end.
Definition i_red (x : instr) : nat :=
  match x with IReduce => 1 | _ => 0 end.
Definition i_weight (x : instr) : nat :=
  match x with IReduce => 3 | _ => 1 end.

Definition holder (t : task) : nat :=
  match result t with Some _ => 1 | None => 0 end.

(** Per event of the history. *)
Definition e_add (i : nat) (e : event) : nat :=
  match e with EvAdd o _ => if Nat.eqb o i then 1 else 0 | _ => 0 end.
Definition e_add_cb (i : nat) (e : event) : nat :=
  match e with
  | EvAdd o cb => if cb then (if Nat.eqb o i then 1 else 0) else 0
  | _ => 0
  end.
Definition e_use (i : nat) (e : event) : nat :=
  match e with
  | EvOpArg o => if Nat.eqb o i then 1 else 0
  | EvOpArg2 o1 o2 =>
      (if Nat.eqb o1 i then 1 else 0) + (if Nat.eqb o2 i then 1 else 0)
  | _ => 0
  end.
Definition e_delete (i : nat) (e : event) : nat :=
  match e with EvDelete o => if Nat.eqb o i then 1 else 0 | _ => 0 end.
Definition e_notify (i : nat) (e : event) : nat :=
  match e with EvNotify o => if Nat.eqb o i then 1 else 0 | _ => 0 end.

(** How often the history fed object [i] to [op_], deleted it, and fired
    its callback. *)
Definition uses (i : nat) (tr : list event) : nat := total (e_use i) tr.
Definition deletes (i : nat) (tr : list event) : nat := total (e_delete i) tr.
Definition notifies (i : nat) (tr : list event) : nat := total (e_notify i) tr.

(** What is still owed to the objects selected by [w]: the ones whose
    future is pending, the one parked in [ready_object_], and the ones
    named by statements not executed yet. *)
Definition owed (ins : (ReduceObject -> nat) -> instr -> nat)
    (w : ReduceObject -> nat) (s : state) : nat :=
  total w (pending s) + slot w (ready_object_ (pimpl_ s))
  + total (fun t => total (ins w) (code t)) (tasks s).

(** A non-empty statement list ends in [dec()]. *)
Fixpoint ends_dec (c : list instr) : bool :=
  match c with
  | [] => true
  | [x] => match x with IDec => true | _ => false end
  | _ :: c' => ends_dec c'
  end.

Definition all_dec (c : list instr) : bool :=
  forallb (fun x => match x with IDec => true | _ => false end) c.

(** The drain loop is still ahead, and only [dec()] calls follow it. *)
Fixpoint drains (c : list instr) : bool :=
  match c with
  | [] => false
  | IReduce :: c' => all_dec c'
  | _ :: c' => drains c'
  end.

(** A task that still holds a result has the drain loop ahead of it; one
    that has parked its result has only [dec()] calls left. *)
Definition wf_task (t : task) : Prop :=
  ends_dec (code t) = true
  /\ match result t with
     | Some _ => drains (code t)
     | None => all_dec (code t)
     end = true.

Definition sentinel (s : state) : nat := if submitted s then 0 else 1.

Record Inv (s : state) : Prop := mkInv {
  inv_counter :
    ndep (pimpl_ s)
    = sentinel s + length (pending s) + slot one (ready_object_ (pimpl_ s))
      + total (fun t => total i_dec (code t)) (tasks s);
  inv_slots :
    slot one (ready_result_ (pimpl_ s)) + slot one (ready_object_ (pimpl_ s)) <= 1;
  inv_token :
    1 <= slot one (ready_result_ (pimpl_ s)) + total holder (tasks s);
  inv_wf : Forall wf_task (tasks s);
  inv_queued :
    submitted s = true -> result_ (pimpl_ s) <> None \/ queued s = true;
  inv_final :
    result_ (pimpl_ s) <> None -> submitted s = true /\ ndep (pimpl_ s) = 0;
  inv_fresh :
    count_ s = 0 ->
    pending s = [] /\ tasks s = [] /\ ready_object_ (pimpl_ s) = None;
  inv_added :
    forall i, total (e_add i) (trace s) = if Nat.ltb i (count_ s) then 1 else 0;
  inv_uses :
    forall i, owed i_use (is_obj i) s + uses i (trace s) = total (e_add i) (trace s);
  inv_deletes :
    forall i, owed i_del (is_obj i) s + deletes i (trace s) = total (e_add i) (trace s);
  inv_notifies :
    forall i, owed i_del (is_obj_cb i) s + notifies i (trace s)
              = total (e_add_cb i) (trace s);
  inv_script : submitted s = true -> script s = []
}.

(** The termination measure. *)
Definition measure (s : state) : nat :=
  6 * length (script s) + (if submitted s then 0 else 2)
  + slot one (match result_ (pimpl_ s) with None => Some tt | Some _ => None end)
  + 5 * length (pending s)
  + 4 * slot one (ready_object_ (pimpl_ s))
  + 2 * slot one (ready_result_ (pimpl_ s))
  + total (fun t => total i_weight (code t)) (tasks s).

(** A task body executed to its end, whatever the other workers do to
    the shared members in between: every statement finds some [Impl] and
    the events pile up in program order. *)
Inductive runs : task -> list event -> Prop :=
| runs_done t : code t = [] -> runs t []
| runs_next t m m' t' evs rest :
    code t <> [] -> exec t m = (m', t', evs) -> runs t' rest ->
    runs t (evs ++ rest).

End Model.

(** The operation of the first scenario of the specification: integer
    sum, with [op()] the zero and a post-processing that changes nothing. *)
Definition SumOp : ReduceOp := {|
  result_type := Z;
  argument_type := Z;
  op_new := 0%Z;
  op_post := fun temp => temp;
  op_res := fun result arg => (result + arg)%Z;
  op_arg := fun result arg => (result + arg)%Z;
  op_arg2 := fun result arg1 arg2 => (result + arg1 + arg2)%Z
|}.

Definition zslot {X : Type} (f : X -> Z) (x : option X) : Z :=
  match x with Some v => f v | None => 0%Z end.

Fixpoint ztotal {X : Type} (f : X -> Z) (l : list X) : Z :=
  match l with
  | [] => 0%Z
  | x :: l' => (f x + ztotal f l')%Z
  end.

(** What a statement of a [SumOp] task will still add to its result. *)
Definition i_val (x : @instr SumOp) : Z :=
  match x with
  | IOpArg o => arg o
  | IOpArg2 o1 o2 => (arg o1 + arg o2)%Z
  | IOpRes r => r
  | _ => 0%Z
  end.

Definition task_val (t : @task SumOp) : Z :=
  (zslot (fun r : Z => r) (result t) + ztotal i_val (code t))%Z.

(** Everything that has been or will be added and has not reached the
    result future yet. *)
Definition value (s : @state SumOp) : Z :=
  (ztotal (fun x : Z * bool => fst x) (script s)
   + ztotal (fun o : @ReduceObject SumOp => arg o) (pending s)
   + zslot (fun o : @ReduceObject SumOp => arg o) (ready_object_ (pimpl_ s))
   + zslot (fun r : Z => r) (ready_result_ (pimpl_ s))
   + ztotal task_val (tasks s))%Z.

Definition ValInv (sum : Z) (s : @state SumOp) : Prop :=
  match result_ (pimpl_ s) with
  | None => value s = sum
  | Some v => v = sum
  end.

End ReduceTask.

(* ===================================================================== *)
(** * Part II: [SparseShape]                                              *)
(* ===================================================================== *)

Module SparseShape.

(** [value_type]: the norms.  [T] is an arithmetic type; the model
    computes with exact rationals, and [std::sqrt], which the rationals
    lack, is a parameter of the operations that call it. *)
Definition value_type : Type := Q.

(** [x < y] on [value_type] *)
Definition ltb (x y : value_type) : bool :=
  match Qcompare x y with Lt => true | _ => false end.

(** ** Errors: [TA_ASSERT] throws *)

Inductive error : Type :=
| PreconditionViolated     (* a TA_ASSERT failed                     *)
| Diverged.                (* the call does not return               *)

Inductive result (T : Type) : Type :=
| Ok (v : T)
| Raise (e : error).
Arguments Ok {T} v.
Arguments Raise {T} e.

#[export] Instance result_ret : MRet result := fun T v => Ok v.
#[export] Instance result_bind : MBind result := fun T U k c =>
  match c with
  | Ok v => k v
  | Raise e => Raise e
  end.

Definition TA_ASSERT (b : bool) : result unit :=
  if b then Ok tt else Raise PreconditionViolated.

(** ** The collaborators of [SparseShape] *)

(** Modelled from the spec: [Range], the tile grid of a tensor, which the
    sources at hand only use.  A range is the list of its extents, one
    per dimension; [dim] is their number and [volume] their product.
    Elements are stored in row-major order. *)
Definition Range : Type := list nat.

Definition dim (r : Range) : nat := length r.

Fixpoint volume (r : Range) : nat :=
  match r with
  | [] => 1
  | n :: r' => n * volume r'
  end.

(** Modelled from the spec: the row-major ordinal of a coordinate index of
    a [Range], and the coordinate of an ordinal. *)
Fixpoint ord (r : Range) (idx : list nat) : nat :=
  match r, idx with
  | _ :: r', i :: idx' => i * volume r' + ord r' idx'
  | _, _ => 0
  end.

Fixpoint unord (r : Range) (k : nat) : list nat :=
  match r with
  | [] => []
  | _ :: r' => (k / volume r') :: unord r' (k mod volume r')
  end.

(** Modelled from the spec: [Permutation], a bijection on the dimensions
    [0 .. n-1], given by the list of its images.  Applying [p] to a
    sequence [v] of [n] elements puts [v[i]] at position [p[i]]; this is
    the loop of [perm_size_vectors], over any element type, [d] being what
    a slot holds before it is assigned. *)
Definition Permutation_ : Type := list nat.

Definition permute_vec {X : Type} (n : nat) (d : X) (p : Permutation_)
    (v : list X) : list X :=
  foldl (fun res i => <[nth i p 0 := nth i v d]> res) (replicate n d) (seq 0 n).

(** Modelled from the spec: the inverse of a [Permutation]:
    [inverse p [p[i]] = i]. *)
Definition inverse (p : Permutation_) : Permutation_ :=
  permute_vec (length p) 0 p (seq 0 (length p)).

(** Modelled from the spec: the index whose image under the [Permutation]
    [p] is [idx']: [idx[d] = idx'[p[d]]]. *)
Definition unpermute_index (p : Permutation_) (idx' : list nat) : list nat :=
  map (fun d => nth (nth d p 0) idx' 0) (seq 0 (length idx')).

(** Modelled from the spec: [Tensor<value_type>], the dense tensor of
    norms.  A default-constructed tensor is [empty()]; any other one has a
    range and its elements in row-major order. *)
Record TensorImpl : Type := mkTensor {
  range_ : Range;
  data_ : list value_type
}.

Definition Tensor : Type := option TensorImpl.

(** Modelled from the spec: [Tensor::empty()] *)
Definition tensor_empty (t : Tensor) : bool :=
  match t with Some _ => false | None => true end.

(** Modelled from the spec: access to a [Tensor] that must not be empty. *)
Definition deref (t : Tensor) : result TensorImpl :=
  match t with
  | Some i => Ok i
  | None => Raise PreconditionViolated
  end.

(** Modelled from the spec: [Tensor::operator[]] with an ordinal index *)
Definition tensor_at (t : Tensor) (i : nat) : result value_type :=
  x ← deref t;
  match data_ x !! i with
  | Some v => Ok v
  | None => Raise PreconditionViolated
  end.

(** Modelled from the spec: [Tensor::permute(perm)], which permutes the
    range like the size vectors and moves the element at [idx] to
    [perm(idx)]. *)
Definition tensor_permute (p : Permutation_) (t : Tensor) : result Tensor :=
  x ← deref t;
  let r' := permute_vec (dim (range_ x)) 0 p (range_ x) in
  Ok (Some (mkTensor r'
              (map (fun k => nth (ord (range_ x) (unpermute_index p (unord r' k)))
                                 (data_ x) 0%Q)
                   (seq 0 (volume r'))))).

(** Modelled from the spec: [Tensor::unary(op)] and
    [Tensor::unary(op, perm)], elementwise. *)
Definition tensor_unary (op : value_type -> value_type) (t : Tensor) : result Tensor :=
  x ← deref t;
  Ok (Some (mkTensor (range_ x) (map op (data_ x)))).

Definition tensor_unary_perm (op : value_type -> value_type) (p : Permutation_)
    (t : Tensor) : result Tensor :=
  u ← tensor_unary op t; tensor_permute p u.

(** Modelled from the spec: [Tensor::binary(other, op)] and
    [Tensor::binary(other, op, perm)], elementwise; the ranges must agree. *)
Definition tensor_binary (op : value_type -> value_type -> value_type)
    (t other : Tensor) : result Tensor :=
  x ← deref t;
  y ← deref other;
  TA_ASSERT (bool_decide (range_ x = range_ y)) ;;
  Ok (Some (mkTensor (range_ x) (zip_with op (data_ x) (data_ y)))).

Definition tensor_binary_perm (op : value_type -> value_type -> value_type)
    (p : Permutation_) (t other : Tensor) : result Tensor :=
  u ← tensor_binary op t other; tensor_permute p u.

(** Modelled from the spec: [Tensor::add], [Tensor::mult] and their scaled
    and permuted forms *)
Definition tensor_add (t other : Tensor) : result Tensor :=
  tensor_binary Qplus t other.
Definition tensor_add_perm (p : Permutation_) (t other : Tensor) : result Tensor :=
  tensor_binary_perm Qplus p t other.
Definition tensor_mult (t other : Tensor) : result Tensor :=
  tensor_binary Qmult t other.
Definition tensor_mult_perm (p : Permutation_) (t other : Tensor) : result Tensor :=
  tensor_binary_perm Qmult p t other.
Definition tensor_mult_scaled (factor : value_type) (t other : Tensor) : result Tensor :=
  tensor_binary (fun l r => (l * r * factor)%Q) t other.
Definition tensor_mult_scaled_perm (factor : value_type) (p : Permutation_)
    (t other : Tensor) : result Tensor :=
  tensor_binary_perm (fun l r => (l * r * factor)%Q) p t other.

(** Modelled from the spec: the kernels of [math::], over the first [n]
    (or [m] and [n]) elements of their arguments.  [vector_op] is
    [binary_vector_op] with a separate result, [vector_op_inplace] the one
    that updates its result array; [outer_fill] writes
    [result[i*n+j] = op(left[i], right[j])], [outer], in place, and
    [outer_fill_from], into a copy, apply [op(a[i*n+j], left[i], right[j])]. *)
Definition vector_type : Type := list value_type.

Definition vector_op (n : nat) (left right : vector_type)
    (op : value_type -> value_type -> value_type) : vector_type :=
  zip_with op (take n left) (take n right).

Definition vector_op_inplace (n : nat) (arg result : vector_type)
    (op : value_type -> value_type -> value_type) : vector_type :=
  zip_with op (take n result) (take n arg) ++ drop n result.

Definition outer_fill (m n : nat) (left right : vector_type)
    (op : value_type -> value_type -> value_type) : vector_type :=
  flat_map (fun l => map (op l) (take n right)) (take m left).

Definition outer (m n : nat) (left right a : vector_type)
    (op : value_type -> value_type -> value_type -> value_type) : vector_type :=
  zip_with (fun x lr => op x (fst lr) (snd lr)) (take (m * n) a)
           (flat_map (fun l => map (pair l) (take n right)) (take m left))
  ++ drop (m * n) a.

Definition outer_fill_from (m n : nat) (left right a : vector_type)
    (op : value_type -> value_type -> value_type -> value_type) : vector_type :=
  zip_with (fun x lr => op x (fst lr) (snd lr)) (take (m * n) a)
           (flat_map (fun l => map (pair l) (take n right)) (take m left)).

(** Modelled from the spec: [TiledRange], per dimension the list of the
    element intervals [first, second) of its tiles; [tiles] is the range
    of the tile grid. *)
Definition TiledRange1 : Type := list (nat * nat).
Definition TiledRange : Type := list TiledRange1.

Definition tiles (trange : TiledRange) : Range := map length trange.

(** Modelled from the spec: [math::GemmHelper], the partition of the
    dimensions of the two arguments of a contraction into outer and inner
    (contracted) ones, for arguments that are not transposed. *)
Record GemmHelper : Type := mkGemmHelper {
  result_rank : nat;
  left_outer_begin : nat;
  left_outer_end : nat;
  left_inner_begin : nat;
  left_inner_end : nat;
  right_outer_begin : nat;
  right_outer_end : nat;
  right_inner_begin : nat;
  right_inner_end : nat
}.

(** Modelled from the spec: the elements [begin .. end-1] of a sequence,
    as [GemmHelper] selects them. *)
Definition slice {X : Type} (first last : nat) (v : list X) : list X :=
  take (last - first) (drop first v).

(** Modelled from the spec:
    [GemmHelper::compute_matrix_sizes(M, N, K, left, right)] *)
Definition compute_matrix_sizes (h : GemmHelper) (left right : Range)
  : nat * nat * nat :=
  (volume (slice (left_outer_begin h) (left_outer_end h) left),
   volume (slice (right_outer_begin h) (right_outer_end h) right),
   volume (slice (left_inner_begin h) (left_inner_end h) left)).

(** Modelled from the spec: [GemmHelper::make_result_range(left, right)] *)
Definition make_result_range (h : GemmHelper) (left right : Range) : Range :=
  slice (left_outer_begin h) (left_outer_end h) left
  ++ slice (right_outer_begin h) (right_outer_end h) right.

(** Modelled from the spec: [Tensor::gemm(other, factor, gemm_helper)] on
    an [M x K] and a [K x N] matrix: [factor] times their product. *)
Definition tensor_gemm (h : GemmHelper) (factor : value_type) (t other : Tensor)
  : result Tensor :=
  x ← deref t;
  y ← deref other;
  let '(M, N, K) := compute_matrix_sizes h (range_ x) (range_ y) in
  Ok (Some (mkTensor (make_result_range h (range_ x) (range_ y))
              (flat_map
                 (fun m =>
                    map (fun n =>
                           (factor *
                            foldr Qplus 0
                              (map (fun k => nth (m * K + k) (data_ x) 0
                                             * nth (k * N + n) (data_ y) 0)
                                   (seq 0 K)))%Q)
                        (seq 0 N))
                 (seq 0 M)))).

(** Modelled from the spec: [Tensor::inplace_unary(op)] *)
Definition tensor_inplace_unary (op : value_type -> value_type) (t : Tensor)
  : result Tensor :=
  tensor_unary op t.

(** ** [class SparseShape] *)

(** The data members; [size_vectors_] is the array of per-dimension tile
    sizes behind the shared pointer. *)
Record SparseShape_ : Type := mkShape {
  tile_norms_ : Tensor;
  size_vectors_ : list vector_type
}.

(** The static member [threshold_], process-wide and mutable: the
    operations read it from the statics they are given. *)
Record Statics : Type := mkStatics {
  threshold_ : value_type
}.

(** [value < threshold ? 0 : value] *)
Definition hard_zero (threshold value : value_type) : value_type :=
  if ltb value threshold then 0%Q else value.

(** [recursive_outer_product(size_vectors, dim, op)].  [size_vectors +
    middle] is the array without its first [middle] entries.  The
    recursion halves [dim]; [fuel] bounds its depth, and running out of it
    ([None]) stands for a call that does not return, as for [dim == 0]. *)
Fixpoint recursive_outer_product (fuel : nat) (size_vectors : list vector_type)
    (dim : nat) (op : vector_type -> vector_type) : option vector_type :=
  match fuel with
  | 0 => None
  | S fuel' =>
      if Nat.eqb dim 1 then Some (op (nth 0 size_vectors []))
      else
        let middle := Nat.shiftr dim 1 + Nat.land dim 1 in
        left ← recursive_outer_product fuel' size_vectors middle op;
        right ← recursive_outer_product fuel' (drop middle size_vectors)
                  (dim - middle) op;
        Some (outer_fill (length left) (length right) left right Qmult)
  end.

Definition returned {T : Type} (c : option T) : result T :=
  match c with
  | Some v => Ok v
  | None => Raise Diverged
  end.

(** [normalize()]; the [TA_ASSERT(norm >= 0)] of the element operation is
    checked over the elements it visits before they are updated. *)
Definition normalize (g : Statics) (S : SparseShape_) : result SparseShape_ :=
  x ← deref (tile_norms_ S);
  let threshold := threshold_ g in
  let dim := dim (range_ x) in
  let size_vectors := size_vectors_ S in
  if Nat.eqb dim 1 then
    let size0 := nth 0 size_vectors [] in
    TA_ASSERT (forallb (fun norm => negb (ltb norm 0%Q)) (take (length size0) (data_ x)));;
    Ok (mkShape
          (Some (mkTensor (range_ x)
                   (vector_op_inplace (length size0) size0 (data_ x)
                      (fun norm size => hard_zero threshold (norm / size)%Q))))
          size_vectors)
  else
    let inv_vec_op := map (fun size => (1 / size)%Q) in
    let middle := Nat.shiftr dim 1 + Nat.land dim 1 in
    left ← returned (recursive_outer_product middle size_vectors middle inv_vec_op);
    right ← returned (recursive_outer_product (dim - middle)
                        (drop middle size_vectors) (dim - middle) inv_vec_op);
    TA_ASSERT (forallb (fun norm => negb (ltb norm 0%Q))
                 (take (length left * length right) (data_ x)));;
    Ok (mkShape
          (Some (mkTensor (range_ x)
                   (outer (length left) (length right) left right (data_ x)
                      (fun norm l r => hard_zero threshold (norm * (l * r))%Q))))
          size_vectors).

(** [initialize_size_vectors(trange)] *)
Definition initialize_size_vectors (trange : TiledRange) : list vector_type :=
  map (map (fun tile : nat * nat =>
              inject_Z (Z.of_nat (snd tile) - Z.of_nat (fst tile))))
      trange.

(** [perm_size_vectors(perm)] *)
Definition perm_size_vectors (perm : Permutation_) (S : SparseShape_)
  : result (list vector_type) :=
  x ← deref (tile_norms_ S);
  let n := dim (range_ x) in
  Ok (permute_vec n [] perm (size_vectors_ S)).


(** The constructor [SparseShape(tile_norms, trange)] *)
Definition make_shape (g : Statics) (tile_norms : Tensor) (trange : TiledRange)
  : result SparseShape_ :=
  TA_ASSERT (negb (tensor_empty tile_norms));;
  x ← deref tile_norms;
  TA_ASSERT (bool_decide (range_ x = tiles trange));;
  normalize g (mkShape tile_norms (initialize_size_vectors trange)).

(** [validate(range)] *)
Definition validate (S : SparseShape_) (range : Range) : bool :=
  match tile_norms_ S with
  | None => false
  | Some x => bool_decide (range = range_ x)
  end.

(** [is_zero(i)] *)
Definition is_zero (g : Statics) (S : SparseShape_) (i : nat) : result bool :=
  TA_ASSERT (negb (tensor_empty (tile_norms_ S)));;
  v ← tensor_at (tile_norms_ S) i;
  Ok (ltb v (threshold_ g)).


(** [threshold()] and [threshold(thresh)].  The setter returns nothing and
    has no way to fail; it is given a [result] so that this can be said. *)
Definition threshold (g : Statics) : value_type := threshold_ g.

Definition set_threshold (thresh : value_type) (g : Statics) : result Statics :=
  Ok (mkStatics thresh).

(** [operator[](index)], [data()] and [empty()] *)
Definition at_ (S : SparseShape_) (index : nat) : result value_type :=
  TA_ASSERT (negb (tensor_empty (tile_norms_ S)));;
  tensor_at (tile_norms_ S) index.

Definition data (S : SparseShape_) : Tensor := tile_norms_ S.






(** [perm(perm)] *)
Definition perm (p : Permutation_) (S : SparseShape_) : result SparseShape_ :=
  t ← tensor_permute p (tile_norms_ S);
  sv ← perm_size_vectors p S;
  Ok (mkShape t sv).

(** [scale(factor)] and [scale(factor, perm)] *)
Definition scale (g : Statics) (factor : value_type) (S : SparseShape_)
  : result SparseShape_ :=
  TA_ASSERT (negb (tensor_empty (tile_norms_ S)));;
  let abs_factor := Qabs factor in
  let op := fun value => hard_zero (threshold_ g) (value * abs_factor)%Q in
  t ← tensor_unary op (tile_norms_ S);
  Ok (mkShape t (size_vectors_ S)).

Definition scale_perm (g : Statics) (factor : value_type) (p : Permutation_)
    (S : SparseShape_) : result SparseShape_ :=
  TA_ASSERT (negb (tensor_empty (tile_norms_ S)));;
  let abs_factor := Qabs factor in
  let op := fun value => hard_zero (threshold_ g) (value * abs_factor)%Q in
  t ← tensor_unary_perm op p (tile_norms_ S);
  sv ← perm_size_vectors p S;
  Ok (mkShape t sv).

(** [add(other)], [add(other, perm)], [add(other, factor)] and
    [add(other, factor, perm)] *)
Definition add (S other : SparseShape_) : result SparseShape_ :=
  TA_ASSERT (negb (tensor_empty (tile_norms_ S)));;
  t ← tensor_add (tile_norms_ S) (tile_norms_ other);
  Ok (mkShape t (size_vectors_ S)).

Definition add_perm (p : Permutation_) (S other : SparseShape_)
  : result SparseShape_ :=
  TA_ASSERT (negb (tensor_empty (tile_norms_ S)));;
  t ← tensor_add_perm p (tile_norms_ S) (tile_norms_ other);
  sv ← perm_size_vectors p S;
  Ok (mkShape t sv).

Definition add_scaled (g : Statics) (factor : value_type) (S other : SparseShape_)
  : result SparseShape_ :=
  TA_ASSERT (negb (tensor_empty (tile_norms_ S)));;
  let abs_factor := Qabs factor in
  let op := fun left right => hard_zero (threshold_ g) ((left + right) * abs_factor)%Q in
  t ← tensor_binary op (tile_norms_ S) (tile_norms_ other);
  Ok (mkShape t (size_vectors_ S)).

Definition add_scaled_perm (g : Statics) (factor : value_type) (p : Permutation_)
    (S other : SparseShape_) : result SparseShape_ :=
  TA_ASSERT (negb (tensor_empty (tile_norms_ S)));;
  let abs_factor := Qabs factor in
  let op := fun left right => hard_zero (threshold_ g) ((left + right) * abs_factor)%Q in
  t ← tensor_binary_perm op p (tile_norms_ S) (tile_norms_ other);
  sv ← perm_size_vectors p S;
  Ok (mkShape t sv).

Section WithSqrt.

(** [std::sqrt] on [value_type] *)
Variable sqrt : value_type -> value_type.

(** [add(value)]; the elements of [result_tile_norms] that the kernels do
    not write are indeterminate and are left out. *)
Definition add_value (g : Statics) (value : value_type) (S : SparseShape_)
  : result SparseShape_ :=
  TA_ASSERT (negb (tensor_empty (tile_norms_ S)));;
  x ← deref (tile_norms_ S);
  let threshold := threshold_ g in
  let value := Qabs value in
  let dim := dim (range_ x) in
  let size_vectors := size_vectors_ S in
  if Nat.eqb dim 1 then
    let size0 := nth 0 size_vectors [] in
    Ok (mkShape
          (Some (mkTensor (range_ x)
                   (vector_op (length size0) (data_ x) size0
                      (fun norm size => hard_zero threshold (norm + value / sqrt size)%Q))))
          size_vectors)
  else
    let inv_sqrt_vec_op := map (fun size => (1 / sqrt size)%Q) in
    let middle := Nat.shiftr dim 1 + Nat.land dim 1 in
    left ← returned (recursive_outer_product middle size_vectors middle inv_sqrt_vec_op);
    right ← returned (recursive_outer_product (dim - middle)
                        (drop middle size_vectors) (dim - middle) inv_sqrt_vec_op);
    Ok (mkShape
          (Some (mkTensor (range_ x)
                   (outer_fill_from (length left) (length right) left right (data_ x)
                      (fun norm l r => hard_zero threshold (norm + value * l * r)%Q))))
          size_vectors).

(** [add(value, perm)] *)
Definition add_value_perm (g : Statics) (value : value_type) (p : Permutation_)
    (S : SparseShape_) : result SparseShape_ :=
  r ← add_value g value S; perm p r.

(** The six overloads of [subt] *)
Definition subt (S other : SparseShape_) : result SparseShape_ :=
  add S other.

Definition subt_perm (p : Permutation_) (S other : SparseShape_)
  : result SparseShape_ :=
  add_perm p S other.

Definition subt_scaled (g : Statics) (factor : value_type) (S other : SparseShape_)
  : result SparseShape_ :=
  add_scaled g factor S other.

Definition subt_scaled_perm (g : Statics) (factor : value_type) (p : Permutation_)
    (S other : SparseShape_) : result SparseShape_ :=
  add_scaled_perm g factor p S other.

Definition subt_value (g : Statics) (value : value_type) (S : SparseShape_)
  : result SparseShape_ :=
  add_value g value S.

Definition subt_value_perm (g : Statics) (value : value_type) (p : Permutation_)
    (S : SparseShape_) : result SparseShape_ :=
  add_value_perm g value p S.

End WithSqrt.

(** [scale_by_size(tile_norms, size_vectors)]: the tensor it leaves in
    [tile_norms] *)
Definition scale_by_size (g : Statics) (tile_norms : Tensor)
    (size_vectors : list vector_type) : result Tensor :=
  x ← deref tile_norms;
  let dim := dim (range_ x) in
  if Nat.eqb dim 1 then
    let size0 := nth 0 size_vectors [] in
    Ok (Some (mkTensor (range_ x)
                (vector_op_inplace (length size0) size0 (data_ x)
                   (fun norm size => (norm * size)%Q))))
  else
    let noop := fun size_vector : vector_type => size_vector in
    let middle := Nat.shiftr dim 1 + Nat.land dim 1 in
    left ← returned (recursive_outer_product middle size_vectors middle noop);
    right ← returned (recursive_outer_product (dim - middle)
                        (drop middle size_vectors) (dim - middle) noop);
    let threshold := threshold_ g in
    Ok (Some (mkTensor (range_ x)
                (outer (length left) (length right) left right (data_ x)
                   (fun norm l r => hard_zero threshold (norm * (l * r))%Q)))).

(** [mult(other)], [mult(other, perm)], [mult(other, factor)] and
    [mult(other, factor, perm)] *)
Definition mult (g : Statics) (S other : SparseShape_) : result SparseShape_ :=
  TA_ASSERT (negb (tensor_empty (tile_norms_ S)));;
  result_tile_norms ← tensor_mult (tile_norms_ S) (tile_norms_ other);
  result_tile_norms ← scale_by_size g result_tile_norms (size_vectors_ S);
  Ok (mkShape result_tile_norms (size_vectors_ S)).

Definition mult_perm (g : Statics) (p : Permutation_) (S other : SparseShape_)
  : result SparseShape_ :=
  TA_ASSERT (negb (tensor_empty (tile_norms_ S)));;
  result_tile_norms ← tensor_mult_perm p (tile_norms_ S) (tile_norms_ other);
  result_size_vector ← perm_size_vectors p S;
  result_tile_norms ← scale_by_size g result_tile_norms result_size_vector;
  Ok (mkShape result_tile_norms result_size_vector).

Definition mult_scaled (g : Statics) (factor : value_type) (S other : SparseShape_)
  : result SparseShape_ :=
  TA_ASSERT (negb (tensor_empty (tile_norms_ S)));;
  result_tile_norms ←
    tensor_mult_scaled (Qabs factor) (tile_norms_ S) (tile_norms_ other);
  result_tile_norms ← scale_by_size g result_tile_norms (size_vectors_ S);
  Ok (mkShape result_tile_norms (size_vectors_ S)).

Definition mult_scaled_perm (g : Statics) (factor : value_type) (p : Permutation_)
    (S other : SparseShape_) : result SparseShape_ :=
  TA_ASSERT (negb (tensor_empty (tile_norms_ S)));;
  result_tile_norms ←
    tensor_mult_scaled_perm (Qabs factor) p (tile_norms_ S) (tile_norms_ other);
  result_size_vector ← perm_size_vectors p S;
  result_tile_norms ← scale_by_size g result_tile_norms result_size_vector;
  Ok (mkShape result_tile_norms result_size_vector).

(** [gemm(other, factor, gemm_helper)] *)
Definition gemm (g : Statics) (factor : value_type) (gemm_helper : GemmHelper)
    (S other : SparseShape_) : result SparseShape_ :=
  TA_ASSERT (negb (tensor_empty (tile_norms_ S)));;
  x ← deref (tile_norms_ S);
  y ← deref (tile_norms_ other);
  let factor := Qabs factor in
  let threshold := threshold_ g in
  let '(M, N, K) := compute_matrix_sizes gemm_helper (range_ x) (range_ y) in
  (* an array of result_rank() vectors, filled from its start with the
     outer size vectors of the left, then those of the right *)
  let result_size_vectors :=
    take (result_rank gemm_helper)
         (slice (left_outer_begin gemm_helper) (left_outer_end gemm_helper)
                (size_vectors_ S)
          ++ slice (right_outer_begin gemm_helper) (right_outer_end gemm_helper)
                   (size_vectors_ other)
          ++ replicate (result_rank gemm_helper) []) in
  let k_rank := left_inner_end gemm_helper - left_inner_begin gemm_helper in
  result_norms ←
    (if Nat.ltb 0 k_rank then
       k_sizes ← returned
         (recursive_outer_product k_rank
            (drop (left_inner_begin gemm_helper) (size_vectors_ S)) k_rank
            (fun size_vector => size_vector));
       let left :=
         mkTensor (range_ x)
           (flat_map (fun m => vector_op K (drop (m * K) (data_ x)) k_sizes Qmult)
                     (seq 0 M)) in
       let right :=
         mkTensor (range_ y)
           (flat_map (fun k => map (fun a => (a * nth k k_sizes 0)%Q)
                                   (take N (drop (k * N) (data_ y))))
                     (seq 0 K)) in
       tensor_gemm gemm_helper factor (Some left) (Some right)
     else
       (* an outer product: the inputs are used directly *)
       Ok (Some (mkTensor (make_result_range gemm_helper (range_ x) (range_ y))
                   (outer_fill M N (data_ x) (data_ y)
                      (fun left right =>
                         hard_zero threshold (left * right * factor)%Q)))));
  (* hard zero tiles that are below the zero threshold *)
  result_norms ← tensor_inplace_unary (hard_zero (threshold_ g)) result_norms;
  Ok (mkShape result_norms result_size_vectors).

(** [gemm(other, factor, gemm_helper, perm)] *)
Definition gemm_perm (g : Statics) (factor : value_type) (gemm_helper : GemmHelper)
    (p : Permutation_) (S other : SparseShape_) : result SparseShape_ :=
  r ← gemm g factor gemm_helper S other; perm p r.

(** ** What the specification asks of a shape *)

(** The class invariant on the sizes: as many elements as the range has
    tiles, and one size vector per dimension. *)
Definition wf_shape (S : SparseShape_) : Prop :=
  match tile_norms_ S with
  | None => True
  | Some x =>
      length (data_ x) = volume (range_ x)
      /\ length (size_vectors_ S) = dim (range_ x)
  end.

(** [p] is a permutation of the dimensions [0 .. n-1]. *)
Definition is_permutation (n : nat) (p : Permutation_) : Prop :=
  Permutation p (seq 0 n).

(** [idx] is a coordinate index of the range [r]. *)
Definition in_range (r : Range) (idx : list nat) : Prop :=
  Forall2 lt idx r.

(** Every stored norm below the threshold is stored as zero. *)
Definition hard_zeroed (g : Statics) (S : SparseShape_) : Prop :=
  match tile_norms_ S with
  | None => True
  | Some x => Forall (fun v => ltb v (threshold_ g) = true -> Qeq v 0) (data_ x)
  end.

End SparseShape.

(* ===================================================================== *)
(** * Part II-a: [SparseShape<T>::gemm] in the arithmetic of [T]          *)
(* ===================================================================== *)

Module SparseShapeOf.
Import SparseShape.

(** The arithmetic of [T], the template parameter of [SparseShape<T>], as
    far as [gemm] uses it: [value_type(0)], [left * right], [std::abs] and
    [value < threshold].  Nothing is assumed of it, so that what is proved
    holds of the floating-point types the class is instantiated with,
    rounding included. *)
Class Arithmetic : Type := {
  value_type : Type;
  zero : value_type;
  times : value_type -> value_type -> value_type;
  abs : value_type -> value_type;
  less : value_type -> value_type -> bool
}.

Section Template.

Context {A : Arithmetic}.

Definition vector_type : Type := list value_type.

(** Modelled from the spec: [Tensor<value_type>], as in Part II: a
    default-constructed tensor is [empty()], any other one has a range and
    its elements in row-major order. *)
Record TensorImpl : Type := mkTensor {
  range_ : Range;
  data_ : list value_type
}.

Definition Tensor : Type := option TensorImpl.

Definition tensor_empty (t : Tensor) : bool :=
  match t with Some _ => false | None => true end.

Definition deref (t : Tensor) : result TensorImpl :=
  match t with
  | Some i => Ok i
  | None => Raise PreconditionViolated
  end.

(** Modelled from the spec: [Tensor::inplace_unary(op)] *)
Definition tensor_inplace_unary (op : value_type -> value_type) (t : Tensor)
  : result Tensor :=
  x ← deref t;
  Ok (Some (mkTensor (range_ x) (map op (data_ x)))).

(** Modelled from the spec: the kernels [math::binary_vector_op] and
    [math::outer_fill], over the first [n] (or [m] and [n]) elements of
    their arguments: [outer_fill] writes
    [result[i*n+j] = op(left[i], right[j])]. *)
Definition vector_op (n : nat) (left right : vector_type)
    (op : value_type -> value_type -> value_type) : vector_type :=
  zip_with op (take n left) (take n right).

Definition outer_fill (m n : nat) (left right : vector_type)
    (op : value_type -> value_type -> value_type) : vector_type :=
  flat_map (fun l => map (op l) (take n right)) (take m left).

(** Modelled from the spec: [Tensor::gemm(other, factor, gemm_helper)],
    which the class only calls: any function of its arguments. *)
Variable tensor_gemm :
  GemmHelper -> value_type -> Tensor -> Tensor -> result Tensor.

(** The data members, and the static member [threshold_]. *)
Record SparseShape_ : Type := mkShape {
  tile_norms_ : Tensor;
  size_vectors_ : list vector_type
}.

Record Statics : Type := mkStatics {
  threshold_ : value_type
}.

(** [recursive_outer_product(size_vectors, dim, op)], with the bound on
    the depth of the recursion of Part II. *)
Fixpoint recursive_outer_product (fuel : nat) (size_vectors : list vector_type)
    (dim : nat) (op : vector_type -> vector_type) : option vector_type :=
  match fuel with
  | 0 => None
  | S fuel' =>
      if Nat.eqb dim 1 then Some (op (nth 0 size_vectors []))
      else
        let middle := Nat.shiftr dim 1 + Nat.land dim 1 in
        left ← recursive_outer_product fuel' size_vectors middle op;
        right ← recursive_outer_product fuel' (drop middle size_vectors)
                  (dim - middle) op;
        Some (outer_fill (length left) (length right) left right times)
  end.

(** [gemm(other, factor, gemm_helper)] *)
Definition gemm (g : Statics) (factor : value_type) (gemm_helper : GemmHelper)
    (S other : SparseShape_) : result SparseShape_ :=
  TA_ASSERT (negb (tensor_empty (tile_norms_ S)));;
  x ← deref (tile_norms_ S);
  y ← deref (tile_norms_ other);
  let factor := abs factor in
  let threshold := threshold_ g in
  let '(M, N, K) := compute_matrix_sizes gemm_helper (range_ x) (range_ y) in
  (* an array of result_rank() vectors, filled from its start with the
     outer size vectors of the left, then those of the right *)
  let result_size_vectors :=
    take (result_rank gemm_helper)
         (slice (left_outer_begin gemm_helper) (left_outer_end gemm_helper)
                (size_vectors_ S)
          ++ slice (right_outer_begin gemm_helper) (right_outer_end gemm_helper)
                   (size_vectors_ other)
          ++ replicate (result_rank gemm_helper) []) in
  let k_rank := left_inner_end gemm_helper - left_inner_begin gemm_helper in
  result_norms ←
    (if Nat.ltb 0 k_rank then
       k_sizes ← returned
         (recursive_outer_product k_rank
            (drop (left_inner_begin gemm_helper) (size_vectors_ S)) k_rank
            (fun size_vector => size_vector));
       let left :=
         mkTensor (range_ x)
           (flat_map (fun m => vector_op K (drop (m * K) (data_ x)) k_sizes times)
                     (seq 0 M)) in
       let right :=
         mkTensor (range_ y)
           (flat_map (fun k => map (fun a => times a (nth k k_sizes zero))
                                   (take N (drop (k * N) (data_ y))))
                     (seq 0 K)) in
       tensor_gemm gemm_helper factor (Some left) (Some right)
     else
       (* an outer product: the inputs are used directly *)
       Ok (Some (mkTensor (make_result_range gemm_helper (range_ x) (range_ y))
                   (outer_fill M N (data_ x) (data_ y)
                      (fun left right =>
                         let norm := times (times left right) factor in
                         if less norm threshold then zero else norm)))));
  (* hard zero tiles that are below the zero threshold *)
  result_norms ←
    tensor_inplace_unary
      (fun value => if less value (threshold_ g) then zero else value)
      result_norms;
  Ok (mkShape result_norms result_size_vectors).

End Template.

(** IEEE 754 single precision, the [float] of [SparseShape<float>]:
    multiplication rounds to nearest, ties to even. *)
Definition Binary32 : Arithmetic := {|
  value_type := spec_float;
  zero := S754_zero false;
  times := SFmul 24 128;
  abs := SFabs;
  less := SFltb
|}.

(** The [float] nearest to [m * 2^e]. *)
Definition float32 (m e : Z) : spec_float := binary_normalize 24 128 m e false.

(** The exact rationals in which Part II computes, as an arithmetic, and
    the shapes of Part II as shapes over it. *)
Definition Rationals : Arithmetic := {|
  value_type := Q;
  zero := 0%Q;
  times := Qmult;
  abs := Qabs;
  less := SparseShape.ltb
|}.

Definition of_tensor (t : SparseShape.Tensor) : Tensor (A := Rationals) :=
  match t with
  | Some x =>
      Some (mkTensor (A := Rationals) (SparseShape.range_ x) (SparseShape.data_ x))
  | None => None
  end.

Definition to_tensor (t : Tensor (A := Rationals)) : SparseShape.Tensor :=
  match t with
  | Some x => Some (SparseShape.mkTensor (range_ x) (data_ x))
  | None => None
  end.

Definition of_shape (S : SparseShape.SparseShape_) : SparseShape_ (A := Rationals) :=
  mkShape (A := Rationals) (of_tensor (SparseShape.tile_norms_ S))
          (SparseShape.size_vectors_ S).

Definition of_result (r : result SparseShape.SparseShape_)
  : result (SparseShape_ (A := Rationals)) :=
  match r with
  | Ok R => Ok (of_shape R)
  | Raise e => Raise e
  end.

(** [Tensor::gemm] as Part II models it. *)
Definition rational_gemm (h : GemmHelper) (factor : Q)
    (left right : Tensor (A := Rationals)) : result (Tensor (A := Rationals)) :=
  match SparseShape.tensor_gemm h factor (to_tensor left) (to_tensor right) with
  | Ok t => Ok (of_tensor t)
  | Raise e => Raise e
  end.

(** The helper of an outer product of two tensors of one dimension. *)
Definition outer_helper : SparseShape.GemmHelper :=
  SparseShape.mkGemmHelper 2 0 1 1 1 0 1 0 0.

(** A shape of one dimension over tiles of one element, in [float]. *)
Definition row32 (norms : list spec_float) : SparseShape_ (A := Binary32) :=
  mkShape (A := Binary32)
    (Some (mkTensor (A := Binary32) [length norms] norms))
    [map (fun _ => float32 1 0) norms].

End SparseShapeOf.

(* ===================================================================== *)
(** * Part II-b: more of [reduce_task.h]                                  *)
(* ===================================================================== *)

Module ReduceTaskMore.
Import ReduceTask.

(** ** Counting the calls of a run *)

(** The three reducing calls of [op_]; [result_.set]; the completion
    callback; the arguments a call consumes. *)
Definition e_reducing (e : event) : nat :=
  match e with
  | EvOpArg _ | EvOpArg2 _ _ | EvOpRes => 1
  | _ => 0
  end.
Definition e_op_res (e : event) : nat :=
  match e with EvOpRes => 1 | _ => 0 end.
Definition e_op_arg2 (e : event) : nat :=
  match e with EvOpArg2 _ _ => 1 | _ => 0 end.
Definition e_consumed (e : event) : nat :=
  match e with
  | EvOpArg _ => 1
  | EvOpArg2 _ _ => 2
  | _ => 0
  end.
Definition e_set (e : event) : nat :=
  match e with EvSet => 1 | _ => 0 end.
Definition e_done (e : event) : nat :=
  match e with EvDone => 1 | _ => 0 end.
Definition e_dec (e : event) : nat :=
  match e with EvDec => 1 | _ => 0 end.

Section Counters.

Context {op : ReduceOp}.

Definition i_res (x : instr) : nat :=
  match x with IOpRes _ => 1 | _ => 0 end.
Definition i_arg2 (x : instr) : nat :=
  match x with IOpArg2 _ _ => 1 | _ => 0 end.

(** The bookkeeping of a run: every partial result (parked, or held by a
    task) but the first was created by a [reduce_object_object], and
    disappears in a result-with-result reduction; every argument added is
    pending, parked, named by a statement to come, or was consumed; the
    result future is set by one [EvSet], followed by the callback when
    there is one; and [dec()] has been called once for the sentinel after
    [submit] and once per argument that is no longer owed one. *)
Record Accounts (s : state) : Prop := mkAccounts {
  acc_results :
    slot one (ready_result_ (pimpl_ s)) + total holder (tasks s)
    + total (fun t => total i_res (code t)) (tasks s)
    + total e_op_res (trace s)
    = 1 + total (fun t => total i_arg2 (code t)) (tasks s)
      + total e_op_arg2 (trace s);
  acc_consumed :
    owed i_use one s + total e_consumed (trace s) = count_ s;
  acc_set :
    total e_set (trace s) = slot one (result_ (pimpl_ s));
  acc_done :
    total e_done (trace s)
    = if callback_ (pimpl_ s) then slot one (result_ (pimpl_ s)) else 0;
  acc_dec :
    ndep (pimpl_ s) + total e_dec (trace s) = 1 + count_ s
}.

End Counters.

(** ** Operations that add up *)

Section Additive.

Context {op : ReduceOp}.

(** What a result is worth, and what an argument contributes to it. *)
Variable val : @result_type op -> Z.
Variable w : @argument_type op -> Z.

(** The reducing calls of [op_] add up the contributions: the operation
    is, through [val], integer addition. *)
Definition additive : Prop :=
  val op_new = 0%Z
  /\ (forall r s, val (op_res r s) = (val r + val s)%Z)
  /\ (forall r a, val (op_arg r a) = (val r + w a)%Z)
  /\ (forall r a b, val (op_arg2 r a b) = (val r + w a + w b)%Z).

Definition i_worth (x : instr) : Z :=
  match x with
  | IOpArg o => w (arg o)
  | IOpArg2 o1 o2 => (w (arg o1) + w (arg o2))%Z
  | IOpRes r => val r
  | _ => 0%Z
  end.

Definition task_worth (t : task) : Z :=
  (zslot val (result t) + ztotal i_worth (code t))%Z.

(** Everything added and not yet delivered to the result future. *)
Definition worth (s : state) : Z :=
  (ztotal (fun x => w (fst x)) (script s)
   + ztotal (fun o => w (arg o)) (pending s)
   + zslot (fun o => w (arg o)) (ready_object_ (pimpl_ s))
   + zslot val (ready_result_ (pimpl_ s))
   + ztotal task_worth (tasks s))%Z.

Definition delivered (sum : Z) (s : state) : Prop :=
  exists r, result_ (pimpl_ s) = Some (op_post r) /\ val r = sum.

Definition WorthInv (sum : Z) (s : state) : Prop :=
  match result_ (pimpl_ s) with
  | None => worth s = sum
  | Some _ => delivered sum s
  end.

End Additive.

(** ** [ReducePairOpWrapper] and [ReducePairTask] *)

(** The pair-wise reduction operation concept documented at the head of
    [class ReducePairTask]. *)
Class PairOp : Type := {
  pair_result_type : Type;
  first_argument_type : Type;
  second_argument_type : Type;
  pair_new : pair_result_type;
  pair_post : pair_result_type -> pair_result_type;
  pair_res : pair_result_type -> pair_result_type -> pair_result_type;
  pair_arg : pair_result_type -> first_argument_type -> second_argument_type
             -> pair_result_type;
  pair_arg2 : pair_result_type -> first_argument_type -> second_argument_type
              -> first_argument_type -> second_argument_type -> pair_result_type
}.

(** [class ReducePairOpWrapper]: the argument is the pair, and each call
    operator forwards to the pair-wise operation. *)
Definition ReducePairOpWrapper (op_ : PairOp) : ReduceOp := {|
  result_type := pair_result_type;
  argument_type := first_argument_type * second_argument_type;
  op_new := pair_new;
  op_post := fun temp => pair_post temp;
  op_res := fun result arg => pair_res result arg;
  op_arg := fun result arg => pair_arg result (fst arg) (snd arg);
  op_arg2 := fun result arg1 arg2 =>
    pair_arg2 result (fst arg1) (snd arg1) (fst arg2) (snd arg2)
|}.

(** [ReducePairTask::add(left, right, callback)] *)
Definition pair_add {op_ : PairOp} (left : first_argument_type)
    (right : second_argument_type) (cb : bool) (is_set : bool)
    (rest : list (first_argument_type * second_argument_type * bool))
    (s : @state (ReducePairOpWrapper op_)) : @state (ReducePairOpWrapper op_) :=
  add (op := ReducePairOpWrapper op_) (left, right) cb is_set rest s.

(** A pair operation adds up when each of its reducing calls adds the
    contributions of the pairs it is given. *)
Definition pair_additive {op_ : PairOp} (val : pair_result_type -> Z)
    (pw : first_argument_type -> second_argument_type -> Z) : Prop :=
  val pair_new = 0%Z
  /\ (forall r s, val (pair_res r s) = val r + val s)%Z
  /\ (forall r a b, val (pair_arg r a b) = val r + pw a b)%Z
  /\ (forall r a b c d, val (pair_arg2 r a b c d) = val r + pw a b + pw c d)%Z.

(** The dot product of the documentation of [ReducePairTask], over
    integer vectors. *)
Definition dot (first second : list Z) : Z :=
  foldr Z.add 0%Z (zip_with Z.mul first second).

Definition DotProduct : PairOp := {|
  pair_result_type := Z;
  first_argument_type := list Z;
  second_argument_type := list Z;
  pair_new := 0%Z;
  pair_post := fun temp => temp;
  pair_res := fun result arg => (result + arg)%Z;
  pair_arg := fun result first second => (result + dot first second)%Z;
  pair_arg2 := fun result first1 second1 first2 second2 =>
    (result + dot first1 second1 + dot first2 second2)%Z
|}.

(** A run of the sum reducer over three arguments whose futures are set
    when they are added: the first meets the initial result, the second is
    parked, the third meets the parked one. *)
Definition example_adds : list (Z * bool) :=
  [(3%Z, false); (4%Z, true); (5%Z, false)].

Definition example_schedule : list choice :=
  [CAdd true; CAdd true; CAdd true; CSubmit;
   CTask 0; CTask 0; CTask 0; CTask 0;
   CTask 1; CTask 1; CTask 1; CTask 1; CTask 1; CTask 1; CTask 1; CTask 1;
   CRun].

Definition example_trace : list event :=
  [EvAdd 0 false; EvAdd 1 true; EvAdd 2 false; EvDec;
   EvOpArg 0; EvDelete 0; EvPark; EvDec;
   EvOpArg2 2 1; EvDelete 2; EvNotify 1; EvDelete 1;
   EvTakeResult; EvOpRes; EvPark; EvDec; EvDec; EvSet; EvDone].

Definition example_end : @state SumOp :=
  @mkState SumOp [] 3 true true
    (@mkImpl SumOp (Some 12%Z) None 0 (Some 12%Z) true) []
    [@mkTask SumOp None []; @mkTask SumOp None []]
    example_trace.

End ReduceTaskMore.

(* ===================================================================== *)
(** * Part II-c: [ReduceObject] and the futures of its argument          *)
(* ===================================================================== *)

Module ReduceObject.

(** Modelled from the spec: [madness::Future], pending or set.
    [register_callback] queues the callback while the future is pending and
    fires it on the caller's thread when the future is already set; setting
    the future fires the callbacks queued on it.  [queued] tells whether the
    callback of the reduce object is in the queue of the future. *)
Record Future : Type := mkFuture {
  is_set : bool;
  queued : bool
}.

Definition probe (f : Future) : bool := is_set f.

(** The statement of the constructor that runs next.  A single future goes
    through [register_callbacks(Future<T>&)], a pair through
    [register_callbacks(std::pair<Future<T>, Future<U>>&)]; the two probes
    of the pair are two statements ([&&] evaluates the second only when the
    first holds). *)
Inductive stmt : Type :=
| OneProbe | OneCount | OneRegister
| PairProbeFirst | PairProbeSecond | PairCount
| PairRegisterFirst | PairRegisterSecond
| Constructed.

(** [class ReduceObject]: the futures of [arg_], the dependency counter
    [count_], and [readied], the ghost count of the calls
    [parent_->ready(this)]. *)
Record object : Type := mkObject {
  is_pair : bool;
  first : Future;
  second : Future;
  count_ : Z;
  readied : nat;
  next : stmt
}.

Definition parent_ready (o : object) : object :=
  mkObject (is_pair o) (first o) (second o) (count_ o) (S (readied o)) (next o).

Definition set_count (c : Z) (o : object) : object :=
  mkObject (is_pair o) (first o) (second o) c (readied o) (next o).

Definition goto (n : stmt) (o : object) : object :=
  mkObject (is_pair o) (first o) (second o) (count_ o) (readied o) n.

Definition with_first (f : Future) (o : object) : object :=
  mkObject (is_pair o) f (second o) (count_ o) (readied o) (next o).

Definition with_second (f : Future) (o : object) : object :=
  mkObject (is_pair o) (first o) f (count_ o) (readied o) (next o).

(** [notify()]: [if((--count_) == 0) parent_->ready(this);] *)
Definition notify (o : object) : object :=
  let o' := set_count (count_ o - 1) o in
  if (count_ o' =? 0)%Z then parent_ready o' else o'.

(** [f.register_callback(this)] on each of the two futures. *)
Definition register_callback_first (o : object) : object :=
  if is_set (first o) then notify o
  else with_first (mkFuture false true) o.

Definition register_callback_second (o : object) : object :=
  if is_set (second o) then notify o
  else with_second (mkFuture false true) o.

(** One statement of the constructor, which calls [register_callbacks]. *)
Definition construct (o : object) : option object :=
  match next o with
  | OneProbe =>
      Some (if probe (first o) then goto Constructed (parent_ready o)
            else goto OneCount o)
  | OneCount => Some (goto OneRegister (set_count 1 o))
  | OneRegister => Some (goto Constructed (register_callback_first o))
  | PairProbeFirst =>
      Some (if probe (first o) then goto PairProbeSecond o else goto PairCount o)
  | PairProbeSecond =>
      Some (if probe (second o) then goto Constructed (parent_ready o)
            else goto PairCount o)
  | PairCount => Some (goto PairRegisterFirst (set_count 2 o))
  | PairRegisterFirst => Some (goto PairRegisterSecond (register_callback_first o))
  | PairRegisterSecond => Some (goto Constructed (register_callback_second o))
  | Constructed => None
  end.

(** Another thread sets a future of the argument: a future is set once. *)
Definition set_first (o : object) : option object :=
  if is_set (first o) then None
  else let o' := with_first (mkFuture true false) o in
       Some (if queued (first o) then notify o' else o').

Definition set_second (o : object) : option object :=
  if is_set (second o) then None
  else let o' := with_second (mkFuture true false) o in
       Some (if queued (second o) then notify o' else o').

Inductive move : Type := Construct | SetFirst | SetSecond.

Definition play_one (m : move) (o : object) : option object :=
  match m with
  | Construct => construct o
  | SetFirst => set_first o
  | SetSecond => set_second o
  end.

Fixpoint play (ms : list move) (o : object) : option object :=
  match ms with
  | [] => Some o
  | m :: ms' =>
      match play_one m o with
      | Some o' => play ms' o'
      | None => None
      end
  end.

(** The object when its constructor is entered: the futures of the
    argument are each set or pending, and nothing is registered. *)
Definition start (pair first_set second_set : bool) : object :=
  mkObject pair (mkFuture first_set false) (mkFuture second_set false) 0 0
           (if pair then PairProbeFirst else OneProbe).

(** All the futures of the argument are set. *)
Definition all_set (o : object) : bool :=
  is_set (first o) && (negb (is_pair o) || is_set (second o)).

Definition constructed (o : object) : bool :=
  match next o with Constructed => true | _ => false end.

Definition flag (b : bool) : Z := if b then 1%Z else 0%Z.

(** What holds between the statements of the constructor. *)
Definition Between (o : object) : Prop :=
  match next o with
  | OneProbe | OneCount =>
      is_pair o = false /\ readied o = 0
      /\ queued (first o) = false /\ queued (second o) = false
  | OneRegister =>
      is_pair o = false /\ readied o = 0 /\ count_ o = 1%Z
      /\ queued (first o) = false /\ queued (second o) = false
  | PairProbeFirst | PairCount =>
      is_pair o = true /\ readied o = 0
      /\ queued (first o) = false /\ queued (second o) = false
  | PairProbeSecond =>
      is_pair o = true /\ readied o = 0 /\ is_set (first o) = true
      /\ queued (first o) = false /\ queued (second o) = false
  | PairRegisterFirst =>
      is_pair o = true /\ readied o = 0 /\ count_ o = 2%Z
      /\ queued (first o) = false /\ queued (second o) = false
  | PairRegisterSecond =>
      is_pair o = true /\ readied o = 0
      /\ count_ o = (1 + flag (queued (first o)))%Z
      /\ queued (first o) = negb (is_set (first o))
      /\ queued (second o) = false
  | Constructed =>
      readied o = (if all_set o then 1 else 0)
      /\ ((all_set o = true /\ queued (first o) = false
           /\ queued (second o) = false)
          \/ (count_ o = (flag (queued (first o)) + flag (queued (second o)))%Z
              /\ queued (first o) = negb (is_set (first o))
              /\ queued (second o) = (is_pair o && negb (is_set (second o)))))
  end.

End ReduceObject.

(* ===================================================================== *)
(** * Part II-d: more of [SparseShape]                                   *)
(* ===================================================================== *)

Module SparseShapeMore.
Import SparseShape.

(** The elements of a tensor are as many as its range has tiles. *)
Definition tensor_sized (t : Tensor) : Prop :=
  match t with
  | None => True
  | Some x => length (data_ x) = volume (range_ x)
  end.

(** The class invariant on the sizes in full: one norm per tile, and one
    size vector per dimension with one size per tile of that dimension. *)
Definition sized (S : SparseShape_) : Prop :=
  match tile_norms_ S with
  | None => True
  | Some x =>
      length (data_ x) = volume (range_ x)
      /\ map length (size_vectors_ S) = range_ x
  end.

(** [norm >= 0] *)
Definition not_negative (v : value_type) : Prop := ltb v 0%Q = false.

Definition nonneg (S : SparseShape_) : Prop :=
  match tile_norms_ S with
  | None => True
  | Some x => Forall not_negative (data_ x)
  end.

(** A norm below the threshold is zero. *)
Definition hz (threshold v : value_type) : Prop :=
  ltb v threshold = true -> Qeq v 0.

(** A shape of two by two tiles of one element each, under the threshold
    1/10. *)
Definition example_statics : Statics := mkStatics (1 # 10)%Q.

Definition example_norms : TensorImpl :=
  mkTensor [2; 2] [(1 # 5)%Q; 0%Q; 1%Q; 0%Q].

Definition example_shape : SparseShape_ :=
  mkShape (Some example_norms) [[1%Q; 1%Q]; [1%Q; 1%Q]].

End SparseShapeMore.

(* ===================================================================== *)
(** * Part II-e: [ContractReduce]                                        *)
(* ===================================================================== *)

Module ContractReduce.
Import ReduceTask ReduceTaskMore.

(** Modelled from the spec: the numeric tiles that [ContractReduce]
    contracts, through the operations it calls on them: the default
    constructor, [empty()], [left.gemm(right, alpha, gemm_helper)],
    [result.gemm(left, right, alpha, gemm_helper)], [result.add_to(arg)]
    and [permute(result, perm, temp)]. *)
Class Tiles : Type := {
  Result : Type;
  Left : Type;
  Right : Type;
  scalar_type : Type;
  default_tile : Result;
  tile_empty : Result -> bool;
  gemm : Left -> Right -> scalar_type -> SparseShape.GemmHelper -> Result;
  gemm_to : Result -> Left -> Right -> scalar_type -> SparseShape.GemmHelper -> Result;
  add_to : Result -> Result -> Result;
  permute : SparseShape.Permutation_ -> Result -> Result
}.

Section WithTiles.

Context {T : Tiles}.

(** [struct Impl] *)
Record Impl : Type := mkImpl {
  gemm_helper_ : SparseShape.GemmHelper;
  alpha_ : scalar_type;
  perm_ : SparseShape.Permutation_
}.

(** The functor: [pimpl_] is null after the default constructor. *)
Definition ContractReduce_ : Type := option Impl.

(** The bodies of the call operators behind [TA_ASSERT(pimpl_)]. *)

(** [operator()()] *)
Definition make : Result := default_tile.

(** [operator()(temp)], the post-processing step; [perm_.dim()] is the
    number of images of the permutation. *)
Definition post (pimpl_ : Impl) (temp : Result) : Result :=
  let result := default_tile in
  if negb (tile_empty temp) then
    if length (perm_ pimpl_) <? 1 then temp
    else permute (perm_ pimpl_) temp
  else result.

(** [operator()(result, arg)] *)
Definition reduce_results (result arg : Result) : Result := add_to result arg.

(** [operator()(result, left, right)] *)
Definition contract (pimpl_ : Impl) (result : Result) (left : Left) (right : Right)
  : Result :=
  if tile_empty result then gemm left right (alpha_ pimpl_) (gemm_helper_ pimpl_)
  else gemm_to result left right (alpha_ pimpl_) (gemm_helper_ pimpl_).

(** [operator()(result, left1, right1, left2, right2)] *)
Definition contract2 (pimpl_ : Impl) (result : Result) (left1 : Left) (right1 : Right)
    (left2 : Left) (right2 : Right) : Result :=
  let result :=
    if tile_empty result then gemm left1 right1 (alpha_ pimpl_) (gemm_helper_ pimpl_)
    else gemm_to result left1 right1 (alpha_ pimpl_) (gemm_helper_ pimpl_) in
  gemm_to result left2 right2 (alpha_ pimpl_) (gemm_helper_ pimpl_).

(** The call operators of a functor, which throw when [pimpl_] is null. *)
Definition asserted {X : Type} (f : ContractReduce_) (body : Impl -> X)
  : SparseShape.result X :=
  match f with
  | Some pimpl_ => SparseShape.Ok (body pimpl_)
  | None => SparseShape.Raise SparseShape.PreconditionViolated
  end.

Definition call_post (f : ContractReduce_) (temp : Result) : SparseShape.result Result :=
  asserted f (fun pimpl_ => post pimpl_ temp).

Definition call_contract (f : ContractReduce_) (result : Result) (left : Left)
    (right : Right) : SparseShape.result Result :=
  asserted f (fun pimpl_ => contract pimpl_ result left right).

Definition call_contract2 (f : ContractReduce_) (result : Result) (left1 : Left)
    (right1 : Right) (left2 : Left) (right2 : Right) : SparseShape.result Result :=
  asserted f (fun pimpl_ => contract2 pimpl_ result left1 right1 left2 right2).

(** [gemm_helper()], [num_contract_ranks()], [result_rank()] and the like
    read [pimpl_->gemm_helper_]. *)
Definition gemm_helper (f : ContractReduce_) : SparseShape.result SparseShape.GemmHelper :=
  asserted f gemm_helper_.

(** The functor as the pair operation of a [ReducePairTask]. *)
Definition ContractReduceOp (pimpl_ : Impl) : PairOp := {|
  pair_result_type := Result;
  first_argument_type := Left;
  second_argument_type := Right;
  pair_new := make;
  pair_post := post pimpl_;
  pair_res := reduce_results;
  pair_arg := contract pimpl_;
  pair_arg2 := contract2 pimpl_
|}.

(** A measure of the tiles under which the tile operations add up: [w] is
    what the contraction of a pair contributes. *)
Definition contraction_adds_up (pimpl_ : Impl) (val : Result -> Z)
    (w : Left -> Right -> Z) : Prop :=
  (forall t, tile_empty t = true -> val t = 0%Z)
  /\ tile_empty default_tile = true
  /\ (forall a b, val (add_to a b) = val a + val b)%Z
  /\ (forall l r, val (gemm l r (alpha_ pimpl_) (gemm_helper_ pimpl_)) = w l r)
  /\ (forall t l r,
        val (gemm_to t l r (alpha_ pimpl_) (gemm_helper_ pimpl_)) = val t + w l r)%Z.

End WithTiles.

(** Tiles of one element: an empty tile or a number. *)
Definition ScalarTiles : Tiles := {|
  Result := option Z;
  Left := Z;
  Right := Z;
  scalar_type := Z;
  default_tile := None;
  tile_empty := fun t => match t with None => true | Some _ => false end;
  gemm := fun l r alpha _ => Some (alpha * (l * r))%Z;
  gemm_to := fun t l r alpha _ => Some (default 0 t + alpha * (l * r))%Z;
  add_to := fun a b => Some (default 0 a + default 0 b)%Z;
  permute := fun _ t => t
|}.

End ContractReduce.

(* ===================================================================== *)
(** * Part II-f: [DimensionOrder]                                        *)
(* ===================================================================== *)

Module CoordinateSystem.

(** [DimensionOrderType]; [unlisted_order] is an object of the enumeration
    type that holds a value which is none of its enumerators. *)
Inductive DimensionOrderType : Type :=
| decreasing_dimension_order
| increasing_dimension_order
| unlisted_order (v : nat).

Definition DimOrderPair : Type := (nat * nat)%type.

(** [less_order_(a, b)] *)
Definition less_order_ (a b : DimOrderPair) : bool := snd a <? snd b.

(** What [std::sort] with [less_order_] leaves: no element is less than
    the one before it. *)
Definition in_order (a b : DimOrderPair) : Prop := less_order_ b a = false.

(** The data members [ord_] and [dim_] *)
Record DimensionOrder_ : Type := mkDimensionOrder {
  ord_ : list nat;
  dim_ : list nat
}.

Inductive constructed : Type :=
| Constructed (D : DimensionOrder_)
| runtime_error.

Section WithSort.

(** [std::sort(first, last, less_order_)] *)
Variable sort : list DimOrderPair -> list DimOrderPair.

(** [init_(first, last)]: the array [dim_] it leaves *)
Definition init_ (DIM : nat) (ord_ : list nat) : list nat :=
  let sorted_by_order := map (fun d => (d, nth d ord_ 0)) (seq 0 DIM) in
  let sorted_by_order := sort sorted_by_order in
  map (fun d => fst (nth d sorted_by_order (0, 0))) (seq 0 DIM).

(** [DimensionOrder(order)] *)
Definition DimensionOrder (DIM : nat) (order : DimensionOrderType) : constructed :=
  match order with
  | increasing_dimension_order =>
      let ord_ := map (fun d => d) (seq 0 DIM) in
      Constructed (mkDimensionOrder ord_ (init_ DIM ord_))
  | decreasing_dimension_order =>
      let ord_ := map (fun d => DIM - d - 1) (seq 0 DIM) in
      Constructed (mkDimensionOrder ord_ (init_ DIM ord_))
  | unlisted_order _ => runtime_error
  end.

End WithSort.

(** [dim2order(d)] and [order2dim(o)] *)
Definition dim2order (D : DimensionOrder_) (d : nat) : nat := nth d (ord_ D) 0.
Definition order2dim (D : DimensionOrder_) (o : nat) : nat := nth o (dim_ D) 0.

(** [begin() .. end()]: the dimensions in increasing order of their
    significance *)
Definition dimensions (D : DimensionOrder_) : list nat := dim_ D.

(** The C++ standard's contract of [std::sort]: the result is a
    rearrangement of the input, and it is in order. *)
Definition sorts (sort : list DimOrderPair -> list DimOrderPair) : Prop :=
  (forall l, Permutation (sort l) l) /\ (forall l, Sorted in_order (sort l)).

#[export] Instance in_order_dec (a b : DimOrderPair) : Decision (in_order a b).
Proof. unfold in_order. apply _. Defined.

End CoordinateSystem.

(* ===================================================================== *)
(** * Part II-g: the expressions of the Python module                    *)
(* ===================================================================== *)

Module Expression.

Section WithDouble.

(** [std::shared_ptr<Array>], and [double] with the operations the class
    applies to factors. *)
Variable Array : Type.
Variable double : Type.
Variable one_ : double.
Variable negate : double -> double.
Variable times : double -> double -> double.
Variable divided_by : double -> double -> double.

(** [struct Term] *)
Record Term : Type := mkTerm {
  array : Array;
  index_ : String.string;
  factor : double
}.

(** [struct Expression]: its member [terms] *)
Definition Expression_ : Type := list Term.

(** [add(e)] *)
Definition add (this e : Expression_) : Expression_ :=
  foldl (fun r t => r ++ [mkTerm (array t) (index_ t) (factor t)]) this e.

(** [sub(e)] *)
Definition sub (this e : Expression_) : Expression_ :=
  foldl (fun r t => r ++ [mkTerm (array t) (index_ t) (negate (factor t))]) this e.

(** [mul(f)] *)
Definition mul (this : Expression_) (f : double) : Expression_ :=
  map (fun t => mkTerm (array t) (index_ t) (times (factor t) f)) this.

(** [div(f)] *)
Definition div (this : Expression_) (f : double) : Expression_ :=
  map (fun t => mkTerm (array t) (index_ t) (divided_by (factor t) f)) this.

(** [getitem(array, idx)] *)
Definition getitem (a : Array) (idx : String.string) : Expression_ := [mkTerm a idx one_].

(** [index<N>(e, idx)] with [TA_PYTHON_MAX_EXPRESSION = MAX]: [more] is
    the number of instantiations that [N < MAX] still allows, [MAX - N];
    [None] is [std::domain_error]. *)
Fixpoint index_from (more N : nat) (e : Expression_) : option nat :=
  if N =? length e then Some N
  else match more with
       | S more' => index_from more' (N + 1) e
       | 0 => None
       end.

(** [index(e)] *)
Definition index (MAX : nat) (e : Expression_) : option nat :=
  index_from (MAX - 1) 1 e.

End WithDouble.

End Expression.

(* ===================================================================== *)
(** * Part III: properties of [ReduceTask]                                *)
(* ===================================================================== *)

Module ReduceTaskFacts.
Import ReduceTask.
Import ReduceTaskMore.

(** Rewrite with what is known about the fields of the state at hand. *)
Ltac use_slots :=
  repeat match goal with
  | H : ready_result_ _ = _ |- _ => rewrite H in *
  | H : ready_object_ _ = _ |- _ => rewrite H in *
  | H : result_ _ = _ |- _ => rewrite H in *
  | H : pending _ = _ |- _ => rewrite H in *
  | H : tasks _ = _ |- _ => rewrite H in *
  | H : submitted _ = _ |- _ => rewrite H in *
  | H : script _ = _ |- _ => rewrite H in *
  end.


Section Facts.

Context {op : ReduceOp}.
Local Abbreviation R := (@result_type op).
Local Abbreviation A := (@argument_type op).

Lemma total_app {X : Type} (f : X -> nat) (l1 l2 : list X) :
  total f (l1 ++ l2) = total f l1 + total f l2.
Proof. induction l1 as [|x l1 IH]; simpl; [reflexivity | rewrite IH; lia]. Qed.

Lemma ends_dec_tail x c : ends_dec (x :: c) = true -> ends_dec c = true.
Proof. destruct c as [|y c]; [reflexivity | simpl; trivial]. Qed.

Lemma ends_dec_owes c : ends_dec c = true -> c <> [] -> 1 <= total i_dec c.
Proof.
  induction c as [|x c IH]; intros He Hne; [congruence|].
  destruct c as [|y c].
  - destruct x; simpl in *; try discriminate; lia.
  - assert (1 <= total i_dec (y :: c)) by (apply IH; [exact He | discriminate]).
    change (total i_dec (x :: y :: c)) with (i_dec x + total i_dec (y :: c)). lia.
Qed.

Lemma total_holder_wf (t : task) : wf_task t -> code t <> [] -> 1 <= total i_dec (code t).
Proof. intros [He _] Hne. apply ends_dec_owes; assumption. Qed.

Lemma wf_done (t : task) :
  wf_task t -> total i_dec (code t) = 0 -> code t = [] /\ holder t = 0.
Proof.
  intros Hwf Hz. assert (code t = []) as Hc.
  { destruct (code t) as [|x c] eqn:E; [reflexivity|].
    assert (1 <= total i_dec (code t)) by (apply total_holder_wf; [assumption | congruence]).
    rewrite E in *. lia. }
  split; [exact Hc|]. destruct Hwf as [_ Hh]. unfold holder.
  rewrite Hc in Hh. destruct (result t); [discriminate | reflexivity].
Qed.

Lemma all_done (l : list task) :
  Forall wf_task l -> total (fun t => total i_dec (code t)) l = 0 ->
  Forall (fun t => code t = []) l /\ total holder l = 0.
Proof.
  induction 1 as [|t l Ht Hl IH]; simpl; intros Hz.
  - split; [constructor | reflexivity].
  - destruct (wf_done t Ht) as [Hc Hh]; [lia|].
    destruct IH as [IH1 IH2]; [lia|].
    split; [constructor; assumption | lia].
Qed.

Lemma wf_ready (o : ReduceObject) (m m' : Impl) (sp : list task) :
  ready o m = (m', sp) -> Forall wf_task sp.
Proof.
  unfold ready. intros H.
  destruct (ready_result_ m); [|destruct (ready_object_ m)]; inversion H; subst;
    repeat constructor.
Qed.

Lemma wf_exec (t t' : task) (m m' : Impl) (evs : list event) :
  wf_task t -> exec t m = (m', t', evs) -> wf_task t'.
Proof.
  unfold wf_task, exec, reduce. intros [He Hd] H.
  destruct t as [r c]; simpl in *.
  destruct c as [|x c]; [inversion H; subst; simpl; auto|].
  pose proof (ends_dec_tail _ _ He) as He'.
  destruct r as [r|]; destruct x; simpl in *; try discriminate;
    try (destruct (ready_object_ m); [|destruct (ready_result_ m)]);
    inversion H; subst; simpl; (split; assumption).
Qed.

Ltac unfold_books :=
  unfold owed, sentinel, uses, deletes, notifies, measure, destroy,
         is_obj, is_obj_cb, holder, one in *.

Ltac books :=
  unfold_books; simpl in *; use_slots; simpl in *;
  rewrite ?total_app, ?length_app in *; simpl in *;
  rewrite ?total_app, ?length_app in *; simpl in *.

Ltac split_flags :=
  repeat match goal with
  | |- context [ocallback_ ?o] => destruct (ocallback_ o); simpl
  | |- context [callback_ ?m] => destruct (callback_ m); simpl
  | |- context [if ?b then _ else _] => is_var b; destruct b; simpl
  | |- context [Nat.ltb ?a ?b] => destruct (Nat.ltb_spec a b)
  | |- context [Nat.eqb ?a ?b] => destruct (Nat.eqb_spec a b)
  | H : context [Nat.ltb ?a ?b] |- _ => destruct (Nat.ltb_spec a b)
  end.

Lemma Inv_init (callback : bool) (adds : list (A * bool)) : Inv (init callback adds).
Proof.
  constructor; simpl; try (intros; books; split_flags; lia); auto.
  intros H. exfalso. apply H. reflexivity.
Qed.

Ltac use_at i :=
  repeat match goal with
  | H : forall _ : nat, _ = _ |- _ => specialize (H i)
  end.

Ltac not_fresh :=
  let Hz := fresh "Hz" in
  let Xp := fresh "Xp" in
  let Xt := fresh "Xt" in
  intros Hz; exfalso;
  match goal with
  | Hfr : count_ _ = 0 -> _ |- _ => destruct (Hfr Hz) as (Xp & Xt & _)
  end;
  match goal with
  | H1 : ?x = [], H2 : ?x = _ ++ _ :: _ |- _ =>
      rewrite H2 in H1; destruct (app_cons_not_nil _ _ _ (eq_sym H1))
  end.

Ltac still_final :=
  let H := fresh "H" in
  intros H;
  match goal with
  | Hf : _ -> _ /\ _ |- _ => destruct (Hf H)
  end;
  split; [assumption | simpl; lia].

Ltac inv_field :=
  first
    [ assumption
    | not_fresh
    | still_final
    | apply Forall_app; split; assumption
    | intros; congruence
    | intros; lia
    | intros; left; discriminate
    | books; lia
    | let i := fresh "i" in intros i; use_at i; books; split_flags; lia ].

Lemma Inv_add (s : state) a cb rest is_set :
  Inv s -> script s = (a, cb) :: rest -> submitted s = false ->
  Inv (add a cb is_set rest s).
Proof.
  intros [Hc Hs Ht Hw Hq Hf Hfr Ha Hu Hd Hn Hsc] Hscr Hsub.
  assert (result_ (pimpl_ s) = None) as Hres.
  { destruct (result_ (pimpl_ s)) eqn:E; [|reflexivity].
    destruct Hf as [Hf _]; [discriminate | congruence]. }
  unfold add. destruct is_set.
  - destruct (ready _ _) as [m' sp] eqn:Hr.
    pose proof (wf_ready _ _ _ _ Hr) as Hwsp.
    unfold ready in Hr; simpl in Hr.
    destruct (ready_result_ (pimpl_ s)) eqn:E1;
      [|destruct (ready_object_ (pimpl_ s)) eqn:E2];
      inversion Hr; subst; clear Hr; unfold sentinel in *; rewrite ?Hsub in *;
      constructor; simpl.
    all: try inv_field.
  - unfold sentinel in *; rewrite ?Hsub in *; constructor; simpl.
    all: try inv_field.
Qed.

Lemma no_result_before_submit (s : state) :
  Inv s -> submitted s = false -> result_ (pimpl_ s) = None.
Proof.
  intros HI Hsub. destruct (result_ (pimpl_ s)) eqn:E; [|reflexivity].
  destruct (inv_final s HI) as [Hf _]; [rewrite E; discriminate | congruence].
Qed.

Lemma Inv_submit (s s' : state) :
  Inv s -> script s = [] -> submitted s = false -> submit s = Some s' -> Inv s'.
Proof.
  intros HI Hscr Hsub Hs'. pose proof (no_result_before_submit s HI Hsub) as Hres.
  destruct HI as [Hc Hs Ht Hw Hq Hf Hfr Ha Hu Hd Hn Hsc].
  unfold submit in Hs'. destruct (Nat.eqb_spec (count_ s) 0) as [Hz|Hnz].
  - destruct (Hfr Hz) as (Hp & Htk & Hro).
    unfold run in Hs'. simpl in Hs'.
    destruct (ready_result_ (pimpl_ s)) eqn:E1; [|discriminate].
    inversion Hs'; subst; clear Hs'. unfold sentinel in *. rewrite Hsub, Hp, Htk in *.
    constructor; simpl.
    all: try inv_field.
  - inversion Hs'; subst; clear Hs'. unfold sentinel in *. rewrite Hsub in *.
    constructor; simpl.
    all: try inv_field.
Qed.

Lemma Inv_notify (s : state) l1 object l2 m spawned :
  Inv s -> pending s = l1 ++ object :: l2 ->
  ready object (pimpl_ s) = (m, spawned) ->
  Inv (mkState (script s) (count_ s) (submitted s) (queued s) m (l1 ++ l2)
               (tasks s ++ spawned) (trace s)).
Proof.
  intros [Hc Hs Ht Hw Hq Hf Hfr Ha Hu Hd Hn Hsc] Hp Hr.
  pose proof (wf_ready _ _ _ _ Hr) as Hwsp.
  unfold ready in Hr.
  destruct (ready_result_ (pimpl_ s)) eqn:E1;
    [|destruct (ready_object_ (pimpl_ s)) eqn:E2];
    inversion Hr; subst; clear Hr; constructor; simpl.
  all: try inv_field.
Qed.

Lemma Inv_task (s : state) l1 t l2 m t' evs :
  Inv s -> tasks s = l1 ++ t :: l2 -> code t <> [] ->
  exec t (pimpl_ s) = (m, t', evs) ->
  Inv (mkState (script s) (count_ s) (submitted s) (queued s) m (pending s)
               (l1 ++ t' :: l2) (trace s ++ evs)).
Proof.
  intros [Hc Hs Ht Hw Hq Hf Hfr Ha Hu Hd Hn Hsc] Htk Hne Hx.
  assert (wf_task t) as Hwt.
  { rewrite Htk in Hw. apply Forall_app in Hw as [_ Hw]. inversion Hw; assumption. }
  pose proof (wf_exec _ _ _ _ _ Hwt Hx) as Hwt'.
  assert (Forall wf_task (l1 ++ t' :: l2)) as Hw'.
  { rewrite Htk in Hw. apply Forall_app in Hw as [Hw1 Hw2].
    apply Forall_app; split; [assumption|].
    inversion Hw2; subst. constructor; assumption. }
  pose proof (total_holder_wf t Hwt Hne) as Hdec.
  destruct t as [r c]. unfold exec, reduce in Hx. simpl in *.
  destruct c as [|x c]; [congruence|].
  destruct r as [r|]; destruct x; simpl in *;
    try (destruct (ready_object_ (pimpl_ s)) eqn:E2;
         [|destruct (ready_result_ (pimpl_ s)) eqn:E1]);
    inversion Hx; subst; clear Hx; constructor; simpl.
  all: try inv_field.
Qed.

Lemma Inv_run (s : state) m evs :
  Inv s -> ndep (pimpl_ s) = 0 -> run (pimpl_ s) = Some (m, evs) ->
  Inv (mkState (script s) (count_ s) (submitted s) (queued s) m (pending s)
               (tasks s) (trace s ++ evs)).
Proof.
  intros [Hc Hs Ht Hw Hq Hf Hfr Ha Hu Hd Hn Hsc] Hz Hr.
  unfold run in Hr. destruct (ready_result_ (pimpl_ s)) eqn:E1; [|discriminate].
  inversion Hr; subst; clear Hr.
  assert (submitted s = true) as Hsub.
  { unfold sentinel in Hc. destruct (submitted s); [reflexivity | lia]. }
  constructor; simpl.
  all: try inv_field.
Qed.

Theorem Inv_step (s s' : state) : Inv s -> step s s' -> Inv s'.
Proof.
  intros HI Hstep. destruct Hstep.
  - apply Inv_add; assumption.
  - eapply Inv_submit; eassumption.
  - eapply Inv_notify; eassumption.
  - eapply Inv_task; eassumption.
  - eapply Inv_run; eassumption.
Qed.

Theorem Inv_reachable (s0 s : state) : Inv s0 -> reachable s0 s -> Inv s.
Proof.
  intros H0 Hr. induction Hr as [|s s' _ IH Hs]; [assumption|].
  eapply Inv_step; eassumption.
Qed.

(** ** Termination and absence of deadlock *)

Lemma measure_step (s s' : state) : Inv s -> step s s' -> measure s' < measure s.
Proof.
  intros HI Hstep. destruct Hstep as
    [s a cb rest is_set Hscr Hsub | s s' Hscr Hsub Hs'
    | s l1 object l2 m spawned Hp Hr | s l1 t l2 m t' evs Htk Hne Hx
    | s m evs Hq Hz Hres Hr].
  - unfold add. destruct is_set.
    + destruct (ready _ _) as [m' sp] eqn:Hr. unfold ready in Hr. simpl in Hr.
      destruct (ready_result_ (pimpl_ s)) eqn:E1;
        [|destruct (ready_object_ (pimpl_ s)) eqn:E2];
        inversion Hr; subst; clear Hr; books; lia.
    + books; lia.
  - pose proof (no_result_before_submit s HI Hsub) as Hres.
    unfold submit, run in Hs'. simpl in Hs'.
    destruct (Nat.eqb (count_ s) 0);
      [destruct (ready_result_ (pimpl_ s)) eqn:E1; [|discriminate]|];
      inversion Hs'; subst; clear Hs'; books;
      destruct (result_ (pimpl_ s)); simpl; lia.
  - unfold ready in Hr.
    destruct (ready_result_ (pimpl_ s)) eqn:E1;
      [|destruct (ready_object_ (pimpl_ s)) eqn:E2];
      inversion Hr; subst; clear Hr; books; lia.
  - destruct t as [r c]. unfold exec, reduce in Hx. simpl in *.
    destruct c as [|x c]; [congruence|].
    destruct r as [r|]; destruct x; simpl in *;
      try (destruct (ready_object_ (pimpl_ s)) eqn:E2;
           [|destruct (ready_result_ (pimpl_ s)) eqn:E1]);
      inversion Hx; subst; clear Hx; books; lia.
  - unfold run in Hr. destruct (ready_result_ (pimpl_ s)) eqn:E1; [|discriminate].
    inversion Hr; subst; clear Hr. books. lia.
Qed.

Lemma find_runnable (l : list task) :
  Forall (fun t => code t = []) l
  \/ exists l1 t l2, l = l1 ++ t :: l2 /\ code t <> [].
Proof.
  induction l as [|t l IH]; [left; constructor|].
  destruct (code t) as [|x c] eqn:E.
  - destruct IH as [IH|(l1 & u & l2 & -> & Hu)].
    + left. constructor; assumption.
    + right. exists (t :: l1), u, l2. split; [reflexivity | assumption].
  - right. exists [], t, l. split; [reflexivity | congruence].
Qed.

Lemma idle_tasks (l : list task) :
  Forall wf_task l -> Forall (fun t => code t = []) l ->
  total (fun t => total i_dec (code t)) l = 0 /\ total holder l = 0.
Proof.
  induction 1 as [|t l [_ Hh] _ IH]; intros Hidle; [split; reflexivity|].
  inversion Hidle as [|? ? Hc Hl]; subst. destruct (IH Hl) as [IH1 IH2].
  assert (holder t = 0) as Hh0.
  { unfold holder. rewrite Hc in Hh. destruct (result t); [discriminate | reflexivity]. }
  simpl. rewrite Hc. simpl. lia.
Qed.

Theorem progress (s : state) :
  Inv s -> result_ (pimpl_ s) = None -> exists s', step s s'.
Proof.
  intros HI Hres. pose proof HI as [Hc Hs Ht Hw Hq Hf Hfr Ha Hu Hd Hn Hsc].
  destruct (script s) as [|[a cb] rest] eqn:Hscr.
  - destruct (submitted s) eqn:Hsub.
    + destruct (pending s) as [|o l] eqn:Hp.
      * destruct (find_runnable (tasks s)) as [Hidle|(l1 & t & l2 & Htk & Hne)].
        -- destruct (idle_tasks _ Hw Hidle) as [Hd0 Hh0].
           destruct (ready_result_ (pimpl_ s)) as [r|] eqn:E1; [|books; lia].
           destruct (Hq eq_refl) as [Hq'|Hq']; [congruence|].
           eexists. eapply step_run; try eassumption.
           ++ books. destruct (ready_object_ (pimpl_ s)); simpl in *; lia.
           ++ unfold run. rewrite E1. reflexivity.
        -- destruct (exec t (pimpl_ s)) as [[m t'] evs] eqn:Hx.
           eexists. eapply step_task; eassumption.
      * destruct (ready o (pimpl_ s)) as [m sp] eqn:Hr.
        eexists. eapply (step_notify s [] o l); eassumption.
    + assert (exists s', submit s = Some s') as [s' Hs'].
      { unfold submit, run. simpl. destruct (Nat.eqb_spec (count_ s) 0) as [Hz|Hnz].
        - destruct (Hfr Hz) as (_ & Htk & _).
          destruct (ready_result_ (pimpl_ s)) eqn:E1; [eexists; reflexivity|].
          books. lia.
        - eexists; reflexivity. }
      exists s'. apply step_submit; assumption.
  - destruct (submitted s) eqn:Hsub; [specialize (Hsc eq_refl); discriminate|].
    eexists. eapply (step_add s a cb rest false); assumption.
Qed.

(** Whatever the schedule, the result future gets set, and every
    invariant that the steps preserve holds when it does. *)
Theorem result_is_set (J : state -> Prop) :
  (forall s s', Inv s -> J s -> step s s' -> J s') ->
  forall s, Inv s -> J s ->
  always_reaches (fun s' => result_ (pimpl_ s') <> None /\ Inv s' /\ J s') s.
Proof.
  intros HJ s. remember (measure s) as n eqn:Hn.
  revert s Hn. induction n as [n IH] using lt_wf_ind. intros s Hn HI HJs.
  destruct (result_ (pimpl_ s)) as [v|] eqn:Hres.
  - apply ar_now. rewrite Hres. split; [discriminate | split; assumption].
  - apply ar_later; [apply progress; assumption|].
    intros s' Hstep. apply (IH (measure s')); [|reflexivity| |].
    + subst n. apply measure_step; assumption.
    + eapply Inv_step; eassumption.
    + eapply HJ; eassumption.
Qed.

Lemma always_reaches_weaken (P Q : state -> Prop) (s : state) :
  (forall s', P s' -> Q s') -> always_reaches P s -> always_reaches Q s.
Proof.
  intros HPQ H. induction H as [s HP | s Hex _ IH].
  - apply ar_now. apply HPQ. exact HP.
  - apply ar_later; assumption.
Qed.

(** ** Explicit schedules are runs of the system *)

Lemma fire_step (c : choice) (s s' : state) : fire c s = Some s' -> step s s'.
Proof.
  destruct c as [is_set | | k | k |]; simpl; intros H.
  - destruct (script s) as [|[a cb] rest] eqn:Hscr; [discriminate|].
    destruct (submitted s) eqn:Hsub; [discriminate|].
    inversion H; subst. apply step_add; assumption.
  - destruct (script s) as [|[a cb] rest] eqn:Hscr; [|discriminate].
    destruct (submitted s) eqn:Hsub; [discriminate|].
    apply step_submit; assumption.
  - destruct (pending s !! k) as [object|] eqn:Hk; [|discriminate].
    destruct (ready object (pimpl_ s)) as [m spawned] eqn:Hr.
    inversion H; subst.
    eapply step_notify; [symmetry; apply take_drop_middle; eassumption | eassumption].
  - destruct (tasks s !! k) as [t|] eqn:Hk; [|discriminate].
    destruct (code t) as [|x c] eqn:Hc; [discriminate|].
    destruct (exec t (pimpl_ s)) as [[m t'] evs] eqn:Hx.
    inversion H; subst.
    eapply step_task;
      [symmetry; apply take_drop_middle; eassumption | congruence | eassumption].
  - destruct (queued s) eqn:Hq; [|discriminate].
    destruct (ndep (pimpl_ s)) eqn:Hz; [|discriminate].
    destruct (result_ (pimpl_ s)) eqn:Hres; [discriminate|].
    destruct (run (pimpl_ s)) as [[m evs]|] eqn:Hr; [|discriminate].
    inversion H; subst. rewrite <- Hq. apply step_run; assumption.
Qed.

Lemma schedule_reachable (cs : list choice) (s0 s s' : state) :
  reachable s0 s -> schedule cs s = Some s' -> reachable s0 s'.
Proof.
  revert s. induction cs as [|c cs IH]; simpl; intros s Hs H.
  - inversion H; subst. assumption.
  - destruct (fire c s) as [s1|] eqn:Hf; [|discriminate].
    apply (IH s1); [|assumption].
    eapply reach_step; [eassumption | apply (fire_step c); assumption].
Qed.

(** ** Every argument is reduced once and destroyed once *)

Lemma added_once_cb (i : nat) (cb : bool) (tr : list event) :
  In (EvAdd i cb) tr -> total (e_add i) tr = 1 ->
  total (e_add_cb i) tr = if cb then 1 else 0.
Proof.
  induction tr as [|e tr IH]; intros Hin Hone; [destruct Hin|].
  assert (forall tr', total (e_add_cb i) tr' <= total (e_add i) tr') as Hle.
  { induction tr' as [|e' tr' IH']; simpl; [lia|].
    destruct e'; simpl; try lia. destruct cb0; simpl; lia. }
  simpl in *. destruct Hin as [->|Hin].
  - simpl in *. rewrite Nat.eqb_refl in *. specialize (Hle tr).
    destruct cb; lia.
  - assert (1 <= total (e_add i) tr) as Hge.
    { clear -Hin. induction tr as [|e' tr IH]; [destruct Hin|].
      simpl. destruct Hin as [->|Hin]; [simpl; rewrite Nat.eqb_refl; lia|].
      specialize (IH Hin). lia. }
    assert (e_add i e = 0) as He by lia.
    assert (e_add_cb i e = 0) as Hec.
    { destruct e; simpl in *; try reflexivity. destruct cb0; [assumption | reflexivity]. }
    rewrite Hec. simpl. apply IH; [assumption | lia].
Qed.

Lemma added_counted (i : nat) (cb : bool) (tr : list event) :
  In (EvAdd i cb) tr -> 1 <= total (e_add i) tr.
Proof.
  induction tr as [|e tr IH]; intros Hin; [destruct Hin|].
  simpl. destruct Hin as [->|Hin]; [simpl; rewrite Nat.eqb_refl; lia|].
  specialize (IH Hin). lia.
Qed.

Lemma nothing_owed_at_end (s : state) :
  Inv s -> result_ (pimpl_ s) <> None ->
  forall ins w, owed ins w s = 0.
Proof.
  intros [Hc Hs Ht Hw Hq Hf Hfr Ha Hu Hd Hn Hsc] Hres ins w.
  destruct (Hf Hres) as [Hsub Hz]. unfold sentinel in Hc. rewrite Hsub, Hz in Hc.
  assert (pending s = []) as Hp by (destruct (pending s); [reflexivity | simpl in Hc; lia]).
  assert (ready_object_ (pimpl_ s) = None) as Ho.
  { destruct (ready_object_ (pimpl_ s)); [unfold one in Hc; simpl in Hc; lia | reflexivity]. }
  destruct (all_done (tasks s) Hw) as [Hidle _]; [lia|].
  unfold owed. rewrite Hp, Ho. simpl.
  clear -Hidle. induction Hidle as [|t l Hcd _ IH]; [reflexivity|].
  simpl. rewrite Hcd. simpl. exact IH.
Qed.

(** C3.  In every state that a [ReduceTask] reaches, whatever the client
    adds and whatever the schedule: no argument has been fed to [op_] more
    than once nor deleted more than once; once the result future is set,
    every argument that was added has been consumed by exactly one [op_]
    call and deleted exactly once, its callback having fired exactly once
    when it has one; and from that state on the result future gets set on
    every schedule, so no argument is left behind. *)
Theorem each_argument_once (callback : bool) (adds : list (A * bool)) (s : state) :
  reachable (init callback adds) s ->
  (forall i, uses i (trace s) <= 1 /\ deletes i (trace s) <= 1)
  /\ (result_ (pimpl_ s) <> None ->
      forall i cb, In (EvAdd i cb) (trace s) ->
        uses i (trace s) = 1 /\ deletes i (trace s) = 1
        /\ notifies i (trace s) = if cb then 1 else 0)
  /\ always_reaches (fun s' => result_ (pimpl_ s') <> None) s.
Proof.
  intros Hreach.
  assert (Inv s) as HI by (eapply Inv_reachable; [apply Inv_init | eassumption]).
  split; [|split].
  - intros i. pose proof (inv_uses s HI i). pose proof (inv_deletes s HI i).
    pose proof (inv_added s HI i). destruct (Nat.ltb i (count_ s)); lia.
  - intros Hres i cb Hin.
    pose proof (nothing_owed_at_end s HI Hres) as Hzero.
    pose proof (inv_uses s HI i) as Hu. pose proof (inv_deletes s HI i) as Hd.
    pose proof (inv_notifies s HI i) as Hn. pose proof (inv_added s HI i) as Ha.
    pose proof (added_counted i cb _ Hin) as Hge.
    rewrite Hzero in Hu, Hd, Hn.
    assert (total (e_add i) (trace s) = 1) as Hone
      by (destruct (Nat.ltb i (count_ s)); lia).
    rewrite (added_once_cb i cb _ Hin Hone) in Hn. lia.
  - apply (always_reaches_weaken
             (fun s' => result_ (pimpl_ s') <> None /\ Inv s' /\ True)).
    + intros s' [H _]. exact H.
    + apply (result_is_set (fun _ => True)); auto.
Qed.

(** ** The order of the statements of [reduce_result_object] *)

Lemma runs_parked (tr : list event) : runs (mkTask None [IDec]) tr -> tr = [EvDec].
Proof.
  intros H. inversion H as [t Hc | t m m' t' evs rest Hne Hx Hrest]; subst;
    [discriminate|].
  unfold exec in Hx. simpl in Hx. inversion Hx; subst; clear Hx.
  inversion Hrest as [t Hc | t m0 m1 t1 evs1 rest1 Hne1 Hx1 Hrest1]; subst;
    [reflexivity | simpl in Hne1; congruence].
Qed.

Lemma exec_before_drain (x : instr) (pre : list instr) (r : R) (m m' : Impl)
    (t' : task) (evs : list event) :
  x <> IReduce ->
  exec (mkTask (Some r) (x :: pre)) m = (m', t', evs) ->
  (exists r', result t' = Some r') /\ code t' = pre /\ ~ In EvPark evs.
Proof.
  intros Hx H. unfold exec in H. simpl in H.
  destruct x; try congruence; inversion H; subst; clear H; simpl;
    (split; [eexists; reflexivity | split; [reflexivity|]]);
    unfold destroy; try destruct (ocallback_ o); simpl; intuition discriminate.
Qed.

Lemma drain_then_dec (t : task) (tr : list event) :
  runs t tr ->
  forall (r : R) (pre : list instr),
    result t = Some r -> code t = pre ++ [IReduce; IDec] ->
    Forall (fun x => x <> IReduce) pre ->
    exists drain, tr = drain ++ [EvPark; EvDec] /\ ~ In EvPark drain.
Proof.
  induction 1 as [t Hnil | t m m' t' evs rest Hne Hx Hrest IH];
    intros r pre Hr Hc Hpre.
  - rewrite Hnil in Hc. destruct pre; discriminate.
  - destruct t as [res c]. simpl in *. subst res c.
    destruct Hpre as [|x pre Hx1 Hpre].
    + unfold exec, reduce in Hx. simpl in Hx.
      destruct (ready_object_ m) as [o|]; [|destruct (ready_result_ m) as [s|]];
        inversion Hx; subst; clear Hx.
      * destruct (IH r [IOpArg o; IDestroy o; IDec] eq_refl eq_refl)
          as (drain & -> & Hno).
        { repeat constructor; discriminate. }
        exists (EvTakeObject (oid o) :: drain). split; [reflexivity|].
        simpl. intuition discriminate.
      * destruct (IH r [IOpRes s] eq_refl eq_refl) as (drain & -> & Hno).
        { repeat constructor; discriminate. }
        exists (EvTakeResult :: drain). split; [reflexivity|].
        simpl. intuition discriminate.
      * rewrite (runs_parked rest Hrest). exists []. split; [reflexivity | simpl; tauto].
    + destruct (exec_before_drain _ _ _ _ _ _ _ Hx1 Hx) as ([r' Hr'] & Hc' & Hno).
      destruct (IH r' pre Hr' Hc' Hpre) as (drain & -> & Hno').
      exists (evs ++ drain). split; [rewrite <- app_assoc; reflexivity|].
      rewrite in_app_iff. tauto.
Qed.

(** C4, as the code has it.  Whatever the other workers do meanwhile, a
    [reduce_result_object] task first calls [op_( *result, object->arg())],
    then destroys the object, then runs the drain loop of [reduce] until it
    parks the result, and only after the loop has been left does it call
    [dec()] for the object. *)
Theorem reduce_result_object_order (r : R) (object : ReduceObject) (tr : list event) :
  runs (reduce_result_object r object) tr ->
  exists drain,
    tr = EvOpArg (oid object) :: destroy object ++ drain ++ [EvPark; EvDec]
    /\ ~ In EvPark drain.
Proof.
  intros H. unfold reduce_result_object in H.
  inversion H as [t Hc | t m m' t' evs rest Hne Hx Hrest]; subst; [discriminate|].
  unfold exec in Hx. simpl in Hx. inversion Hx; subst; clear Hx H.
  inversion Hrest as [t Hc | t m0 m1 t1 evs1 rest1 Hne1 Hx1 Hrest1]; subst;
    [discriminate|].
  unfold exec in Hx1. simpl in Hx1. inversion Hx1; subst; clear Hx1 Hrest.
  destruct (drain_then_dec _ _ Hrest1 (op_arg r (arg object)) [] eq_refl eq_refl)
    as (drain & -> & Hno); [constructor|].
  exists drain. split; [reflexivity | assumption].
Qed.

(** ** [submit] without arguments *)

(** C8.  On a [ReduceTask] to which nothing was added, [submit()] sets the
    result future to [op(op())], the post-processed identity, and invokes
    the completion callback when there is one; it is the only thing such
    a task can do. *)
Theorem submit_without_arguments (callback : bool) :
  exists s',
    submit (init callback []) = Some s'
    /\ result_ (pimpl_ s') = Some (op_post op_new)
    /\ trace s' = EvDec :: EvSet :: (if callback then [EvDone] else [])
    /\ (forall s'', step (init callback []) s'' -> s'' = s').
Proof.
  eexists. split; [reflexivity|]. split; [reflexivity|]. split; [reflexivity|].
  intros s'' Hstep. inversion Hstep; subst; simpl in *; try discriminate.
  - match goal with H : submit _ = Some _ |- _ =>
      unfold submit in H; simpl in H; inversion H; reflexivity end.
  - match goal with H : [] = _ ++ _ :: _ |- _ => destruct (app_cons_not_nil _ _ _ H) end.
  - match goal with H : [] = _ ++ _ :: _ |- _ => destruct (app_cons_not_nil _ _ _ H) end.
Qed.

(** ** The accounts of a run *)

Lemma Accounts_init (callback : bool) (adds : list (A * bool)) :
  Accounts (init callback adds).
Proof. constructor; simpl; try reflexivity. destruct callback; reflexivity. Qed.

Ltac acc_field :=
  first [ books; split_flags; lia | books; lia ].

Lemma Accounts_step (s s' : state) : Inv s -> Accounts s -> step s s' -> Accounts s'.
Proof.
  intros HI [Hr Hc Hs Hd Hn] Hstep. destruct Hstep as
    [s a cb rest is_set Hscr Hsub | s s' Hscr Hsub Hs'
    | s l1 object l2 m spawned Hp Hrd | s l1 t l2 m t' evs Htk Hne Hx
    | s m evs Hq Hz Hres Hrun].
  - pose proof (no_result_before_submit s HI Hsub) as Hres.
    unfold add. destruct is_set.
    + destruct (ready _ _) as [m' sp] eqn:Hrd. unfold ready in Hrd. simpl in Hrd.
      destruct (ready_result_ (pimpl_ s)) eqn:E1;
        [|destruct (ready_object_ (pimpl_ s)) eqn:E2];
        inversion Hrd; subst; clear Hrd; constructor; simpl; acc_field.
    + constructor; simpl; acc_field.
  - pose proof (no_result_before_submit s HI Hsub) as Hres.
    pose proof (inv_counter s HI) as Hcnt. unfold sentinel in Hcnt. rewrite Hsub in Hcnt.
    unfold submit, run in Hs'. simpl in Hs'.
    destruct (Nat.eqb (count_ s) 0);
      [destruct (ready_result_ (pimpl_ s)) eqn:E1; [|discriminate]|];
      inversion Hs'; subst; clear Hs'; constructor; simpl; acc_field.
  - unfold ready in Hrd.
    destruct (ready_result_ (pimpl_ s)) eqn:E1;
      [|destruct (ready_object_ (pimpl_ s)) eqn:E2];
      inversion Hrd; subst; clear Hrd; constructor; simpl; acc_field.
  - assert (wf_task t) as Hwt.
    { pose proof (inv_wf s HI) as Hw. rewrite Htk in Hw.
      apply Forall_app in Hw as [_ Hw]. inversion Hw; assumption. }
    pose proof (total_holder_wf t Hwt Hne) as Hdec.
    pose proof (inv_counter s HI) as Hcnt. rewrite Htk in Hcnt.
    destruct Hwt as [_ Hwt].
    destruct t as [r c]. unfold exec, reduce in Hx. simpl in *.
    destruct c as [|x c]; [congruence|].
    destruct r as [r|]; destruct x; simpl in *; try discriminate;
      try (destruct (ready_object_ (pimpl_ s)) eqn:E2;
           [|destruct (ready_result_ (pimpl_ s)) eqn:E1]);
      inversion Hx; subst; clear Hx; constructor; simpl; acc_field.
  - unfold run in Hrun. destruct (ready_result_ (pimpl_ s)) eqn:E1; [|discriminate].
    inversion Hrun; subst; clear Hrun. constructor; simpl; acc_field.
Qed.

Lemma Accounts_reachable (callback : bool) (adds : list (A * bool)) (s : state) :
  reachable (init callback adds) s -> Inv s /\ Accounts s.
Proof.
  induction 1 as [|s s' _ [HI HA] Hs].
  - split; [apply Inv_init | apply Accounts_init].
  - split; [eapply Inv_step; eassumption | eapply Accounts_step; eassumption].
Qed.

Lemma callback_kept (s s' : state) :
  step s s' -> callback_ (pimpl_ s') = callback_ (pimpl_ s).
Proof.
  intros Hstep. destruct Hstep as
    [s a cb rest is_set Hscr Hsub | s s' Hscr Hsub Hs'
    | s l1 object l2 m spawned Hp Hrd | s l1 t l2 m t' evs Htk Hne Hx
    | s m evs Hq Hz Hres Hrun].
  - unfold add. destruct is_set; [|reflexivity].
    destruct (ready _ _) as [m' sp] eqn:Hrd. unfold ready in Hrd. simpl in Hrd.
    destruct (ready_result_ (pimpl_ s)); [|destruct (ready_object_ (pimpl_ s))];
      inversion Hrd; subst; reflexivity.
  - unfold submit, run in Hs'. simpl in Hs'.
    destruct (Nat.eqb (count_ s) 0);
      [destruct (ready_result_ (pimpl_ s)); [|discriminate]|];
      inversion Hs'; subst; reflexivity.
  - unfold ready in Hrd.
    destruct (ready_result_ (pimpl_ s)); [|destruct (ready_object_ (pimpl_ s))];
      inversion Hrd; subst; reflexivity.
  - destruct t as [r c]. unfold exec, reduce in Hx. simpl in *.
    destruct c as [|x c]; [congruence|].
    destruct r as [r|]; destruct x; simpl in *;
      try (destruct (ready_object_ (pimpl_ s)); [|destruct (ready_result_ (pimpl_ s))]);
      inversion Hx; subst; reflexivity.
  - unfold run in Hrun. destruct (ready_result_ (pimpl_ s)); [|discriminate].
    inversion Hrun; subst; reflexivity.
Qed.

Lemma count_and_script (callback : bool) (adds : list (A * bool)) (s : state) :
  reachable (init callback adds) s ->
  count_ s + length (script s) = length adds
  /\ callback_ (pimpl_ s) = callback.
Proof.
  induction 1 as [|s s' _ [IH1 IH2] Hs]; [split; reflexivity|].
  split; [|rewrite (callback_kept s s' Hs); exact IH2].
  destruct Hs as
    [s a cb rest is_set Hscr Hsub | s s' Hscr Hsub Hs'
    | s l1 object l2 m spawned Hp Hrd | s l1 t l2 m t' evs Htk Hne Hx
    | s m evs Hq Hz Hres Hrun]; simpl; try assumption.
  - rewrite Hscr in IH1. simpl in IH1. unfold add.
    destruct is_set; [destruct (ready _ _)|]; simpl; lia.
  - unfold submit in Hs'.
    destruct (Nat.eqb (count_ s) 0); [destruct (run _) as [[m evs]|]; [|discriminate]|];
      inversion Hs'; subst; simpl; assumption.
Qed.

Lemma reducing_split (tr : list event) :
  total e_reducing tr + total e_op_arg2 tr = total e_consumed tr + total e_op_res tr.
Proof.
  induction tr as [|e tr IH]; simpl; [reflexivity|]. destruct e; simpl; lia.
Qed.

Lemma nothing_owed_at_zero (s : state) :
  Inv s -> ndep (pimpl_ s) = 0 ->
  submitted s = true /\ pending s = [] /\ ready_object_ (pimpl_ s) = None
  /\ Forall (fun t => code t = []) (tasks s) /\ total holder (tasks s) = 0
  /\ forall ins w, owed ins w s = 0.
Proof.
  intros HI Hz. pose proof (inv_counter s HI) as Hc. pose proof (inv_wf s HI) as Hw.
  unfold sentinel in Hc. rewrite Hz in Hc.
  assert (submitted s = true) as Hsub by (destruct (submitted s); [reflexivity | lia]).
  assert (pending s = []) as Hp by (destruct (pending s); [reflexivity | simpl in Hc; lia]).
  assert (ready_object_ (pimpl_ s) = None) as Ho.
  { destruct (ready_object_ (pimpl_ s)); [unfold one in Hc; simpl in Hc; lia | reflexivity]. }
  destruct (all_done (tasks s) Hw) as [Hidle Hh]; [lia|].
  repeat (split; [assumption|]).
  intros ins w. unfold owed. rewrite Hp, Ho. simpl.
  clear -Hidle. induction Hidle as [|t l Hcd _ IH]; [reflexivity|].
  simpl. rewrite Hcd. simpl. exact IH.
Qed.

(** X1.  In every state a [ReduceTask] reaches, [ready_result_] and
    [ready_object_] are not both set: [ready] parks an object only when
    no result is parked, and [reduce] parks a result only when no object
    is. *)
Theorem slots_never_both (callback : bool) (adds : list (A * bool)) (s : state) :
  reachable (init callback adds) s ->
  ready_result_ (pimpl_ s) = None \/ ready_object_ (pimpl_ s) = None.
Proof.
  intros Hr. destruct (Accounts_reachable callback adds s Hr) as [HI _].
  pose proof (inv_slots s HI) as Hs.
  destruct (ready_result_ (pimpl_ s)); [|left; reflexivity].
  destruct (ready_object_ (pimpl_ s)); [|right; reflexivity].
  unfold one in Hs. simpl in Hs. lia.
Qed.

(** X2.  [MADNESS_ASSERT(ready_result_)] in [run] never fails: when
    [submit] runs the task itself because nothing was added, and when the
    queue runs it because the dependency counter of the queued task is
    zero, a result is parked in [ready_result_]. *)
Theorem run_finds_a_result (callback : bool) (adds : list (A * bool)) (s : state) :
  reachable (init callback adds) s ->
  (submitted s = false -> exists s', submit s = Some s')
  /\ (ndep (pimpl_ s) = 0 -> exists m evs, run (pimpl_ s) = Some (m, evs)).
Proof.
  intros Hr. destruct (Accounts_reachable callback adds s Hr) as [HI _].
  pose proof (inv_token s HI) as Ht. split.
  - intros Hsub. unfold submit, run. simpl.
    destruct (Nat.eqb_spec (count_ s) 0) as [Hz|Hnz]; [|eexists; reflexivity].
    destruct (inv_fresh s HI Hz) as (_ & Htk & _). rewrite Htk in Ht.
    destruct (ready_result_ (pimpl_ s)); [eexists; reflexivity|].
    unfold one in Ht. simpl in Ht. lia.
  - intros Hz. destruct (nothing_owed_at_zero s HI Hz) as (_ & _ & _ & _ & Hh & _).
    unfold run. destruct (ready_result_ (pimpl_ s)); [eexists; eexists; reflexivity|].
    unfold one in Ht. simpl in Ht. lia.
Qed.

(** X3.  The dependency counter of the task is one (the sentinel that
    [submit] releases) plus the number of arguments added, minus the
    [dec()] calls made: it is at least one until [submit], and when it is
    zero no future is pending, no object is parked, no task has a
    statement left and every argument added has been reduced and deleted. *)
Theorem counter_guards_completion (callback : bool) (adds : list (A * bool))
    (s : state) :
  reachable (init callback adds) s ->
  ndep (pimpl_ s) + total e_dec (trace s) = 1 + count_ s
  /\ (submitted s = false -> 1 <= ndep (pimpl_ s))
  /\ (ndep (pimpl_ s) = 0 ->
      pending s = [] /\ ready_object_ (pimpl_ s) = None
      /\ Forall (fun t => code t = []) (tasks s)
      /\ forall i, i < count_ s -> uses i (trace s) = 1 /\ deletes i (trace s) = 1).
Proof.
  intros Hr. destruct (Accounts_reachable callback adds s Hr) as [HI HA].
  split; [exact (acc_dec s HA)|]. split.
  - intros Hsub. pose proof (inv_counter s HI) as Hc. unfold sentinel in Hc.
    rewrite Hsub in Hc. lia.
  - intros Hz. destruct (nothing_owed_at_zero s HI Hz) as (_ & Hp & Ho & Hidle & _ & Hzero).
    repeat (split; [assumption|]).
    intros i Hi. pose proof (inv_uses s HI i) as Hu. pose proof (inv_deletes s HI i) as Hd.
    pose proof (inv_added s HI i) as Ha. rewrite Hzero in Hu, Hd.
    destruct (Nat.ltb_spec i (count_ s)); lia.
Qed.

(** X5.  When the result future is set, [op_] has made as many reducing
    calls -- of a result with one argument, of a fresh result with two
    arguments, of a result with a result -- as arguments were added,
    however the schedule paired them: every fused reduction of two
    arguments is matched by one reduction of two results. *)
Theorem reducing_calls_equal_arguments (callback : bool) (adds : list (A * bool))
    (s : state) :
  reachable (init callback adds) s -> result_ (pimpl_ s) <> None ->
  total e_reducing (trace s) = length adds
  /\ total e_op_res (trace s) = total e_op_arg2 (trace s)
  /\ count_ s = length adds.
Proof.
  intros Hr Hres. destruct (Accounts_reachable callback adds s Hr) as [HI HA].
  destruct (count_and_script callback adds s Hr) as [Hcs _].
  destruct (inv_final s HI Hres) as [Hsub Hz].
  destruct (nothing_owed_at_zero s HI Hz) as (_ & _ & _ & Hidle & Hh & Hzero).
  pose proof (inv_script s HI Hsub) as Hscr. rewrite Hscr in Hcs. simpl in Hcs.
  pose proof (acc_results s HA) as Hrs. pose proof (acc_consumed s HA) as Hc.
  pose proof (inv_token s HI) as Ht. pose proof (inv_slots s HI) as Hsl.
  rewrite Hzero in Hc. rewrite Hh in Hrs, Ht.
  assert (forall f : instr -> nat, total (fun t => total f (code t)) (tasks s) = 0) as Hnone.
  { intros f. clear -Hidle. induction Hidle as [|t l Hcd _ IH]; [reflexivity|].
    simpl. rewrite Hcd. simpl. exact IH. }
  rewrite !Hnone in Hrs. pose proof (reducing_split (trace s)) as Hsp.
  assert (slot one (ready_result_ (pimpl_ s)) = 1) as Hone.
  { destruct (ready_result_ (pimpl_ s)); unfold one in *; simpl in *; lia. }
  lia.
Qed.

End Facts.

(** ** The sum reducer *)

Section SumReducer.

Local Abbreviation state := (@state SumOp).
Local Abbreviation task := (@task SumOp).

Lemma ztotal_app {X : Type} (f : X -> Z) (l1 l2 : list X) :
  ztotal f (l1 ++ l2) = (ztotal f l1 + ztotal f l2)%Z.
Proof. induction l1 as [|x l1 IH]; simpl; [reflexivity | rewrite IH; lia]. Qed.

Ltac zbooks :=
  unfold ValInv, value, task_val in *; simpl in *; use_slots; simpl in *;
  rewrite ?ztotal_app in *; simpl in *.

Lemma idle_value (l : list task) :
  Forall wf_task l -> Forall (fun t => code t = []) l -> ztotal task_val l = 0%Z.
Proof.
  induction 1 as [|t l [_ Hh] _ IH]; intros Hidle; [reflexivity|].
  inversion Hidle as [|? ? Hc Hl]; subst. simpl. rewrite (IH Hl).
  unfold task_val. rewrite Hc in *. destruct (result t); [discriminate | reflexivity].
Qed.

Lemma value_at_end (s : state) :
  Inv s -> ndep (pimpl_ s) = 0 ->
  value s = zslot (fun r : Z => r) (ready_result_ (pimpl_ s)).
Proof.
  intros [Hc Hs Ht Hw Hq Hf Hfr Ha Hu Hd Hn Hsc] Hz.
  unfold sentinel in Hc. rewrite Hz in Hc.
  assert (submitted s = true) as Hsub by (destruct (submitted s); [reflexivity | lia]).
  assert (pending s = []) as Hp by (destruct (pending s); [reflexivity | simpl in Hc; lia]).
  assert (ready_object_ (pimpl_ s) = None) as Ho.
  { destruct (ready_object_ (pimpl_ s)); [unfold one in Hc; simpl in Hc; lia | reflexivity]. }
  destruct (all_done (tasks s) Hw) as [Hidle _]; [lia|].
  unfold value. rewrite (Hsc Hsub), Hp, Ho, (idle_value _ Hw Hidle). simpl. lia.
Qed.

Lemma Val_step (sum : Z) (s s' : state) :
  Inv s -> ValInv sum s -> step s s' -> ValInv sum s'.
Proof.
  intros HI HV Hstep. destruct Hstep as
    [s a cb rest is_set Hscr Hsub | s s' Hscr Hsub Hs'
    | s l1 object l2 m spawned Hp Hr | s l1 t l2 m t' evs Htk Hne Hx
    | s m evs Hq Hz Hres Hr].
  - pose proof (no_result_before_submit s HI Hsub) as Hres.
    unfold add. destruct is_set.
    + destruct (ready _ _) as [m' sp] eqn:Hr. unfold ready in Hr. simpl in Hr.
      destruct (ready_result_ (pimpl_ s)) eqn:E1;
        [|destruct (ready_object_ (pimpl_ s)) eqn:E2];
        inversion Hr; subst; clear Hr; zbooks; lia.
    + zbooks; lia.
  - pose proof (no_result_before_submit s HI Hsub) as Hres.
    unfold submit, run in Hs'. simpl in Hs'.
    destruct (Nat.eqb_spec (count_ s) 0) as [Hz|Hnz].
    + destruct (inv_fresh s HI Hz) as (Hp & Htk & Ho).
      destruct (ready_result_ (pimpl_ s)) eqn:E1; [|discriminate].
      inversion Hs'; subst; clear Hs'. zbooks. lia.
    + inversion Hs'; subst; clear Hs'. zbooks. lia.
  - unfold ready in Hr.
    destruct (result_ (pimpl_ s)) eqn:Hres;
    (destruct (ready_result_ (pimpl_ s)) eqn:E1;
      [|destruct (ready_object_ (pimpl_ s)) eqn:E2]);
      inversion Hr; subst; clear Hr; zbooks; lia.
  - assert (wf_task t) as Hwt.
    { pose proof (inv_wf s HI) as Hw. rewrite Htk in Hw.
      apply Forall_app in Hw as [_ Hw]. inversion Hw; assumption. }
    destruct Hwt as [_ Hwt].
    destruct t as [r c]. unfold exec, reduce in Hx. simpl in *.
    destruct c as [|x c]; [congruence|].
    destruct (result_ (pimpl_ s)) eqn:Hres;
    (destruct r as [r|]; destruct x; simpl in *; try discriminate;
      try (destruct (ready_object_ (pimpl_ s)) eqn:E2;
           [|destruct (ready_result_ (pimpl_ s)) eqn:E1]);
      inversion Hx; subst; clear Hx; zbooks; lia).
  - pose proof (value_at_end s HI Hz) as Hend.
    unfold run in Hr. destruct (ready_result_ (pimpl_ s)) eqn:E1; [|discriminate].
    inversion Hr; subst; clear Hr. unfold ValInv in *. rewrite Hres in HV.
    simpl in *. lia.
Qed.

(** The reducer delivers the sum of what was added, on every schedule. *)
Lemma sum_is_delivered (callback : bool) (adds : list (Z * bool)) :
  always_reaches
    (fun s : state =>
       result_ (pimpl_ s) = Some (ztotal (fun x : Z * bool => fst x) adds))
    (init (op := SumOp) callback adds).
Proof.
  apply (always_reaches_weaken
           (fun s' : state =>
              result_ (pimpl_ s') <> None /\ Inv s'
              /\ ValInv (ztotal (fun x : Z * bool => fst x) adds) s')).
  - intros s' (Hres & _ & HV). unfold ValInv in HV.
    destruct (result_ (pimpl_ s')) as [v|]; [rewrite HV; reflexivity | contradiction].
  - apply (result_is_set (ValInv (ztotal (fun x : Z * bool => fst x) adds))).
    + intros s s' HI HV Hstep. eapply Val_step; eassumption.
    + apply Inv_init.
    + unfold ValInv, value. simpl. lia.
Qed.

(** C1.  A [ReduceTask] over integer sum to which the futures of 3, 1, 4,
    1, 5 and 9 are added and which is then submitted: along every schedule
    -- each future set before or after its [add], the notifications and
    the queued tasks interleaved in any order -- the run does not get
    stuck and the result future is set to 23. *)
Theorem sum_reducer_23 (callback : bool) :
  always_reaches
    (fun s : state => result_ (pimpl_ s) = Some 23%Z)
    (init (op := SumOp) callback
          [(3%Z, false); (1%Z, false); (4%Z, false);
           (1%Z, false); (5%Z, false); (9%Z, false)]).
Proof.
  exact (sum_is_delivered callback
           [(3%Z, false); (1%Z, false); (4%Z, false);
            (1%Z, false); (5%Z, false); (9%Z, false)]).
Qed.

(** *** Worked runs *)

(** A [reduce_result_object] task that nobody disturbs. *)
Lemma rro_run_alone :
  runs (reduce_result_object (op := SumOp) 0%Z (@mkObject SumOp 0 5%Z false))
       [EvOpArg 0; EvDelete 0; EvPark; EvDec].
Proof.
  eapply (runs_next _ (@mkImpl SumOp None None 2 None false) _ _ [EvOpArg 0]);
    [discriminate | reflexivity |].
  eapply (runs_next _ (@mkImpl SumOp None None 2 None false) _ _ [EvDelete 0]);
    [discriminate | reflexivity |].
  eapply (runs_next _ (@mkImpl SumOp None None 2 None false) _ _ [EvPark]);
    [discriminate | reflexivity |].
  eapply (runs_next _ (@mkImpl SumOp (Some 5%Z) None 2 None false) _ _ [EvDec] []);
    [discriminate | reflexivity |].
  apply runs_done. reflexivity.
Qed.

Lemma reduce_result_object_order_witness :
  exists drain,
    [EvOpArg 0; EvDelete 0; EvPark; EvDec]
    = EvOpArg 0 :: destroy (op := SumOp) (@mkObject SumOp 0 5%Z false)
        ++ drain ++ [EvPark; EvDec]
    /\ ~ In EvPark drain.
Proof.
  exact (reduce_result_object_order (op := SumOp) 0%Z (@mkObject SumOp 0 5%Z false)
           _ rro_run_alone).
Defined.

(** The order the specification gives -- [dec()] before the drain loop is
    entered -- is not the order of the code: in the undisturbed run the
    third event is the parking of the result, not a [dec()]. *)
Lemma dec_comes_after_the_drain_loop :
  exists (r : Z) (object : @ReduceObject SumOp) (tr : list event),
    runs (reduce_result_object (op := SumOp) r object) tr
    /\ ~ exists rest, tr = EvOpArg (oid object) :: destroy object ++ EvDec :: rest.
Proof.
  exists 0%Z, (@mkObject SumOp 0 5%Z false), [EvOpArg 0; EvDelete 0; EvPark; EvDec].
  split; [exact rro_run_alone|].
  intros [rest H]. discriminate H.
Qed.

(** One argument, with a callback, whose future is set when it is added:
    the client adds it, a worker reduces it into the parked result and
    destroys it, the client submits, and the queue runs the task. *)
Lemma one_argument_run :
  schedule [CAdd true; CTask 0; CTask 0; CTask 0; CTask 0; CSubmit; CRun]
           (init (op := SumOp) true [(7%Z, true)])
  = Some (@mkState SumOp [] 1 true true
            (@mkImpl SumOp (Some 7%Z) None 0 (Some 7%Z) true) []
            [@mkTask SumOp None []]
            [EvAdd 0 true; EvOpArg 0; EvNotify 0; EvDelete 0; EvPark; EvDec;
             EvDec; EvSet; EvDone]).
Proof. reflexivity. Qed.

Lemma each_argument_once_witness :
  uses 0 [EvAdd 0 true; EvOpArg 0; EvNotify 0; EvDelete 0; EvPark; EvDec;
          EvDec; EvSet; EvDone] = 1
  /\ deletes 0 [EvAdd 0 true; EvOpArg 0; EvNotify 0; EvDelete 0; EvPark; EvDec;
              EvDec; EvSet; EvDone] = 1
  /\ notifies 0 [EvAdd 0 true; EvOpArg 0; EvNotify 0; EvDelete 0; EvPark; EvDec;
               EvDec; EvSet; EvDone] = 1.
Proof.
  refine (proj1 (proj2 (each_argument_once (op := SumOp) true [(7%Z, true)] _
            (schedule_reachable _ _ _ _ (reach_refl _) one_argument_run)))
            _ 0 true _).
  - discriminate.
  - left. reflexivity.
Defined.

End SumReducer.

(** ** A worked run with a fused reduction *)

Section ExampleRun.

Lemma example_run :
  schedule example_schedule (init (op := SumOp) true example_adds) = Some example_end.
Proof. reflexivity. Qed.

Lemma example_reachable :
  reachable (init (op := SumOp) true example_adds) example_end.
Proof. exact (schedule_reachable _ _ _ _ (reach_refl _) example_run). Qed.

Lemma slots_never_both_witness :
  ready_result_ (pimpl_ example_end) = None
  \/ ready_object_ (pimpl_ example_end) = None.
Proof. exact (slots_never_both (op := SumOp) true example_adds example_end example_reachable). Defined.

Lemma run_finds_a_result_witness :
  exists m evs, run (pimpl_ example_end) = Some (m, evs).
Proof.
  exact (proj2 (run_finds_a_result (op := SumOp) true example_adds example_end example_reachable)
               eq_refl).
Defined.

Lemma counter_guards_completion_witness :
  uses 1 (trace example_end) = 1 /\ deletes 1 (trace example_end) = 1.
Proof.
  refine (proj2 (proj2 (proj2 (proj2 (proj2
            (counter_guards_completion (op := SumOp) true example_adds example_end
               example_reachable)) eq_refl))) 1 _).
  simpl. lia.
Defined.

Lemma reducing_calls_equal_arguments_witness :
  total e_reducing example_trace = 3
  /\ total e_op_res example_trace = total e_op_arg2 example_trace
  /\ count_ example_end = 3.
Proof.
  refine (reducing_calls_equal_arguments (op := SumOp) true example_adds example_end
            example_reachable _).
  discriminate.
Defined.

End ExampleRun.

(** ** Any operation that adds up *)

Section AdditiveFacts.

Context {op : ReduceOp}.
Variable val : @result_type op -> Z.
Variable w : @argument_type op -> Z.
Hypothesis Hadd : additive val w.

Ltac wbooks :=
  unfold WorthInv, delivered, worth, task_worth in *; simpl in *; use_slots;
  simpl in *; rewrite ?ztotal_app in *; simpl in *.

Ltac by_laws :=
  destruct Hadd as (Hnew & Hres_ & Harg & Harg2);
  rewrite ?Hnew, ?Hres_, ?Harg, ?Harg2 in *; lia.

Lemma idle_worth (l : list task) :
  Forall wf_task l -> Forall (fun t => code t = []) l ->
  ztotal (task_worth val w) l = 0%Z.
Proof.
  induction 1 as [|t l [_ Hh] _ IH]; intros Hidle; [reflexivity|].
  inversion Hidle as [|? ? Hc Hl]; subst. simpl. rewrite (IH Hl).
  unfold task_worth. rewrite Hc in *. destruct (result t); [discriminate | reflexivity].
Qed.

Lemma worth_at_end (s : state) :
  Inv s -> ndep (pimpl_ s) = 0 ->
  worth val w s = zslot val (ready_result_ (pimpl_ s)).
Proof.
  intros HI Hz.
  destruct (nothing_owed_at_zero s HI Hz) as (Hsub & Hp & Ho & Hidle & _ & _).
  unfold worth. rewrite (inv_script s HI Hsub), Hp, Ho,
    (idle_worth _ (inv_wf s HI) Hidle). simpl. lia.
Qed.

Lemma Worth_step (sum : Z) (s s' : state) :
  Inv s -> WorthInv val w sum s -> step s s' -> WorthInv val w sum s'.
Proof using Hadd.
  intros HI HV Hstep. destruct Hstep as
    [s a cb rest is_set Hscr Hsub | s s' Hscr Hsub Hs'
    | s l1 object l2 m spawned Hp Hr | s l1 t l2 m t' evs Htk Hne Hx
    | s m evs Hq Hz Hres Hr].
  - pose proof (no_result_before_submit s HI Hsub) as Hres.
    unfold add. destruct is_set.
    + destruct (ready _ _) as [m' sp] eqn:Hr. unfold ready in Hr. simpl in Hr.
      destruct (ready_result_ (pimpl_ s)) eqn:E1;
        [|destruct (ready_object_ (pimpl_ s)) eqn:E2];
        inversion Hr; subst; clear Hr; wbooks; by_laws.
    + wbooks; by_laws.
  - pose proof (no_result_before_submit s HI Hsub) as Hres.
    unfold submit, run in Hs'. simpl in Hs'.
    destruct (Nat.eqb_spec (count_ s) 0) as [Hz|Hnz].
    + destruct (inv_fresh s HI Hz) as (Hp & Htk & Ho).
      destruct (ready_result_ (pimpl_ s)) as [r|] eqn:E1; [|discriminate].
      inversion Hs'; subst; clear Hs'. wbooks. exists r. split; [reflexivity | lia].
    + inversion Hs'; subst; clear Hs'. wbooks. lia.
  - unfold ready in Hr.
    destruct (result_ (pimpl_ s)) eqn:Hres;
    (destruct (ready_result_ (pimpl_ s)) eqn:E1;
      [|destruct (ready_object_ (pimpl_ s)) eqn:E2]);
      inversion Hr; subst; clear Hr; wbooks; first [exact HV | by_laws].
  - assert (wf_task t) as Hwt.
    { pose proof (inv_wf s HI) as Hw. rewrite Htk in Hw.
      apply Forall_app in Hw as [_ Hw]. inversion Hw; assumption. }
    destruct Hwt as [_ Hwt].
    destruct t as [r c]. unfold exec, reduce in Hx. simpl in *.
    destruct c as [|x c]; [congruence|].
    destruct (result_ (pimpl_ s)) eqn:Hres;
    (destruct r as [r|]; destruct x; simpl in *; try discriminate;
      try (destruct (ready_object_ (pimpl_ s)) eqn:E2;
           [|destruct (ready_result_ (pimpl_ s)) eqn:E1]);
      inversion Hx; subst; clear Hx; wbooks; first [exact HV | by_laws]).
  - pose proof (worth_at_end s HI Hz) as Hend.
    unfold run in Hr. destruct (ready_result_ (pimpl_ s)) as [r|] eqn:E1; [|discriminate].
    inversion Hr; subst; clear Hr. unfold WorthInv in *. rewrite Hres in HV.
    simpl in *. exists r. split; [reflexivity | lia].
Qed.

Lemma additive_delivers (callback : bool)
    (adds : list (@argument_type op * bool)) :
  always_reaches (delivered val (ztotal (fun x => w (fst x)) adds))
                 (init callback adds).
Proof using Hadd.
  apply (always_reaches_weaken
           (fun s' : state =>
              result_ (pimpl_ s') <> None /\ Inv s'
              /\ WorthInv val w (ztotal (fun x => w (fst x)) adds) s')).
  - intros s' (Hres & _ & HV). unfold WorthInv in HV.
    destruct (result_ (pimpl_ s')) as [v|]; [exact HV | contradiction].
  - apply (result_is_set (WorthInv val w (ztotal (fun x => w (fst x)) adds))).
    + intros s s' HI HV Hstep. eapply Worth_step; eassumption.
    + apply Inv_init.
    + unfold WorthInv, worth. simpl. destruct Hadd as (Hnew & _). rewrite Hnew. lia.
Qed.

(** X6.  For an operation whose reducing calls add up integer
    contributions, the task delivers the sum of the contributions of the
    arguments added, on every schedule: the result future is set to the
    post-processed result that is worth that sum, whatever the order in
    which the futures are set and the reductions are paired. *)
Theorem additive_reducer_delivers (callback : bool)
    (adds : list (@argument_type op * bool)) :
  always_reaches (delivered val (ztotal (fun x => w (fst x)) adds))
                 (init callback adds).
Proof using Hadd. exact (additive_delivers callback adds). Qed.

End AdditiveFacts.

Lemma additive_reducer_delivers_witness :
  always_reaches (delivered (op := SumOp) (fun r => r) 12%Z)
                 (init (op := SumOp) true example_adds).
Proof.
  refine (additive_reducer_delivers (op := SumOp) (fun r => r) (fun a => a) _
            true example_adds).
  unfold additive. simpl. repeat split; intros; lia.
Defined.

(** ** The pair reducer *)

(** X7.  [ReducePairTask] over a pair operation whose reducing calls add
    up the contributions of the pairs delivers, on every schedule, the sum
    of the contributions of the pairs added: the wrapper hands the two
    halves of each pair to the operation, in both the one-pair and the
    two-pair call. *)
Theorem pair_reducer_delivers (op_ : PairOp) (val : pair_result_type -> Z)
    (pw : first_argument_type -> second_argument_type -> Z) (callback : bool)
    (adds : list (first_argument_type * second_argument_type * bool)) :
  pair_additive val pw ->
  always_reaches
    (delivered (op := ReducePairOpWrapper op_) val
       (ztotal (fun x => pw (fst (fst x)) (snd (fst x))) adds))
    (init (op := ReducePairOpWrapper op_) callback adds).
Proof.
  intros (Hnew & Hres & Harg & Harg2).
  apply (additive_delivers (op := ReducePairOpWrapper op_) val
           (fun a => pw (fst a) (snd a))).
  unfold additive. simpl. repeat split; intros; auto.
Qed.

Lemma pair_reducer_delivers_witness :
  always_reaches
    (delivered (op := ReducePairOpWrapper DotProduct) (fun r => r) 94%Z)
    (init (op := ReducePairOpWrapper DotProduct) false
       [(([1; 2], [3; 4])%Z, true); (([5; 6], [7; 8])%Z, false)]).
Proof.
  refine (pair_reducer_delivers DotProduct (fun r => r) dot false
            [(([1; 2], [3; 4])%Z, true); (([5; 6], [7; 8])%Z, false)] _).
  unfold pair_additive. simpl. repeat split; intros; lia.
Defined.

End ReduceTaskFacts.

(* ===================================================================== *)
(** * Part III-b: properties of [ReduceObject]                            *)
(* ===================================================================== *)

Module ReduceObjectFacts.
Import ReduceObject.

Lemma Between_start (pair first_set second_set : bool) :
  Between (start pair first_set second_set).
Proof. destruct pair; simpl; repeat split; reflexivity. Qed.

Ltac crunch :=
  repeat match goal with
  | H : _ /\ _ |- _ => destruct H
  | H : _ \/ _ |- _ => destruct H
  end;
  simpl in *; subst; simpl in *;
  try discriminate;
  repeat split; try reflexivity; try lia; auto.

Lemma Between_play_one (m : move) (o o' : object) :
  Between o -> play_one m o = Some o' -> Between o'.
Proof.
  destruct o as [pair [s1 q1] [s2 q2] c r n].
  unfold Between, play_one, construct, set_first, set_second,
    register_callback_first, register_callback_second, notify, all_set,
    parent_ready, set_count, goto, with_first, with_second, probe, flag.
  simpl. intros HB Hm.
  destruct m, n; simpl in *; try discriminate;
    destruct pair, s1, s2, q1, q2; simpl in *; try discriminate;
    inversion Hm; subst; clear Hm; crunch.
Qed.

Lemma Between_play (ms : list move) (o o' : object) :
  Between o -> play ms o = Some o' -> Between o'.
Proof.
  revert o. induction ms as [|m ms IH]; simpl; intros o HB Hp.
  - inversion Hp; subst; exact HB.
  - destruct (play_one m o) as [o1|] eqn:Hm; [|discriminate].
    apply (IH o1); [eapply Between_play_one; eassumption | exact Hp].
Qed.

(** X8.  A reduce object signals its parent exactly when all the futures
    of its argument are set and never twice: however the statements of the
    constructor interleave with the futures being set by other threads,
    before the constructor has returned the number of calls
    [parent_->ready(this)] is at most one and is one only if all futures
    are set, and once it has returned the number is one if all futures are
    set and zero otherwise. *)
Theorem ready_signalled_once (pair first_set second_set : bool)
    (ms : list move) (o : object) :
  play ms (start pair first_set second_set) = Some o ->
  readied o <= 1
  /\ (readied o = 1 -> all_set o = true)
  /\ (constructed o = true -> readied o = if all_set o then 1 else 0).
Proof.
  intros Hp.
  pose proof (Between_play ms _ o (Between_start pair first_set second_set) Hp) as HB.
  unfold Between, constructed in *.
  destruct (next o); crunch;
    try (destruct (all_set o); simpl; lia);
    try (destruct (all_set o); [reflexivity | lia]).
Qed.

Lemma ready_signalled_once_witness :
  readied (mkObject true (mkFuture true false) (mkFuture true false) 0 1 Constructed) <= 1
  /\ (readied (mkObject true (mkFuture true false) (mkFuture true false) 0 1 Constructed) = 1
      -> all_set (mkObject true (mkFuture true false) (mkFuture true false) 0 1 Constructed)
         = true)
  /\ (constructed (mkObject true (mkFuture true false) (mkFuture true false) 0 1 Constructed)
      = true ->
      readied (mkObject true (mkFuture true false) (mkFuture true false) 0 1 Constructed)
      = 1).
Proof.
  exact (ready_signalled_once true true false
           [Construct; Construct; Construct; Construct; SetSecond; Construct]
           _ eq_refl).
Defined.

End ReduceObjectFacts.

(* ===================================================================== *)
(** * Part IV: properties of [SparseShape]                                *)
(* ===================================================================== *)

Module SparseShapeFacts.
Import SparseShape.

(** ** Queries and the threshold *)



(** The setter does not reject a threshold that is not positive: [-1] is
    stored like any other value. *)
Lemma negative_threshold_is_stored :
  exists (thresh : value_type) (g : Statics),
    (thresh <= 0)%Q /\ set_threshold thresh g <> Raise PreconditionViolated.
Proof.
  exists (-1)%Q, (mkStatics 1%Q). split; [discriminate | discriminate].
Qed.

(** C9, as the code has it.  [threshold(thresh)] stores whatever it is
    given, positive or not, and never fails: afterwards [threshold()]
    returns [thresh]. *)
Theorem set_threshold_stores (thresh : value_type) (g : Statics) :
  exists g', set_threshold thresh g = Ok g' /\ threshold g' = thresh.
Proof. exists (mkStatics thresh). split; reflexivity. Qed.

(** ** Subtraction *)

(** C6.  Each of the six overloads of [subt] returns what the [add]
    overload with the same arguments returns. *)
Theorem subt_is_add (sqrt : value_type -> value_type) (g : Statics)
    (factor value : value_type) (p : Permutation_) (S other : SparseShape_) :
  subt S other = add S other
  /\ subt_perm p S other = add_perm p S other
  /\ subt_scaled g factor S other = add_scaled g factor S other
  /\ subt_scaled_perm g factor p S other = add_scaled_perm g factor p S other
  /\ subt_value sqrt g value S = add_value sqrt g value S
  /\ subt_value_perm sqrt g value p S = add_value_perm sqrt g value p S.
Proof. repeat split. Qed.

(** ** The outer product of [gemm] *)

(** In the exact rationals, [gemm] over an arithmetic is the [gemm] of
    Part II. *)
Lemma recursive_outer_product_agrees (fuel : nat) (size_vectors : list vector_type)
    (dim : nat) (op : vector_type -> vector_type) :
  SparseShapeOf.recursive_outer_product (A := SparseShapeOf.Rationals)
    fuel size_vectors dim op
  = recursive_outer_product fuel size_vectors dim op.
Proof.
  revert size_vectors dim. induction fuel as [|fuel IH]; intros size_vectors dim;
    [reflexivity|].
  cbn [SparseShapeOf.recursive_outer_product recursive_outer_product].
  destruct (dim =? 1); [reflexivity|]. rewrite !IH. reflexivity.
Qed.

Lemma gemm_agrees (g : Statics) (factor : Q) (h : GemmHelper) (S other : SparseShape_) :
  SparseShapeOf.gemm (A := SparseShapeOf.Rationals) SparseShapeOf.rational_gemm
    (SparseShapeOf.mkStatics (A := SparseShapeOf.Rationals) (threshold_ g)) factor h
    (SparseShapeOf.of_shape S) (SparseShapeOf.of_shape other)
  = SparseShapeOf.of_result (gemm g factor h S other).
Proof.
  unfold SparseShapeOf.gemm, gemm, SparseShapeOf.of_shape. simpl.
  destruct (tile_norms_ S) as [x|]; simpl; [|reflexivity].
  destruct (tile_norms_ other) as [y|]; simpl; [|reflexivity].
  destruct (compute_matrix_sizes h (range_ x) (range_ y)) as [[M N] K].
  destruct (0 <? left_inner_end h - left_inner_begin h).
  - rewrite recursive_outer_product_agrees.
    destruct (recursive_outer_product _ _ _ _) as [k_sizes|]; simpl; [|reflexivity].
    unfold SparseShapeOf.rational_gemm. simpl. reflexivity.
  - simpl. reflexivity.
Qed.

(** C7.  With no contracted dimension, [gemm] returns the outer product
    of the two norm tensors: the entry for [left] and [right] is
    [left * right * |factor|] as the arithmetic of [T] computes it, and
    zero when that product is below the threshold; its [result_rank] size
    vectors are the outer ones of the left followed by those of the
    right.  This holds in every arithmetic, so in floating point with its
    rounding. *)
Theorem gemm_outer_product (A : SparseShapeOf.Arithmetic)
    (tensor_gemm : GemmHelper -> SparseShapeOf.value_type -> SparseShapeOf.Tensor
                   -> SparseShapeOf.Tensor -> result SparseShapeOf.Tensor)
    (g : SparseShapeOf.Statics) (factor : SparseShapeOf.value_type) (h : GemmHelper)
    (S other : SparseShapeOf.SparseShape_) (x y : SparseShapeOf.TensorImpl) :
  SparseShapeOf.tile_norms_ S = Some x -> SparseShapeOf.tile_norms_ other = Some y ->
  left_inner_end h - left_inner_begin h = 0 ->
  SparseShapeOf.gemm tensor_gemm g factor h S other
  = Ok (SparseShapeOf.mkShape
          (Some (SparseShapeOf.mkTensor
                   (make_result_range h (SparseShapeOf.range_ x) (SparseShapeOf.range_ y))
                   (flat_map
                      (fun left =>
                         map (fun right =>
                                if SparseShapeOf.less
                                     (SparseShapeOf.times
                                        (SparseShapeOf.times left right)
                                        (SparseShapeOf.abs factor))
                                     (SparseShapeOf.threshold_ g)
                                then SparseShapeOf.zero
                                else SparseShapeOf.times
                                       (SparseShapeOf.times left right)
                                       (SparseShapeOf.abs factor))
                             (take (volume (slice (right_outer_begin h)
                                              (right_outer_end h)
                                              (SparseShapeOf.range_ y)))
                                   (SparseShapeOf.data_ y)))
                      (take (volume (slice (left_outer_begin h) (left_outer_end h)
                                       (SparseShapeOf.range_ x)))
                            (SparseShapeOf.data_ x)))))
          (take (result_rank h)
                (slice (left_outer_begin h) (left_outer_end h)
                       (SparseShapeOf.size_vectors_ S)
                 ++ slice (right_outer_begin h) (right_outer_end h)
                          (SparseShapeOf.size_vectors_ other)
                 ++ replicate (result_rank h) []))).
Proof.
  intros Hx Hy Hk. unfold SparseShapeOf.gemm. rewrite Hx, Hy, Hk. simpl.
  do 3 f_equal. f_equal. unfold SparseShapeOf.outer_fill.
  induction (take _ (SparseShapeOf.data_ x)) as [|l ls IH]; simpl; [reflexivity|].
  rewrite map_app, IH. f_equal. rewrite map_map. apply map_ext. intros r.
  destruct (SparseShapeOf.less
              (SparseShapeOf.times (SparseShapeOf.times l r) (SparseShapeOf.abs factor))
              (SparseShapeOf.threshold_ g)) eqn:E.
  - destruct (SparseShapeOf.less SparseShapeOf.zero (SparseShapeOf.threshold_ g));
      reflexivity.
  - rewrite E. reflexivity.
Qed.

(** The sixth scenario in single precision: norms [1, 2] and [3, 4],
    factor 1, threshold 0; the same under the threshold 5, which the
    products 3 and 4 are below; and the norms [1 + 2^-23] and [1 - 2^-23]
    under the threshold 1, whose product rounds to 1 and is kept. *)
Lemma gemm_outer_product_witness :
  SparseShapeOf.gemm (A := SparseShapeOf.Binary32) (fun _ _ t _ => Ok t)
    (SparseShapeOf.mkStatics (A := SparseShapeOf.Binary32) (SparseShapeOf.float32 0 0))
    (SparseShapeOf.float32 1 0) SparseShapeOf.outer_helper
    (SparseShapeOf.row32 [SparseShapeOf.float32 1 0; SparseShapeOf.float32 2 0])
    (SparseShapeOf.row32 [SparseShapeOf.float32 3 0; SparseShapeOf.float32 4 0])
  = Ok (SparseShapeOf.mkShape (A := SparseShapeOf.Binary32)
          (Some (SparseShapeOf.mkTensor (A := SparseShapeOf.Binary32) [2; 2]
                   [SparseShapeOf.float32 3 0; SparseShapeOf.float32 4 0;
                    SparseShapeOf.float32 6 0; SparseShapeOf.float32 8 0]))
          [[SparseShapeOf.float32 1 0; SparseShapeOf.float32 1 0];
           [SparseShapeOf.float32 1 0; SparseShapeOf.float32 1 0]])
  /\ SparseShapeOf.gemm (A := SparseShapeOf.Binary32) (fun _ _ t _ => Ok t)
       (SparseShapeOf.mkStatics (A := SparseShapeOf.Binary32) (SparseShapeOf.float32 5 0))
       (SparseShapeOf.float32 1 0) SparseShapeOf.outer_helper
       (SparseShapeOf.row32 [SparseShapeOf.float32 1 0; SparseShapeOf.float32 2 0])
       (SparseShapeOf.row32 [SparseShapeOf.float32 3 0; SparseShapeOf.float32 4 0])
     = Ok (SparseShapeOf.mkShape (A := SparseShapeOf.Binary32)
             (Some (SparseShapeOf.mkTensor (A := SparseShapeOf.Binary32) [2; 2]
                      [S754_zero false; S754_zero false;
                       SparseShapeOf.float32 6 0; SparseShapeOf.float32 8 0]))
             [[SparseShapeOf.float32 1 0; SparseShapeOf.float32 1 0];
              [SparseShapeOf.float32 1 0; SparseShapeOf.float32 1 0]])
  /\ SparseShapeOf.gemm (A := SparseShapeOf.Binary32) (fun _ _ t _ => Ok t)
       (SparseShapeOf.mkStatics (A := SparseShapeOf.Binary32) (SparseShapeOf.float32 1 0))
       (SparseShapeOf.float32 1 0) SparseShapeOf.outer_helper
       (SparseShapeOf.row32 [SparseShapeOf.float32 8388609 (-23)])
       (SparseShapeOf.row32 [SparseShapeOf.float32 16777214 (-24)])
     = Ok (SparseShapeOf.mkShape (A := SparseShapeOf.Binary32)
             (Some (SparseShapeOf.mkTensor (A := SparseShapeOf.Binary32) [1; 1]
                      [SparseShapeOf.float32 1 0]))
             [[SparseShapeOf.float32 1 0]; [SparseShapeOf.float32 1 0]]).
Proof.
  split; [|split].
  - exact (gemm_outer_product SparseShapeOf.Binary32 (fun _ _ t _ => Ok t)
             (SparseShapeOf.mkStatics (A := SparseShapeOf.Binary32)
                (SparseShapeOf.float32 0 0))
             (SparseShapeOf.float32 1 0) SparseShapeOf.outer_helper
             (SparseShapeOf.row32 [SparseShapeOf.float32 1 0; SparseShapeOf.float32 2 0])
             (SparseShapeOf.row32 [SparseShapeOf.float32 3 0; SparseShapeOf.float32 4 0])
             _ _ eq_refl eq_refl eq_refl).
  - exact (gemm_outer_product SparseShapeOf.Binary32 (fun _ _ t _ => Ok t)
             (SparseShapeOf.mkStatics (A := SparseShapeOf.Binary32)
                (SparseShapeOf.float32 5 0))
             (SparseShapeOf.float32 1 0) SparseShapeOf.outer_helper
             (SparseShapeOf.row32 [SparseShapeOf.float32 1 0; SparseShapeOf.float32 2 0])
             (SparseShapeOf.row32 [SparseShapeOf.float32 3 0; SparseShapeOf.float32 4 0])
             _ _ eq_refl eq_refl eq_refl).
  - exact (gemm_outer_product SparseShapeOf.Binary32 (fun _ _ t _ => Ok t)
             (SparseShapeOf.mkStatics (A := SparseShapeOf.Binary32)
                (SparseShapeOf.float32 1 0))
             (SparseShapeOf.float32 1 0) SparseShapeOf.outer_helper
             (SparseShapeOf.row32 [SparseShapeOf.float32 8388609 (-23)])
             (SparseShapeOf.row32 [SparseShapeOf.float32 16777214 (-24)])
             _ _ eq_refl eq_refl eq_refl).
Defined.

(** ** Permutations *)

Section Scatter.

Context {X : Type} (d : X) (p : Permutation_) (v : list X).

Let put (res : list X) (i : nat) : list X := <[nth i p 0 := nth i v d]> res.

Lemma scatter_length (js : list nat) (res : list X) :
  length (foldl put res js) = length res.
Proof.
  revert res. induction js as [|a js IH]; intros res; simpl; [reflexivity|].
  rewrite IH. apply length_insert.
Qed.

Lemma scatter_untouched (js : list nat) (res : list X) (j : nat) :
  (forall i, i ∈ js -> nth i p 0 <> j) ->
  foldl put res js !! j = res !! j.
Proof.
  revert res. induction js as [|a js IH]; intros res Hj; simpl; [reflexivity|].
  rewrite IH.
  - apply list_lookup_insert_ne. apply Hj. left.
  - intros i Hi. apply Hj. right. exact Hi.
Qed.

Lemma scatter_written (js : list nat) (res : list X) (i : nat) :
  NoDup (map (fun i => nth i p 0) js) -> i ∈ js -> nth i p 0 < length res ->
  foldl put res js !! nth i p 0 = Some (nth i v d).
Proof.
  revert res. induction js as [|a js IH]; intros res Hnd Hi Hlt; simpl.
  - inversion Hi.
  - simpl in Hnd. apply NoDup_cons in Hnd as [Ha Hnd].
    destruct (decide (i = a)) as [->|Hne].
    + rewrite scatter_untouched.
      * apply list_lookup_insert_eq. exact Hlt.
      * intros i Hi' Heq. apply Ha. rewrite <- Heq.
        apply (list_elem_of_fmap_2 (fun i => nth i p 0)). exact Hi'.
    + apply IH; [exact Hnd | | unfold put; rewrite length_insert; exact Hlt].
      apply elem_of_cons in Hi as [Hi|Hi]; [contradiction | exact Hi].
Qed.

End Scatter.

Lemma perm_length (n : nat) (p : Permutation_) : is_permutation n p -> length p = n.
Proof. intros H. rewrite (Permutation_length H). apply length_seq. Qed.

Lemma perm_NoDup (n : nat) (p : Permutation_) : is_permutation n p -> NoDup p.
Proof. intros H. unfold is_permutation in H. rewrite H. apply NoDup_seq. Qed.

Lemma perm_bound (n : nat) (p : Permutation_) (i : nat) :
  is_permutation n p -> i < n -> nth i p 0 < n.
Proof.
  intros H Hi. assert (nth i p 0 ∈ seq 0 n) as Hin.
  { rewrite <- H. apply list_elem_of_In, nth_In. rewrite (perm_length n p H). exact Hi. }
  apply elem_of_seq in Hin. lia.
Qed.

Lemma perm_injective (n : nat) (p : Permutation_) (i j : nat) :
  is_permutation n p -> i < n -> j < n -> nth i p 0 = nth j p 0 -> i = j.
Proof.
  intros H Hi Hj Heq. pose proof (perm_NoDup n p H) as Hnd.
  rewrite <- (perm_length n p H) in Hi, Hj.
  apply NoDup_ListNoDup in Hnd.
  apply (proj1 (List.NoDup_nth p 0) Hnd i j Hi Hj Heq).
Qed.

Lemma perm_surjective (n : nat) (p : Permutation_) (j : nat) :
  is_permutation n p -> j < n -> exists i, i < n /\ nth i p 0 = j.
Proof.
  intros H Hj. assert (j ∈ p) as Hin.
  { unfold is_permutation in H. rewrite H. apply elem_of_seq. lia. }
  apply list_elem_of_In in Hin. destruct (In_nth p j 0 Hin) as (i & Hi & Heq).
  exists i. rewrite (perm_length n p H) in Hi. split; assumption.
Qed.

Lemma perm_images (n : nat) (p : Permutation_) :
  is_permutation n p -> map (fun i => nth i p 0) (seq 0 n) = p.
Proof.
  intros H. pose proof (perm_length n p H) as Hlen.
  apply (nth_ext _ _ 0 0); [rewrite length_map, length_seq; congruence|].
  intros i Hi. rewrite length_map, length_seq in Hi.
  rewrite (nth_indep _ 0 (nth 0 p 0)) by (rewrite length_map, length_seq; exact Hi).
  rewrite (map_nth (fun i => nth i p 0) (seq 0 n) 0 i).
  rewrite seq_nth by exact Hi. reflexivity.
Qed.

(** What [permute_vec] computes: [result[p[i]] = v[i]]. *)
Lemma permute_vec_length {X : Type} (n : nat) (d : X) (p : Permutation_) (v : list X) :
  length (permute_vec n d p v) = n.
Proof. unfold permute_vec. rewrite scatter_length. apply length_replicate. Qed.

Lemma permute_vec_nth {X : Type} (n : nat) (d : X) (p : Permutation_) (v : list X)
    (i : nat) :
  is_permutation n p -> i < n ->
  nth (nth i p 0) (permute_vec n d p v) d = nth i v d.
Proof.
  intros H Hi. rewrite nth_lookup. unfold permute_vec.
  rewrite (scatter_written d p v (seq 0 n) (replicate n d) i).
  - reflexivity.
  - rewrite (perm_images n p H). exact (perm_NoDup n p H).
  - apply elem_of_seq. lia.
  - rewrite length_replicate. apply (perm_bound n p i H Hi).
Qed.

(** The inverse permutation undoes [p] and is a permutation. *)
Lemma inverse_nth (n : nat) (p : Permutation_) (i : nat) :
  is_permutation n p -> i < n -> nth (nth i p 0) (inverse p) 0 = i.
Proof.
  intros H Hi. unfold inverse. rewrite (perm_length n p H).
  rewrite (permute_vec_nth n 0 p (seq 0 n) i H Hi).
  rewrite seq_nth by exact Hi. reflexivity.
Qed.

Lemma inverse_permutation (n : nat) (p : Permutation_) :
  is_permutation n p -> is_permutation n (inverse p).
Proof.
  intros H. unfold is_permutation.
  assert (length (inverse p) = n) as Hlen.
  { unfold inverse. rewrite (perm_length n p H). apply permute_vec_length. }
  apply NoDup_Permutation_bis.
  - apply (proj2 (List.NoDup_nth (inverse p) 0)). intros j1 j2 Hj1 Hj2 Heq.
    rewrite Hlen in Hj1, Hj2.
    destruct (perm_surjective n p j1 H Hj1) as (i1 & Hi1 & <-).
    destruct (perm_surjective n p j2 H Hj2) as (i2 & Hi2 & <-).
    rewrite !(inverse_nth n p) in Heq by assumption. congruence.
  - rewrite length_seq, Hlen. lia.
  - intros x Hx. destruct (In_nth _ _ 0 Hx) as (j & Hj & <-). rewrite Hlen in Hj.
    destruct (perm_surjective n p j H Hj) as (i & Hi & <-).
    rewrite (inverse_nth n p i H Hi). apply in_seq. lia.
Qed.

Lemma permute_vec_inverse {X : Type} (n : nat) (d : X) (p : Permutation_)
    (v : list X) :
  is_permutation n p -> length v = n ->
  permute_vec n d (inverse p) (permute_vec n d p v) = v.
Proof.
  intros H Hv. apply (nth_ext _ _ d d); [rewrite permute_vec_length; congruence|].
  intros j Hj. rewrite permute_vec_length in Hj.
  pose proof (perm_bound n p j H Hj) as Hpj.
  rewrite <- (inverse_nth n p j H Hj) at 1.
  rewrite (permute_vec_nth n d (inverse p) _ (nth j p 0) (inverse_permutation n p H) Hpj).
  apply (permute_vec_nth n d p v j H Hj).
Qed.

(** ** Ordinals and coordinates *)

Lemma ord_bound (r : Range) (idx : list nat) :
  in_range r idx -> ord r idx < volume r.
Proof.
  unfold in_range. intros H. induction H as [|i n idx r Hi _ IH]; simpl; [lia|].
  nia.
Qed.

Lemma unord_ord (r : Range) (idx : list nat) :
  in_range r idx -> unord r (ord r idx) = idx.
Proof.
  unfold in_range. intros H. induction H as [|i n idx r Hi Hrest IH]; simpl;
    [reflexivity|].
  pose proof (ord_bound r idx Hrest) as Hb.
  assert (volume r <> 0) as Hv by lia.
  f_equal.
  - rewrite Nat.div_add_l by exact Hv. rewrite Nat.div_small by exact Hb. lia.
  - rewrite Nat.add_comm, Nat.Div0.mod_add, Nat.mod_small by exact Hb. exact IH.
Qed.

Lemma ord_unord (r : Range) (k : nat) :
  k < volume r -> in_range r (unord r k) /\ ord r (unord r k) = k.
Proof.
  unfold in_range. revert k. induction r as [|n r IH]; intros k Hk; simpl in *.
  - split; [constructor | lia].
  - assert (volume r <> 0) as Hv by (intros E; rewrite E in Hk; lia).
    destruct (IH (k mod volume r)) as [IH1 IH2]; [apply Nat.mod_upper_bound; exact Hv|].
    split.
    + constructor; [|exact IH1].
      apply Nat.Div0.div_lt_upper_bound. lia.
    + rewrite IH2. pose proof (Nat.div_mod_eq k (volume r)). lia.
Qed.

Lemma in_range_nth (r : Range) (idx : list nat) :
  in_range r idx
  <-> length idx = length r /\ forall d, d < length r -> nth d idx 0 < nth d r 0.
Proof.
  unfold in_range. split.
  - induction 1 as [|i n idx r Hi _ [IH1 IH2]]; simpl; [split; [reflexivity | lia]|].
    split; [congruence|]. intros [|d] Hd; [exact Hi | apply IH2; lia].
  - revert idx. induction r as [|n r IH]; intros [|i idx] [Hlen Hnth];
      simpl in *; try discriminate; constructor.
    + apply (Hnth 0). lia.
    + apply IH. split; [congruence|]. intros d Hd. apply (Hnth (S d)). lia.
Qed.

Lemma unpermute_index_length (p : Permutation_) (idx : list nat) :
  length (unpermute_index p idx) = length idx.
Proof. unfold unpermute_index. rewrite length_map, length_seq. reflexivity. Qed.

Lemma unpermute_index_nth (p : Permutation_) (idx : list nat) (d : nat) :
  d < length idx -> nth d (unpermute_index p idx) 0 = nth (nth d p 0) idx 0.
Proof.
  intros Hd. unfold unpermute_index.
  rewrite (nth_indep _ 0 (nth (nth 0 p 0) idx 0))
    by (rewrite length_map, length_seq; exact Hd).
  rewrite (map_nth (fun d => nth (nth d p 0) idx 0) (seq 0 (length idx)) 0 d).
  rewrite seq_nth by exact Hd. reflexivity.
Qed.

(** An index of the permuted range comes from an index of the range. *)
Lemma unpermute_in_range (n : nat) (p : Permutation_) (r : Range) (idx : list nat) :
  is_permutation n p -> length r = n ->
  in_range (permute_vec n 0 p r) idx -> in_range r (unpermute_index p idx).
Proof.
  intros H Hr Hin. apply in_range_nth in Hin as [Hlen Hnth].
  rewrite permute_vec_length in Hlen, Hnth.
  apply in_range_nth. rewrite unpermute_index_length. split; [congruence|].
  intros d Hd. rewrite Hr in Hd.
  rewrite unpermute_index_nth by lia.
  rewrite <- (permute_vec_nth n 0 p r d H Hd).
  apply Hnth. apply (perm_bound n p d H Hd).
Qed.

Lemma unpermute_unpermute (n : nat) (p : Permutation_) (idx : list nat) :
  is_permutation n p -> length idx = n ->
  unpermute_index p (unpermute_index (inverse p) idx) = idx.
Proof.
  intros H Hlen. apply (nth_ext _ _ 0 0);
    [rewrite !unpermute_index_length; reflexivity|].
  intros d Hd. rewrite !unpermute_index_length in Hd.
  rewrite unpermute_index_nth by (rewrite unpermute_index_length; exact Hd).
  rewrite unpermute_index_nth
    by (rewrite Hlen; apply (perm_bound n p d H); lia).
  rewrite (inverse_nth n p d H) by lia. reflexivity.
Qed.

Lemma nth_map_seq {X : Type} (f : nat -> X) (m k : nat) (d : X) :
  k < m -> nth k (map f (seq 0 m)) d = f k.
Proof.
  intros Hk. rewrite (nth_indep _ d (f 0)) by (rewrite length_map, length_seq; exact Hk).
  rewrite (map_nth f (seq 0 m) 0 k). rewrite seq_nth by exact Hk. reflexivity.
Qed.

(** Permuting a tensor by [p] and then by its inverse gives the tensor
    back, element for element. *)
Lemma tensor_permute_inverse (p : Permutation_) (x x' : TensorImpl) :
  is_permutation (dim (range_ x)) p -> length (data_ x) = volume (range_ x) ->
  tensor_permute p (Some x) = Ok (Some x') ->
  tensor_permute (inverse p) (Some x') = Ok (Some x).
Proof.
  intros H Hdata Hx'. destruct x as [r data]. simpl in *.
  set (n := dim r) in *.
  pose proof (inverse_permutation n p H) as Hq.
  unfold tensor_permute in Hx'. simpl in Hx'. fold n in Hx'.
  inversion Hx'; subst x'; clear Hx'.
  unfold tensor_permute. simpl.
  replace (dim (permute_vec n 0 p r)) with n
    by (symmetry; apply permute_vec_length).
  rewrite (permute_vec_inverse n 0 p r H eq_refl).
  do 3 f_equal.
  apply (nth_ext _ _ 0%Q 0%Q); [rewrite length_map, length_seq; symmetry; exact Hdata|].
  intros k Hk. rewrite length_map, length_seq in Hk.
  rewrite nth_map_seq by exact Hk.
  destruct (ord_unord r k Hk) as [Hin Hord].
  assert (in_range (permute_vec n 0 p r) (unpermute_index (inverse p) (unord r k)))
    as Hin1.
  { apply (unpermute_in_range n (inverse p) (permute_vec n 0 p r)); [exact Hq | |].
    - apply permute_vec_length.
    - rewrite (permute_vec_inverse n 0 p r H eq_refl). exact Hin. }
  rewrite nth_map_seq by (apply ord_bound; exact Hin1).
  rewrite (unord_ord _ _ Hin1).
  rewrite (unpermute_unpermute n p (unord r k) H).
  - rewrite Hord. reflexivity.
  - apply in_range_nth in Hin as [Hlen _]. exact Hlen.
Qed.

Lemma permute_in_range (n : nat) (p : Permutation_) (r : Range) (idx : list nat) :
  is_permutation n p -> length r = n ->
  in_range r idx -> in_range (permute_vec n 0 p r) (permute_vec n 0 p idx).
Proof.
  intros H Hr Hin. apply in_range_nth in Hin as [Hlen Hnth].
  apply in_range_nth. rewrite !permute_vec_length. split; [reflexivity|].
  intros j Hj. destruct (perm_surjective n p j H Hj) as (d & Hd & <-).
  rewrite !(permute_vec_nth n 0 p _ d H Hd). apply Hnth. lia.
Qed.

Lemma unpermute_permute (n : nat) (p : Permutation_) (idx : list nat) :
  is_permutation n p -> length idx = n ->
  unpermute_index p (permute_vec n 0 p idx) = idx.
Proof.
  intros H Hlen. apply (nth_ext _ _ 0 0);
    [rewrite unpermute_index_length, permute_vec_length; congruence|].
  intros d Hd. rewrite unpermute_index_length, permute_vec_length in Hd.
  rewrite unpermute_index_nth by (rewrite permute_vec_length; exact Hd).
  apply (permute_vec_nth n 0 p idx d H Hd).
Qed.

(** C5.  For a shape that is not empty and a permutation [p] of its
    dimensions, [perm(p)] returns a shape whose norm at the image of an
    index is the norm of the shape at that index, and whose size vector
    at [p[d]] is the size vector of the shape at [d]; permuting that
    shape by the inverse of [p] gives the shape back, norms identical. *)
Theorem perm_then_inverse (S : SparseShape_) (p : Permutation_) (x : TensorImpl) :
  tile_norms_ S = Some x -> wf_shape S -> is_permutation (dim (range_ x)) p ->
  exists (S' : SparseShape_) (x' : TensorImpl),
    perm p S = Ok S' /\ tile_norms_ S' = Some x'
    /\ (forall idx, in_range (range_ x) idx ->
          nth (ord (range_ x') (permute_vec (dim (range_ x)) 0 p idx)) (data_ x') 0%Q
          = nth (ord (range_ x) idx) (data_ x) 0%Q)
    /\ (forall d, d < dim (range_ x) ->
          nth (nth d p 0) (size_vectors_ S') [] = nth d (size_vectors_ S) [])
    /\ perm (inverse p) S' = Ok S.
Proof.
  intros Hx Hwf H. unfold wf_shape in Hwf. rewrite Hx in Hwf.
  destruct Hwf as [Hdata Hsv]. destruct S as [tn sv]. simpl in *. subst tn.
  destruct x as [r data]. simpl in *. set (n := dim r) in *.
  pose (x1 := mkTensor (permute_vec n 0 p r)
                (map (fun k => nth (ord r (unpermute_index p
                                             (unord (permute_vec n 0 p r) k)))
                                   data 0%Q)
                     (seq 0 (volume (permute_vec n 0 p r))))).
  exists (mkShape (Some x1) (permute_vec n [] p sv)), x1.
  split; [reflexivity|]. split; [reflexivity|]. simpl.
  split; [|split].
  - intros idx Hin.
    pose proof (permute_in_range n p r idx H eq_refl Hin) as Hin'.
    rewrite nth_map_seq by (apply ord_bound; exact Hin').
    rewrite (unord_ord _ _ Hin').
    rewrite (unpermute_permute n p idx H); [reflexivity|].
    apply in_range_nth in Hin as [Hlen _]. exact Hlen.
  - intros d Hd. apply (permute_vec_nth n [] p sv d H Hd).
  - unfold perm, perm_size_vectors.
    change (tile_norms_ (mkShape (Some x1) (permute_vec n [] p sv))) with (Some x1).
    rewrite (tensor_permute_inverse p (mkTensor r data) x1 H Hdata eq_refl).
    simpl.
    replace (dim (permute_vec n 0 p r)) with n
      by (symmetry; apply permute_vec_length).
    rewrite (permute_vec_inverse n [] p sv H Hsv). reflexivity.
Qed.

(** A 2 x 3 grid and the transposition of its two dimensions. *)
Lemma perm_then_inverse_witness :
  exists (S' : SparseShape_) (x' : TensorImpl),
    perm [1; 0]
         (mkShape (Some (mkTensor [2; 3] [1%Q; 2%Q; 3%Q; 4%Q; 5%Q; 6%Q]))
                  [[1%Q; 1%Q]; [2%Q; 2%Q; 2%Q]]) = Ok S'
    /\ tile_norms_ S' = Some x'
    /\ (forall idx, in_range [2; 3] idx ->
          nth (ord (range_ x') (permute_vec 2 0 [1; 0] idx)) (data_ x') 0%Q
          = nth (ord [2; 3] idx) [1%Q; 2%Q; 3%Q; 4%Q; 5%Q; 6%Q] 0%Q)
    /\ (forall d, d < 2 ->
          nth (nth d [1; 0] 0) (size_vectors_ S') []
          = nth d [[1%Q; 1%Q]; [2%Q; 2%Q; 2%Q]] [])
    /\ perm (inverse [1; 0]) S'
       = Ok (mkShape (Some (mkTensor [2; 3] [1%Q; 2%Q; 3%Q; 4%Q; 5%Q; 6%Q]))
                     [[1%Q; 1%Q]; [2%Q; 2%Q; 2%Q]]).
Proof.
  refine (perm_then_inverse
            (mkShape (Some (mkTensor [2; 3] [1%Q; 2%Q; 3%Q; 4%Q; 5%Q; 6%Q]))
                     [[1%Q; 1%Q]; [2%Q; 2%Q; 2%Q]])
            [1; 0] (mkTensor [2; 3] [1%Q; 2%Q; 3%Q; 4%Q; 5%Q; 6%Q])
            eq_refl _ _).
  - split; reflexivity.
  - apply perm_swap.
Defined.

(** The permuted shape of this example, computed. *)
Example perm_2x3 :
  perm [1; 0]
       (mkShape (Some (mkTensor [2; 3] [1%Q; 2%Q; 3%Q; 4%Q; 5%Q; 6%Q]))
                [[1%Q; 1%Q]; [2%Q; 2%Q; 2%Q]])
  = Ok (mkShape (Some (mkTensor [3; 2] [1%Q; 4%Q; 2%Q; 5%Q; 3%Q; 6%Q]))
                [[2%Q; 2%Q; 2%Q]; [1%Q; 1%Q]]).
Proof. reflexivity. Qed.

(** ** [recursive_outer_product] returns *)

Lemma middle_bounds (dim : nat) :
  2 <= dim ->
  1 <= Nat.shiftr dim 1 + Nat.land dim 1 < dim.
Proof.
  intros Hd.
  assert (Nat.shiftr dim 1 = dim / 2) as -> by exact (Nat.shiftr_div_pow2 dim 1).
  assert (Nat.land dim 1 = dim mod 2) as -> by exact (Nat.land_ones dim 1).
  pose proof (Nat.div_mod_eq dim 2). pose proof (Nat.mod_upper_bound dim 2).
  lia.
Qed.

(** For [dim >= 1] the recursion comes to an end within [dim] levels: the
    fuel that the operations pass is enough. *)
Lemma recursive_outer_product_returns (dim fuel : nat)
    (size_vectors : list vector_type) (op : vector_type -> vector_type) :
  1 <= dim -> dim <= fuel ->
  exists v, recursive_outer_product fuel size_vectors dim op = Some v.
Proof.
  revert fuel size_vectors.
  induction dim as [dim IH] using lt_wf_ind. intros fuel size_vectors Hd Hf.
  destruct fuel as [|fuel]; [lia|].
  cbn [recursive_outer_product].
  destruct (Nat.eqb_spec dim 1) as [->|Hne]; [eexists; reflexivity|].
  pose proof (middle_bounds dim ltac:(lia)) as Hm.
  set (middle := Nat.shiftr dim 1 + Nat.land dim 1) in *.
  destruct (IH middle ltac:(lia) fuel size_vectors ltac:(lia) ltac:(lia)) as [l ->].
  destruct (IH (dim - middle) ltac:(lia) fuel (drop middle size_vectors)
               ltac:(lia) ltac:(lia)) as [r ->].
  eexists; reflexivity.
Qed.

(** ** The hard-zero invariant and [mult] in one dimension *)

(** Where the operations compare with the threshold, the invariant holds
    of what they return: [scale], the scaled [add] and [gemm] do so for
    every entry, and [perm] only moves entries. *)
Lemma hard_zero_below (threshold v : value_type) :
  ltb (hard_zero threshold v) threshold = true -> Qeq (hard_zero threshold v) 0.
Proof.
  unfold hard_zero. destruct (ltb v threshold) eqn:E; intros H;
    [reflexivity | congruence].
Qed.

Lemma scale_hard_zeroed (g : Statics) (factor : value_type) (S R : SparseShape_) :
  scale g factor S = Ok R -> hard_zeroed g R.
Proof.
  unfold scale, hard_zeroed. destruct (tile_norms_ S) as [x|]; simpl; [|discriminate].
  intros H. inversion H; subst; clear H. simpl.
  apply Forall_fmap, Forall_forall. intros v _. exact (hard_zero_below _ _).
Qed.

Lemma add_scaled_hard_zeroed (g : Statics) (factor : value_type)
    (S other R : SparseShape_) :
  add_scaled g factor S other = Ok R -> hard_zeroed g R.
Proof.
  unfold add_scaled, hard_zeroed, tensor_binary.
  destruct (tile_norms_ S) as [x|]; simpl; [|discriminate].
  destruct (tile_norms_ other) as [y|]; simpl; [|discriminate].
  destruct (bool_decide (range_ x = range_ y)); simpl; [|discriminate].
  intros H. inversion H; subst; clear H. simpl.
  generalize (data_ y). induction (data_ x) as [|a l IH]; intros [|b k]; simpl;
    try constructor; [exact (hard_zero_below _ _) | apply IH].
Qed.

Lemma gemm_hard_zeroed (g : Statics) (factor : value_type) (h : GemmHelper)
    (S other R : SparseShape_) :
  gemm g factor h S other = Ok R -> hard_zeroed g R.
Proof.
  unfold gemm, hard_zeroed.
  destruct (tile_norms_ S) as [x|]; simpl; [|discriminate].
  destruct (tile_norms_ other) as [y|]; simpl; [|discriminate].
  match goal with
  | |- context [mbind _ ?c] => destruct c as [[t|]|e]; simpl; try discriminate
  end.
  intros H. inversion H; subst; clear H. simpl.
  apply Forall_fmap, Forall_forall. intros v _. exact (hard_zero_below _ _).
Qed.

Lemma perm_hard_zeroed (g : Statics) (p : Permutation_) (S R : SparseShape_) :
  hard_zeroed g S -> perm p S = Ok R -> hard_zeroed g R.
Proof.
  unfold perm, perm_size_vectors, tensor_permute, hard_zeroed.
  destruct (tile_norms_ S) as [x|]; simpl; [|discriminate].
  intros HS H. inversion H; subst; clear H. simpl.
  apply Forall_fmap, Forall_forall. intros k _. simpl.
  destruct (nth_in_or_default
              (ord (range_ x)
                   (unpermute_index p
                      (unord (permute_vec (dim (range_ x)) 0 p (range_ x)) k)))
              (data_ x) 0%Q) as [Hin | ->].
  - rewrite List.Forall_forall in HS. apply HS. exact Hin.
  - intros _. reflexivity.
Qed.

(** C2.  The hard-zero invariant is lost by [mult] on shapes of one
    dimension.  Threshold 1/10; the shape built by the constructor from
    the single norm 1/5 over one tile of one element satisfies the
    invariant.  Its product with itself has the norm 1/25:
    [scale_by_size] in one dimension multiplies by the tile size and does
    not compare with the threshold, as its branch for more dimensions
    does.  So [is_zero(0)] holds of the product while the stored norm is
    not zero. *)
Theorem mult_1d_keeps_norm_below_threshold :
  exists A R : SparseShape_,
    make_shape (mkStatics (1 # 10)%Q) (Some (mkTensor [1] [(1 # 5)%Q])) [[(0, 1)]] = Ok A
    /\ hard_zeroed (mkStatics (1 # 10)%Q) A
    /\ mult (mkStatics (1 # 10)%Q) A A = Ok R
    /\ is_zero (mkStatics (1 # 10)%Q) R 0 = Ok true
    /\ at_ R 0 = Ok (1 # 25)%Q
    /\ ~ hard_zeroed (mkStatics (1 # 10)%Q) R.
Proof.
  eexists. eexists. split; [reflexivity|]. split.
  { constructor; [|constructor]. intros Hlt. vm_compute in Hlt. discriminate. }
  split; [reflexivity|]. split; [reflexivity|]. split; [reflexivity|].
  intros Hz. unfold hard_zeroed in Hz. simpl in Hz.
  inversion Hz as [|v l Hv _]; subst.
  specialize (Hv eq_refl). vm_compute in Hv. discriminate.
Qed.

(** In two dimensions the same product is set to zero. *)
Example mult_2d_hard_zeroes :
  exists A R : SparseShape_,
    make_shape (mkStatics (1 # 10)%Q) (Some (mkTensor [1; 1] [(1 # 5)%Q]))
               [[(0, 1)]; [(0, 1)]] = Ok A
    /\ mult (mkStatics (1 # 10)%Q) A A = Ok R
    /\ at_ R 0 = Ok 0%Q.
Proof. eexists. eexists. repeat split; reflexivity. Qed.

End SparseShapeFacts.

(* ===================================================================== *)
(** * Part V: more properties of [SparseShape]                           *)
(* ===================================================================== *)

Module SparseShapeMoreFacts.
Import SparseShape SparseShapeMore SparseShapeFacts.

Lemma hz_hard_zero (threshold v : value_type) : hz threshold (hard_zero threshold v).
Proof. exact (hard_zero_below threshold v). Qed.

Lemma hz_zero (threshold : value_type) : hz threshold 0%Q.
Proof. intros _. reflexivity. Qed.

Lemma Forall_hz_map {X : Type} (threshold : value_type) (f : X -> value_type)
    (l : list X) :
  Forall (hz threshold) (map (fun x => hard_zero threshold (f x)) l).
Proof. apply Forall_fmap, Forall_forall. intros v _. apply hz_hard_zero. Qed.

Lemma Forall_hz_zip_with {X Y : Type} (threshold : value_type)
    (f : X -> Y -> value_type) (l : list X) (k : list Y) :
  Forall (hz threshold) (zip_with (fun x y => hard_zero threshold (f x y)) l k).
Proof.
  revert k. induction l as [|a l IH]; intros [|b k]; simpl; constructor;
    [apply hz_hard_zero | apply IH].
Qed.

Lemma tensor_permute_hz (threshold : value_type) (p : Permutation_) (x x' : TensorImpl) :
  Forall (hz threshold) (data_ x) ->
  tensor_permute p (Some x) = Ok (Some x') ->
  Forall (hz threshold) (data_ x').
Proof.
  unfold tensor_permute. simpl. intros Hx H. inversion H; subst; clear H. simpl.
  apply Forall_fmap, Forall_forall. intros k _. simpl.
  match goal with
  | |- hz _ (nth ?i ?l ?d) => destruct (nth_in_or_default i l d) as [Hin | ->]
  end.
  - rewrite List.Forall_forall in Hx. apply Hx. exact Hin.
  - apply hz_zero.
Qed.

Lemma tensor_permute_some (p : Permutation_) (t t' : Tensor) :
  tensor_permute p t = Ok t' -> exists x x', t = Some x /\ t' = Some x'.
Proof.
  unfold tensor_permute. destruct t as [x|]; simpl; [|discriminate].
  intros H. inversion H; subst. eauto.
Qed.

Lemma bind_ok {A B : Type} (c : result A) (k : A -> result B) (r : B) :
  mbind k c = Ok r -> exists a, c = Ok a /\ k a = Ok r.
Proof. destruct c as [a|e]; simpl; [eauto | discriminate]. Qed.

Lemma assert_ok (b : bool) (u : unit) : TA_ASSERT b = Ok u -> b = true.
Proof. destruct b; [reflexivity | discriminate]. Qed.

Lemma deref_ok (t : Tensor) (x : TensorImpl) : deref t = Ok x -> t = Some x.
Proof. destruct t; simpl; congruence. Qed.

Lemma returned_ok {T : Type} (c : option T) (v : T) : returned c = Ok v -> c = Some v.
Proof. destruct c; simpl; congruence. Qed.

Ltac inv_ok :=
  repeat match goal with
  | H : mbind _ _ = Ok _ |- _ =>
      apply bind_ok in H; destruct H as (? & ? & H)
  | H : TA_ASSERT _ = Ok _ |- _ => apply assert_ok in H
  | H : deref _ = Ok _ |- _ => apply deref_ok in H
  | H : returned _ = Ok _ |- _ => apply returned_ok in H
  | H : Ok _ = Ok _ |- _ => inversion H; clear H; subst
  | H : Raise _ = Ok _ |- _ => discriminate H
  end.

Lemma tensor_unary_ok (op : value_type -> value_type) (t t' : Tensor) :
  tensor_unary op t = Ok t' ->
  exists x, t = Some x /\ t' = Some (mkTensor (range_ x) (map op (data_ x))).
Proof. unfold tensor_unary. intros H. inv_ok. eauto. Qed.

Lemma tensor_binary_ok (op : value_type -> value_type -> value_type)
    (t other t' : Tensor) :
  tensor_binary op t other = Ok t' ->
  exists x y, t = Some x /\ other = Some y /\ range_ x = range_ y
    /\ t' = Some (mkTensor (range_ x) (zip_with op (data_ x) (data_ y))).
Proof.
  unfold tensor_binary. intros H. inv_ok.
  match goal with Hb : bool_decide _ = true |- _ => apply bool_decide_eq_true in Hb end.
  eauto 10.
Qed.

Lemma tensor_permute_keeps (threshold : value_type) (p : Permutation_)
    (x : TensorImpl) (t' : Tensor) :
  Forall (hz threshold) (data_ x) ->
  tensor_permute p (Some x) = Ok t' ->
  exists x', t' = Some x' /\ Forall (hz threshold) (data_ x').
Proof.
  intros Hx Hp. destruct (tensor_permute_some _ _ _ Hp) as (u & x' & _ & ->).
  exists x'. split; [reflexivity|]. eapply tensor_permute_hz; eassumption.
Qed.

(** X9.  What [scale] returns, with or without a permutation, satisfies
    the hard-zero invariant: every norm it stores below the threshold is
    stored as zero, whatever the shape it is applied to. *)
Theorem scale_thresholds (g : Statics) (factor : value_type) (p : Permutation_)
    (S R : SparseShape_) :
  scale g factor S = Ok R \/ scale_perm g factor p S = Ok R ->
  hard_zeroed g R.
Proof.
  intros [H|H].
  - exact (scale_hard_zeroed g factor S R H).
  - unfold scale_perm, tensor_unary_perm in H. inv_ok.
    match goal with
    | Hu : tensor_unary _ _ = Ok _ |- _ =>
        apply tensor_unary_ok in Hu; destruct Hu as (u & _ & ->)
    end.
    match goal with
    | Hp : tensor_permute _ _ = Ok _ |- _ =>
        apply (tensor_permute_keeps (threshold_ g)) in Hp;
          [destruct Hp as (u' & -> & Hx') | ]
    end.
    + exact Hx'.
    + apply (Forall_hz_map (threshold_ g) (fun value => (value * Qabs factor)%Q)).
Qed.

(** X10.  What the scaled [add] and the [add] of a constant return, with
    or without a permutation, satisfies the hard-zero invariant, whatever
    the shapes they are applied to and whatever [std::sqrt] is. *)
Theorem scaled_add_thresholds (sqrt : value_type -> value_type) (g : Statics)
    (factor value : value_type) (p : Permutation_) (S other R : SparseShape_) :
  add_scaled g factor S other = Ok R
  \/ add_scaled_perm g factor p S other = Ok R
  \/ add_value sqrt g value S = Ok R
  \/ add_value_perm sqrt g value p S = Ok R ->
  hard_zeroed g R.
Proof.
  assert (forall R', add_value sqrt g value S = Ok R' -> hard_zeroed g R') as Hval.
  { intros R' H. unfold add_value in H. inv_ok.
    match goal with E : tile_norms_ S = Some ?x |- _ => rename x into u end.
    destruct (dim (range_ u) =? 1); inv_ok; unfold hard_zeroed; simpl.
    - unfold vector_op. apply Forall_hz_zip_with.
    - unfold outer_fill_from.
      apply (Forall_hz_zip_with (threshold_ g)
               (fun norm lr => (norm + Qabs value * fst lr * snd lr)%Q)). }
  intros [H|[H|[H|H]]].
  - exact (add_scaled_hard_zeroed g factor S other R H).
  - unfold add_scaled_perm, tensor_binary_perm in H. inv_ok.
    match goal with
    | Hb : tensor_binary _ _ _ = Ok _ |- _ =>
        apply tensor_binary_ok in Hb; destruct Hb as (u & v & _ & _ & _ & ->)
    end.
    match goal with
    | Hp : tensor_permute _ _ = Ok _ |- _ =>
        apply (tensor_permute_keeps (threshold_ g)) in Hp;
          [destruct Hp as (u' & -> & Hx') | ]
    end.
    + exact Hx'.
    + apply (Forall_hz_zip_with (threshold_ g)
               (fun left right => ((left + right) * Qabs factor)%Q)).
  - exact (Hval R H).
  - unfold add_value_perm in H. inv_ok.
    match goal with
    | Hp : perm p ?R' = Ok R |- _ => apply (perm_hard_zeroed g p R' R); [|exact Hp]
    end.
    apply Hval. assumption.
Qed.

(** X11.  What [gemm] returns, with or without a permutation, satisfies
    the hard-zero invariant, for contracted and for outer products. *)
Theorem gemm_thresholds (g : Statics) (factor : value_type) (h : GemmHelper)
    (p : Permutation_) (S other R : SparseShape_) :
  gemm g factor h S other = Ok R \/ gemm_perm g factor h p S other = Ok R ->
  hard_zeroed g R.
Proof.
  intros [H|H].
  - exact (gemm_hard_zeroed g factor h S other R H).
  - unfold gemm_perm in H. inv_ok.
    match goal with
    | Hp : perm p ?R' = Ok R |- _ => apply (perm_hard_zeroed g p R' R); [|exact Hp]
    end.
    eapply gemm_hard_zeroed. eassumption.
Qed.

Lemma Qabs_opp_eq (q : Q) : Qabs (- q)%Q = Qabs q.
Proof. destruct q as [n d]. simpl. f_equal. apply Z.abs_opp. Qed.

(** X12.  The operations that take a scaling factor use its absolute
    value only: negating the factor (or the constant of [add(value)])
    changes nothing in what [scale], the scaled [add], the scaled [mult]
    and [gemm] return. *)
Theorem sign_of_the_factor (sqrt : value_type -> value_type) (g : Statics)
    (factor : value_type) (h : GemmHelper) (p : Permutation_)
    (S other : SparseShape_) :
  scale g (- factor)%Q S = scale g factor S
  /\ scale_perm g (- factor)%Q p S = scale_perm g factor p S
  /\ add_scaled g (- factor)%Q S other = add_scaled g factor S other
  /\ add_scaled_perm g (- factor)%Q p S other = add_scaled_perm g factor p S other
  /\ add_value sqrt g (- factor)%Q S = add_value sqrt g factor S
  /\ mult_scaled g (- factor)%Q S other = mult_scaled g factor S other
  /\ mult_scaled_perm g (- factor)%Q p S other = mult_scaled_perm g factor p S other
  /\ gemm g (- factor)%Q h S other = gemm g factor h S other.
Proof.
  unfold scale, scale_perm, add_scaled, add_scaled_perm, add_value, mult_scaled,
    mult_scaled_perm, gemm.
  rewrite Qabs_opp_eq. repeat split; reflexivity.
Qed.

Lemma ltb_lt (x y : value_type) : ltb x y = true <-> (x < y)%Q.
Proof.
  unfold ltb. rewrite Qlt_alt. destruct (x ?= y)%Q; split; congruence.
Qed.

Lemma ltb_ge (x y : value_type) : ltb x y = false <-> (y <= x)%Q.
Proof.
  split; intros H.
  - apply Qnot_lt_le. intros Hlt. apply ltb_lt in Hlt. congruence.
  - destruct (ltb x y) eqn:E; [|reflexivity].
    apply ltb_lt in E. exfalso. exact (Qlt_not_le _ _ E H).
Qed.

(** X13.  On a shape that satisfies the hard-zero invariant, under a
    positive threshold, [is_zero(i)] holds exactly of the tiles whose
    stored norm is zero. *)
Theorem is_zero_iff_stored_zero (g : Statics) (S : SparseShape_) (i : nat)
    (v : value_type) :
  (0 < threshold_ g)%Q -> hard_zeroed g S -> at_ S i = Ok v ->
  exists b, is_zero g S i = Ok b /\ (b = true <-> Qeq v 0).
Proof.
  intros Hpos Hz Hat. unfold at_ in Hat. unfold is_zero.
  destruct (TA_ASSERT (negb (tensor_empty (tile_norms_ S)))) as [[]|e]; simpl in *;
    [|discriminate].
  rewrite Hat. simpl. eexists. split; [reflexivity|]. split.
  - intros Hlt. unfold tensor_at in Hat. inv_ok. unfold hard_zeroed in Hz.
    match goal with E : tile_norms_ S = Some ?x |- _ => rewrite E in Hz end.
    match goal with
    | Hl : match ?l !! i with _ => _ end = Ok v |- _ =>
        destruct (l !! i) as [w|] eqn:El; [|discriminate];
        inversion Hl; subst; clear Hl
    end.
    rewrite Forall_lookup in Hz. exact (Hz i v El Hlt).
  - intros Hv. apply ltb_lt. rewrite Hv. exact Hpos.
Qed.

(** ** [recursive_outer_product] *)

Lemma volume_app (a b : Range) : volume (a ++ b) = volume a * volume b.
Proof. induction a as [|n a IH]; simpl; [lia | rewrite IH; lia]. Qed.

Lemma flat_map_const_length {X Y : Type} (f : X -> list Y) (l : list X) (n : nat) :
  (forall x, length (f x) = n) -> length (flat_map f l) = length l * n.
Proof.
  intros Hf. induction l as [|a l IH]; simpl; [reflexivity|].
  rewrite length_app, Hf, IH. reflexivity.
Qed.

Lemma outer_fill_length (left right : vector_type)
    (op : value_type -> value_type -> value_type) :
  length (outer_fill (length left) (length right) left right op)
  = length left * length right.
Proof.
  unfold outer_fill. rewrite !firstn_all.
  apply flat_map_const_length. intros x. apply length_map.
Qed.

(** X22.  [recursive_outer_product] with [dim == 0] does not return: the
    call recurses with [dim == 0] again, so no depth of recursion gives a
    result. *)
Theorem recursive_outer_product_zero_never_returns (fuel : nat) (size_vectors : list vector_type)
    (op : vector_type -> vector_type) :
  recursive_outer_product fuel size_vectors 0 op = None.
Proof.
  revert size_vectors. induction fuel as [|fuel IH]; intros size_vectors;
    [reflexivity|].
  cbn [recursive_outer_product]. change (0 =? 1) with false. cbv beta iota zeta.
  change (Nat.shiftr 0 1 + Nat.land 0 1) with 0. rewrite (IH size_vectors). reflexivity.
Qed.

Lemma rop_result (dim : nat) (size_vectors : list vector_type)
    (op : vector_type -> vector_type) :
  1 <= dim ->
  exists v,
    (forall fuel, dim <= fuel ->
       recursive_outer_product fuel size_vectors dim op = Some v)
    /\ (dim <= length size_vectors -> (forall x, length (op x) = length x) ->
        length v = volume (map length (take dim size_vectors))).
Proof.
  revert size_vectors.
  induction dim as [dim IH] using lt_wf_ind. intros size_vectors Hd.
  destruct (Nat.eqb_spec dim 1) as [->|Hne].
  - exists (op (nth 0 size_vectors [])). split.
    + intros [|fuel] Hf; [lia | reflexivity].
    + intros Hl Hop. destruct size_vectors as [|a sv]; simpl in *; [lia|].
      rewrite Hop. simpl. lia.
  - pose proof (middle_bounds dim ltac:(lia)) as Hm.
    destruct (IH (Nat.shiftr dim 1 + Nat.land dim 1) ltac:(lia) size_vectors
                 ltac:(lia)) as (l & Hl & Hll).
    destruct (IH (dim - (Nat.shiftr dim 1 + Nat.land dim 1)) ltac:(lia)
                 (drop (Nat.shiftr dim 1 + Nat.land dim 1) size_vectors)
                 ltac:(lia)) as (r & Hr & Hrl).
    exists (outer_fill (length l) (length r) l r Qmult). split.
    + intros [|fuel] Hf; [lia|]. cbn [recursive_outer_product].
      destruct (Nat.eqb_spec dim 1) as [|_]; [contradiction|].
      rewrite (Hl fuel ltac:(lia)), (Hr fuel ltac:(lia)). reflexivity.
    + intros Hlen Hop. rewrite outer_fill_length.
      rewrite Hll by (auto; lia).
      rewrite Hrl by (auto; rewrite length_drop; lia).
      rewrite <- volume_app, <- map_app, take_take_drop.
      do 3 f_equal. lia.
Qed.

(** ** The constructor *)

Lemma forallb_not_negative (l : list value_type) :
  forallb (fun norm => negb (ltb norm 0%Q)) l = true <-> Forall not_negative l.
Proof.
  unfold not_negative. induction l as [|a l IH]; simpl.
  - split; [constructor | reflexivity].
  - rewrite andb_true_iff, IH, negb_true_iff. split.
    + intros [Ha Hl]. constructor; assumption.
    + intros H. inversion H; subst. split; assumption.
Qed.

Lemma pairs_length (left right : vector_type) :
  length (flat_map (fun l => map (pair l) right) left) = length left * length right.
Proof. apply flat_map_const_length. intros x. apply length_map. Qed.

Lemma outer_all (left right a : vector_type)
    (op : value_type -> value_type -> value_type -> value_type) :
  length a <= length left * length right ->
  outer (length left) (length right) left right a op
  = zip_with (fun x lr => op x (fst lr) (snd lr)) a
             (flat_map (fun l => map (pair l) right) left).
Proof.
  intros Ha. unfold outer. rewrite !firstn_all.
  rewrite take_ge by lia. rewrite drop_ge by lia. apply app_nil_r.
Qed.

Lemma vector_op_inplace_all (arg a : vector_type)
    (op : value_type -> value_type -> value_type) :
  length a <= length arg ->
  vector_op_inplace (length arg) arg a op = zip_with op a arg.
Proof.
  intros Ha. unfold vector_op_inplace. rewrite firstn_all.
  rewrite take_ge by lia. rewrite drop_ge by lia. apply app_nil_r.
Qed.

Lemma sized_1d (S : SparseShape_) (x : TensorImpl) :
  tile_norms_ S = Some x -> sized S -> dim (range_ x) = 1 ->
  length (nth 0 (size_vectors_ S) []) = length (data_ x).
Proof.
  unfold sized, dim. intros -> [Hd Hs] H1. rewrite Hd, <- Hs.
  rewrite <- Hs, length_map in H1.
  destruct (size_vectors_ S) as [|a [|b l]]; simpl in *; lia.
Qed.

Lemma sized_volume (S : SparseShape_) (x : TensorImpl) :
  tile_norms_ S = Some x -> sized S ->
  length (size_vectors_ S) = dim (range_ x)
  /\ volume (map length (take (dim (range_ x)) (size_vectors_ S))) = length (data_ x).
Proof.
  unfold sized, dim. intros -> [Hd Hs].
  assert (length (size_vectors_ S) = length (range_ x)) as Hl
    by (rewrite <- Hs, length_map; reflexivity).
  split; [exact Hl|]. rewrite <- Hl, firstn_all, Hs, Hd. reflexivity.
Qed.

(** What [normalize] does with a shape whose sizes are right. *)
Lemma normalize_ok (g : Statics) (S : SparseShape_) (x : TensorImpl) :
  tile_norms_ S = Some x -> sized S ->
  1 <= dim (range_ x) -> Forall not_negative (data_ x) ->
  exists x',
    normalize g S = Ok (mkShape (Some x') (size_vectors_ S))
    /\ range_ x' = range_ x /\ length (data_ x') = length (data_ x)
    /\ Forall (hz (threshold_ g)) (data_ x').
Proof.
  intros E Hs Hd Hn. unfold normalize. rewrite E. cbn [deref mbind result_bind].
  destruct (sized_volume S x E Hs) as [Hlen Hvol].
  destruct (Nat.eqb_spec (dim (range_ x)) 1) as [H1|Hne].
  - pose proof (sized_1d S x E Hs H1) as Hl0.
    rewrite Hl0, firstn_all.
    rewrite (proj2 (forallb_not_negative _) Hn). cbn [TA_ASSERT mbind result_bind].
    eexists. split; [reflexivity|]. simpl.
    rewrite <- Hl0, vector_op_inplace_all by lia.
    split; [reflexivity|]. split.
    + rewrite length_zip_with. lia.
    + apply Forall_hz_zip_with.
  - pose proof (middle_bounds (dim (range_ x)) ltac:(lia)) as Hm.
    set (middle := Nat.shiftr (dim (range_ x)) 1 + Nat.land (dim (range_ x)) 1) in *.
    destruct (rop_result middle (size_vectors_ S) (map (fun size => (1 / size)%Q))
                ltac:(lia)) as (l & Hl & Hll).
    destruct (rop_result (dim (range_ x) - middle) (drop middle (size_vectors_ S))
                (map (fun size => (1 / size)%Q)) ltac:(lia)) as (r & Hr & Hrl).
    rewrite (Hl middle (le_n _)), (Hr _ (le_n _)).
    cbn [returned mbind result_bind].
    assert (length l * length r = length (data_ x)) as Hlr.
    { rewrite Hll by (try lia; intros; apply length_map).
      rewrite Hrl by (try (rewrite length_drop; lia); intros; apply length_map).
      rewrite <- volume_app, <- map_app, take_take_drop, <- Hvol.
      do 3 f_equal. lia. }
    rewrite Hlr, firstn_all.
    rewrite (proj2 (forallb_not_negative _) Hn). cbn [TA_ASSERT mbind result_bind].
    eexists. split; [reflexivity|]. simpl.
    rewrite outer_all by lia.
    split; [reflexivity|]. split.
    + rewrite length_zip_with, pairs_length. lia.
    + apply (Forall_hz_zip_with (threshold_ g)
               (fun norm lr => (norm * (fst lr * snd lr))%Q)).
Qed.

Lemma normalize_needs (g : Statics) (S R : SparseShape_) (x : TensorImpl) :
  tile_norms_ S = Some x -> sized S -> normalize g S = Ok R ->
  1 <= dim (range_ x) /\ Forall not_negative (data_ x).
Proof.
  intros E Hs. unfold normalize. rewrite E. cbn [deref mbind result_bind].
  destruct (sized_volume S x E Hs) as [Hlen Hvol].
  destruct (Nat.eqb_spec (dim (range_ x)) 1) as [H1|Hne].
  - pose proof (sized_1d S x E Hs H1) as Hl0.
    rewrite Hl0, firstn_all. intros H. inv_ok.
    split; [lia|]. apply forallb_not_negative. assumption.
  - destruct (Nat.eq_dec (dim (range_ x)) 0) as [H0|H0].
    { rewrite H0. change (Nat.shiftr 0 1 + Nat.land 0 1) with 0.
      simpl. discriminate. }
    pose proof (middle_bounds (dim (range_ x)) ltac:(lia)) as Hm.
    set (middle := Nat.shiftr (dim (range_ x)) 1 + Nat.land (dim (range_ x)) 1) in *.
    destruct (rop_result middle (size_vectors_ S) (map (fun size => (1 / size)%Q))
                ltac:(lia)) as (l & Hl & Hll).
    destruct (rop_result (dim (range_ x) - middle) (drop middle (size_vectors_ S))
                (map (fun size => (1 / size)%Q)) ltac:(lia)) as (r & Hr & Hrl).
    rewrite (Hl middle (le_n _)), (Hr _ (le_n _)).
    cbn [returned mbind result_bind].
    assert (length l * length r = length (data_ x)) as Hlr.
    { rewrite Hll by (try lia; intros; apply length_map).
      rewrite Hrl by (try (rewrite length_drop; lia); intros; apply length_map).
      rewrite <- volume_app, <- map_app, take_take_drop, <- Hvol.
      do 3 f_equal. lia. }
    rewrite Hlr, firstn_all. intros H. inv_ok.
    split; [lia|]. apply forallb_not_negative. assumption.
Qed.

Lemma initialize_size_vectors_sized (x : TensorImpl) (trange : TiledRange) :
  length (data_ x) = volume (range_ x) -> range_ x = tiles trange ->
  sized (mkShape (Some x) (initialize_size_vectors trange)).
Proof.
  intros Hd Hr. split; [exact Hd|]. simpl. rewrite Hr.
  unfold initialize_size_vectors, tiles. rewrite map_map.
  apply map_ext. intros a. apply length_map.
Qed.

Lemma make_shape_unfold (g : Statics) (x : TensorImpl) (trange : TiledRange) :
  make_shape g (Some x) trange
  = if bool_decide (range_ x = tiles trange)
    then normalize g (mkShape (Some x) (initialize_size_vectors trange))
    else Raise PreconditionViolated.
Proof. unfold make_shape. simpl. destruct (bool_decide _); reflexivity. Qed.

(** X14.  The constructor [SparseShape(tile_norms, trange)], given a
    tensor with one element per tile, returns exactly when the tensor is
    not empty, its range is the tile grid of [trange], it has at least one
    dimension and no norm is negative; otherwise it throws, or with no
    dimension does not return. *)
Theorem make_shape_returns (g : Statics) (tile_norms : Tensor) (trange : TiledRange) :
  tensor_sized tile_norms ->
  ((exists S, make_shape g tile_norms trange = Ok S)
   <-> exists x, tile_norms = Some x /\ range_ x = tiles trange
                 /\ 1 <= dim (range_ x) /\ Forall not_negative (data_ x)).
Proof.
  intros Ht. destruct tile_norms as [x|]; simpl in Ht.
  - rewrite make_shape_unfold. case_bool_decide as Hr.
    + pose proof (initialize_size_vectors_sized x trange Ht Hr) as Hs. split.
      * intros [S HS].
        destruct (normalize_needs g (mkShape (Some x) (initialize_size_vectors trange)) S x
                   eq_refl Hs HS) as [Hd Hn]. eauto.
      * intros (x0 & Hx & _ & Hd & Hn). inversion Hx; subst x0.
        destruct (normalize_ok g (mkShape (Some x) (initialize_size_vectors trange)) x
                   eq_refl Hs Hd Hn) as (x' & Hx' & _). eauto.
    + split.
      * intros [S HS]. discriminate.
      * intros (x0 & Hx & Hr' & _). inversion Hx; subst x0. contradiction.
  - split.
    + intros [S HS]. discriminate.
    + intros (x0 & Hx & _). discriminate.
Qed.

(** X15.  A shape that the constructor returns satisfies the class
    invariant on the sizes and the hard-zero invariant, has the tile grid
    of [trange] as its range and the tile sizes of [trange] as its size
    vectors. *)
Theorem make_shape_invariant (g : Statics) (tile_norms : Tensor)
    (trange : TiledRange) (S : SparseShape_) :
  tensor_sized tile_norms -> make_shape g tile_norms trange = Ok S ->
  sized S /\ hard_zeroed g S /\ validate S (tiles trange) = true
  /\ size_vectors_ S = initialize_size_vectors trange.
Proof.
  intros Ht HS. destruct tile_norms as [x|]; simpl in Ht; [|discriminate].
  rewrite make_shape_unfold in HS. case_bool_decide as Hr; [|discriminate].
  pose proof (initialize_size_vectors_sized x trange Ht Hr) as Hs.
  destruct (normalize_needs g (mkShape (Some x) (initialize_size_vectors trange)) S x
                   eq_refl Hs HS) as [Hd Hn].
  destruct (normalize_ok g (mkShape (Some x) (initialize_size_vectors trange)) x
                   eq_refl Hs Hd Hn) as (x' & Hx' & Hrx & Hlx & Hz).
  rewrite Hx' in HS. inversion HS; subst S; clear HS.
  unfold sized, hard_zeroed, validate. simpl. repeat split.
  - rewrite Hlx, Hrx. exact Ht.
  - rewrite Hrx. exact (proj2 Hs).
  - exact Hz.
  - apply bool_decide_eq_true. congruence.
Qed.

(** ** [mult] in more than one dimension *)

Lemma permute_vec_map {X Y : Type} (f : X -> Y) (n : nat) (d : X)
    (p : Permutation_) (v : list X) :
  map f (permute_vec n d p v) = permute_vec n (f d) p (map f v).
Proof.
  unfold permute_vec.
  rewrite <- (fmap_replicate f n d).
  generalize (replicate n d) as res. generalize (seq 0 n) as js.
  induction js as [|j js IH]; intros res; simpl; [reflexivity|].
  rewrite IH. f_equal. rewrite list_fmap_insert. f_equal.
  symmetry. apply map_nth.
Qed.

Lemma scale_by_size_hz (g : Statics) (x : TensorImpl) (sv : list vector_type)
    (t' : Tensor) :
  dim (range_ x) <> 1 -> length (data_ x) <= volume (range_ x) ->
  map length sv = range_ x ->
  scale_by_size g (Some x) sv = Ok t' ->
  exists x', t' = Some x' /\ Forall (hz (threshold_ g)) (data_ x').
Proof.
  intros Hne Hd Hs. unfold scale_by_size. cbn [deref mbind result_bind].
  destruct (Nat.eqb_spec (dim (range_ x)) 1) as [|_]; [contradiction|].
  destruct (Nat.eq_dec (dim (range_ x)) 0) as [H0|H0].
  { rewrite H0. change (Nat.shiftr 0 1 + Nat.land 0 1) with 0.
    simpl. discriminate. }
  assert (length sv = dim (range_ x)) as Hlen
    by (unfold dim; rewrite <- Hs, length_map; reflexivity).
  pose proof (middle_bounds (dim (range_ x)) ltac:(lia)) as Hm.
  set (middle := Nat.shiftr (dim (range_ x)) 1 + Nat.land (dim (range_ x)) 1) in *.
  destruct (rop_result middle sv (fun size_vector => size_vector)
              ltac:(lia)) as (l & Hl & Hll).
  destruct (rop_result (dim (range_ x) - middle) (drop middle sv)
              (fun size_vector => size_vector) ltac:(lia)) as (r & Hr & Hrl).
  rewrite (Hl middle (le_n _)), (Hr _ (le_n _)).
  cbn [returned mbind result_bind].
  assert (length l * length r = volume (range_ x)) as Hlr.
  { rewrite Hll by (try lia; reflexivity).
    rewrite Hrl by (try (rewrite length_drop; lia); reflexivity).
    rewrite <- volume_app, <- map_app, take_take_drop.
    transitivity (volume (map length sv)); [|rewrite Hs; reflexivity].
    do 2 f_equal. apply take_ge. unfold vector_type in *. lia. }
  intros H. inv_ok. eexists. split; [reflexivity|]. simpl.
  rewrite outer_all by lia.
  apply (Forall_hz_zip_with (threshold_ g)
           (fun norm lr => (norm * (fst lr * snd lr))%Q)).
Qed.

Lemma tensor_permute_shape (p : Permutation_) (x : TensorImpl) (t' : Tensor) :
  tensor_permute p (Some x) = Ok t' ->
  exists x', t' = Some x'
    /\ range_ x' = permute_vec (dim (range_ x)) 0 p (range_ x)
    /\ length (data_ x') = volume (range_ x').
Proof.
  unfold tensor_permute. simpl. intros H. inv_ok. eexists. split; [reflexivity|].
  simpl. split; [reflexivity|]. rewrite length_map, length_seq. reflexivity.
Qed.

(** X16.  In any number of dimensions other than one, what [mult] returns
    (plain, scaled, permuted) for a well-sized left operand satisfies the
    hard-zero invariant: [scale_by_size] compares with the threshold in
    its branch for several dimensions. *)
Theorem mult_thresholds_above_one_dimension (g : Statics) (factor : value_type)
    (p : Permutation_) (S other R : SparseShape_) (x : TensorImpl) :
  tile_norms_ S = Some x -> sized S -> dim (range_ x) <> 1 ->
  mult g S other = Ok R \/ mult_perm g p S other = Ok R
  \/ mult_scaled g factor S other = Ok R
  \/ mult_scaled_perm g factor p S other = Ok R ->
  hard_zeroed g R.
Proof.
  intros E Hs Hne H. pose proof Hs as Hs'. unfold sized in Hs'. rewrite E in Hs'.
  destruct Hs' as [Hd Hsv].
  assert (forall op t' sv R',
            tensor_binary op (tile_norms_ S) (tile_norms_ other) = Ok t' ->
            scale_by_size g t' sv = Ok R' -> sv = size_vectors_ S ->
            exists x', R' = Some x' /\ Forall (hz (threshold_ g)) (data_ x')) as Hplain.
  { intros op t' sv R' Hb Hsc ->. apply tensor_binary_ok in Hb.
    destruct Hb as (u & v & Hu & _ & _ & ->). rewrite E in Hu.
    inversion Hu; subst u; clear Hu.
    apply scale_by_size_hz in Hsc; simpl; auto.
    rewrite length_zip_with. lia. }
  assert (forall op t' sv R',
            tensor_binary_perm op p (tile_norms_ S) (tile_norms_ other) = Ok t' ->
            perm_size_vectors p S = Ok sv ->
            scale_by_size g t' sv = Ok R' ->
            exists x', R' = Some x' /\ Forall (hz (threshold_ g)) (data_ x')) as Hperm.
  { intros op t' sv R' Hb Hv Hsc. unfold tensor_binary_perm in Hb. inv_ok.
    match goal with
    | Hb' : tensor_binary _ _ _ = Ok _ |- _ =>
        apply tensor_binary_ok in Hb'; destruct Hb' as (u & v & Hu & _ & _ & ->)
    end.
    rewrite E in Hu. inversion Hu; subst u; clear Hu.
    match goal with
    | Hp : tensor_permute _ _ = Ok _ |- _ =>
        apply tensor_permute_shape in Hp; simpl in Hp;
        destruct Hp as (x' & -> & Hrx & Hlx)
    end.
    unfold perm_size_vectors in Hv. rewrite E in Hv. simpl in Hv.
    inversion Hv; subst sv; clear Hv.
    apply scale_by_size_hz in Hsc; auto.
    - rewrite Hrx. unfold dim at 1. rewrite permute_vec_length. exact Hne.
    - lia.
    - rewrite Hrx, (permute_vec_map length), Hsv. reflexivity. }
  unfold hard_zeroed.
  destruct H as [H|[H|[H|H]]];
    [unfold mult, tensor_mult in H | unfold mult_perm, tensor_mult_perm in H
    | unfold mult_scaled, tensor_mult_scaled in H
    | unfold mult_scaled_perm, tensor_mult_scaled_perm in H ];
    inv_ok; simpl.
  - match goal with
    | Hb : tensor_binary _ _ _ = Ok _, Hsc : scale_by_size _ _ _ = Ok _ |- _ =>
        destruct (Hplain _ _ _ _ Hb Hsc eq_refl) as (x' & -> & Hz); exact Hz
    end.
  - match goal with
    | Hb : tensor_binary_perm _ _ _ _ = Ok _, Hv : perm_size_vectors _ _ = Ok _,
      Hsc : scale_by_size _ _ _ = Ok _ |- _ =>
        destruct (Hperm _ _ _ _ Hb Hv Hsc) as (x' & -> & Hz); exact Hz
    end.
  - match goal with
    | Hb : tensor_binary _ _ _ = Ok _, Hsc : scale_by_size _ _ _ = Ok _ |- _ =>
        destruct (Hplain _ _ _ _ Hb Hsc eq_refl) as (x' & -> & Hz); exact Hz
    end.
  - match goal with
    | Hb : tensor_binary_perm _ _ _ _ = Ok _, Hv : perm_size_vectors _ _ = Ok _,
      Hsc : scale_by_size _ _ _ = Ok _ |- _ =>
        destruct (Hperm _ _ _ _ Hb Hv Hsc) as (x' & -> & Hz); exact Hz
    end.
Qed.

(** ** The unscaled [add] *)

Lemma tensor_permute_Forall (P : value_type -> Prop) (p : Permutation_)
    (x : TensorImpl) (t' : Tensor) :
  P 0%Q -> Forall P (data_ x) ->
  tensor_permute p (Some x) = Ok t' ->
  exists x', t' = Some x' /\ Forall P (data_ x').
Proof.
  unfold tensor_permute. simpl. intros H0 Hx H. inv_ok.
  eexists. split; [reflexivity|]. simpl.
  apply Forall_fmap, Forall_forall. intros k _. simpl.
  match goal with
  | |- P (nth ?i ?l ?d) => destruct (nth_in_or_default i l d) as [Hin | ->]
  end.
  - rewrite List.Forall_forall in Hx. apply Hx. exact Hin.
  - exact H0.
Qed.

Lemma Forall_zip_with_closed (P : value_type -> Prop)
    (op : value_type -> value_type -> value_type) (l k : list value_type) :
  (forall a b, P a -> P b -> P (op a b)) ->
  Forall P l -> Forall P k -> Forall P (zip_with op l k).
Proof.
  intros Hop Hl. revert k. induction Hl as [|a l Ha Hl IH]; intros k Hk; simpl;
    [constructor|].
  destruct Hk as [|b k Hb Hk]; constructor; auto.
Qed.

Lemma sum_keeps_zero (threshold a b : value_type) :
  hz threshold a /\ not_negative a -> hz threshold b /\ not_negative b ->
  hz threshold (a + b)%Q /\ not_negative (a + b)%Q.
Proof.
  unfold hz, not_negative. intros [Hza Ha] [Hzb Hb].
  apply ltb_ge in Ha, Hb. split.
  - intros Hlt. apply ltb_lt in Hlt.
    assert (a < threshold)%Q as Hat by lra. assert (b < threshold)%Q as Hbt by lra.
    apply ltb_lt in Hat, Hbt. specialize (Hza Hat). specialize (Hzb Hbt). lra.
  - apply ltb_ge. lra.
Qed.

(** X17.  The unscaled [add] does not compare with the threshold, and
    yet keeps the hard-zero invariant on shapes whose norms are not
    negative: the sum of two such shapes, permuted or not, satisfies the
    invariant again and has no negative norm. *)
Theorem add_keeps_hard_zeros (g : Statics) (p : Permutation_)
    (S other R : SparseShape_) :
  nonneg S -> nonneg other -> hard_zeroed g S -> hard_zeroed g other ->
  add S other = Ok R \/ add_perm p S other = Ok R ->
  hard_zeroed g R /\ nonneg R.
Proof.
  intros Hn Hn' Hz Hz' H.
  set (P := fun v => hz (threshold_ g) v /\ not_negative v).
  assert (forall x, Forall (hz (threshold_ g)) (data_ x) ->
                    Forall not_negative (data_ x) -> Forall P (data_ x)) as Hboth.
  { intros x H1 H2. rewrite Forall_forall in *. intros v Hv. split; auto. }
  assert (forall t', tensor_add (tile_norms_ S) (tile_norms_ other) = Ok t' ->
            exists u, t' = Some u /\ Forall P (data_ u)) as Hsum.
  { intros t' Hb. apply tensor_binary_ok in Hb.
    destruct Hb as (x & y & Hx & Hy & _ & ->).
    unfold nonneg, hard_zeroed in *. rewrite Hx in *. rewrite Hy in *.
    eexists. split; [reflexivity|]. simpl.
    apply Forall_zip_with_closed; auto. intros a b. apply sum_keeps_zero. }
  assert (forall u, Forall P (data_ u) ->
            hard_zeroed g (mkShape (Some u) []) /\ nonneg (mkShape (Some u) [])) as Hsplit.
  { intros u Hu. unfold hard_zeroed, nonneg. simpl.
    split; eapply Forall_impl; try exact Hu; intros v [? ?]; assumption. }
  destruct H as [H|H]; [unfold add in H | unfold add_perm, tensor_add_perm in H];
    inv_ok.
  - match goal with
    | Hb : tensor_add _ _ = Ok _ |- _ => destruct (Hsum _ Hb) as (u & -> & Hu)
    end.
    exact (Hsplit u Hu).
  - match goal with
    | Hb : tensor_binary_perm _ _ _ _ = Ok _ |- _ =>
        unfold tensor_binary_perm in Hb; inv_ok
    end.
    match goal with
    | Hb : tensor_binary Qplus _ _ = Ok _ |- _ =>
        destruct (Hsum _ Hb) as (u & -> & Hu)
    end.
    match goal with
    | Hp : tensor_permute _ _ = Ok _ |- _ =>
        apply (tensor_permute_Forall P) in Hp; auto;
        [destruct Hp as (u' & -> & Hu') |]
    end.
    + exact (Hsplit u' Hu').
    + split; [apply hz_zero | reflexivity].
Qed.

(** ** The sizes are kept *)

Lemma halves (sv : list vector_type) (r : Range) (op : vector_type -> vector_type) :
  map length sv = r -> dim r <> 0 -> dim r <> 1 ->
  (forall x, length (op x) = length x) ->
  exists left right,
    recursive_outer_product (Nat.shiftr (dim r) 1 + Nat.land (dim r) 1) sv
      (Nat.shiftr (dim r) 1 + Nat.land (dim r) 1) op = Some left
    /\ recursive_outer_product (dim r - (Nat.shiftr (dim r) 1 + Nat.land (dim r) 1))
         (drop (Nat.shiftr (dim r) 1 + Nat.land (dim r) 1) sv)
         (dim r - (Nat.shiftr (dim r) 1 + Nat.land (dim r) 1)) op = Some right
    /\ length left * length right = volume r.
Proof.
  intros Hs H0 H1 Hop.
  assert (length sv = dim r) as Hlen
    by (unfold dim; rewrite <- Hs, length_map; reflexivity).
  pose proof (middle_bounds (dim r) ltac:(lia)) as Hm.
  set (middle := Nat.shiftr (dim r) 1 + Nat.land (dim r) 1) in *.
  destruct (rop_result middle sv op ltac:(lia)) as (l & Hl & Hll).
  destruct (rop_result (dim r - middle) (drop middle sv) op ltac:(lia))
    as (rr & Hr & Hrl).
  exists l, rr. split; [apply Hl; lia|]. split; [apply Hr; lia|].
  rewrite Hll by (try lia; exact Hop).
  rewrite Hrl by (try (rewrite length_drop; lia); exact Hop).
  rewrite <- volume_app, <- map_app, take_take_drop.
  transitivity (volume (map length sv)); [|rewrite Hs; reflexivity].
  do 2 f_equal. apply take_ge. unfold vector_type in *. lia.
Qed.

Lemma scale_by_size_shape (g : Statics) (x : TensorImpl) (sv : list vector_type)
    (t' : Tensor) :
  length (data_ x) = volume (range_ x) -> map length sv = range_ x ->
  scale_by_size g (Some x) sv = Ok t' ->
  exists x', t' = Some x' /\ range_ x' = range_ x
             /\ length (data_ x') = length (data_ x).
Proof.
  intros Hd Hs. unfold scale_by_size. cbn [deref mbind result_bind].
  destruct (Nat.eqb_spec (dim (range_ x)) 1) as [H1|H1].
  - intros H. inv_ok. eexists. split; [reflexivity|]. split; [reflexivity|]. simpl.
    assert (length (nth 0 sv []) = length (data_ x)) as Hl0.
    { rewrite Hd, <- Hs. unfold dim in H1. rewrite <- Hs, length_map in H1.
      destruct sv as [|a [|b l]]; simpl in *; lia. }
    rewrite <- Hl0 at 1. rewrite vector_op_inplace_all by lia.
    rewrite length_zip_with. lia.
  - destruct (Nat.eq_dec (dim (range_ x)) 0) as [H0|H0].
    { rewrite H0. change (Nat.shiftr 0 1 + Nat.land 0 1) with 0.
      simpl. discriminate. }
    destruct (halves sv (range_ x) (fun size_vector => size_vector) Hs H0 H1
                ltac:(reflexivity)) as (l & r & -> & -> & Hlr).
    cbn [returned mbind result_bind]. intros H. inv_ok.
    eexists. split; [reflexivity|]. split; [reflexivity|]. simpl.
    rewrite outer_all by lia. rewrite length_zip_with, pairs_length. lia.
Qed.

Lemma sized_intro (x : TensorImpl) (sv : list vector_type) :
  length (data_ x) = volume (range_ x) -> map length sv = range_ x ->
  sized (mkShape (Some x) sv).
Proof. intros Hd Hs. split; assumption. Qed.

(** X18.  [scale], [add], the scaled [add], [mult] and the scaled [mult]
    keep the class invariant on the sizes: applied to well-sized shapes
    they return a well-sized shape over the range of the left operand,
    with the size vectors of the left operand. *)
Theorem elementwise_operations_keep_sizes (g : Statics) (factor : value_type)
    (S other R : SparseShape_) (x : TensorImpl) :
  tile_norms_ S = Some x -> sized S -> sized other ->
  scale g factor S = Ok R \/ add S other = Ok R
  \/ add_scaled g factor S other = Ok R
  \/ mult g S other = Ok R \/ mult_scaled g factor S other = Ok R ->
  sized R /\ validate R (range_ x) = true /\ size_vectors_ R = size_vectors_ S.
Proof.
  intros E Hs Ho H. pose proof Hs as Hs'. unfold sized in Hs'. rewrite E in Hs'.
  destruct Hs' as [Hd Hsv].
  assert (forall op t',
            tensor_binary op (tile_norms_ S) (tile_norms_ other) = Ok t' ->
            exists u, t' = Some u /\ range_ u = range_ x
                      /\ length (data_ u) = volume (range_ u)) as Hbin.
  { intros op t' Hb. apply tensor_binary_ok in Hb.
    destruct Hb as (u & v & Hu & Hv & Hr & ->). rewrite E in Hu.
    inversion Hu; subst u; clear Hu.
    unfold sized in Ho. rewrite Hv in Ho. destruct Ho as [Hdv _].
    eexists. split; [reflexivity|]. simpl. split; [reflexivity|].
    rewrite length_zip_with. rewrite Hdv, <- Hr. lia. }
  assert (forall u, range_ u = range_ x -> length (data_ u) = volume (range_ u) ->
            sized (mkShape (Some u) (size_vectors_ S))
            /\ validate (mkShape (Some u) (size_vectors_ S)) (range_ x) = true
            /\ size_vectors_ S = size_vectors_ S) as Hfin.
  { intros u Hr Hl. split; [apply sized_intro; congruence|].
    split; [|reflexivity]. unfold validate. simpl.
    apply bool_decide_eq_true. congruence. }
  assert (forall t t', (exists u, t = Some u /\ range_ u = range_ x
                                  /\ length (data_ u) = volume (range_ u)) ->
            scale_by_size g t (size_vectors_ S) = Ok t' ->
            exists u, t' = Some u /\ range_ u = range_ x
                      /\ length (data_ u) = volume (range_ u)) as Hsc.
  { intros t t' (u & -> & Hr & Hl) Ht.
    apply scale_by_size_shape in Ht; [| exact Hl | congruence].
    destruct Ht as (u' & -> & Hr' & Hl'). exists u'.
    split; [reflexivity|]. split; congruence. }
  destruct H as [H|[H|[H|[H|H]]]];
    [ unfold scale in H | unfold add, tensor_add in H | unfold add_scaled in H
    | unfold mult, tensor_mult in H | unfold mult_scaled, tensor_mult_scaled in H ];
    inv_ok.
  - match goal with
    | Hu : tensor_unary _ _ = Ok _ |- _ =>
        apply tensor_unary_ok in Hu; destruct Hu as (u & Hsome & ->)
    end.
    rewrite E in Hsome. inversion Hsome; subst u; clear Hsome.
    apply Hfin; simpl; [reflexivity|]. rewrite length_map. exact Hd.
  - match goal with
    | Hb : tensor_binary _ _ _ = Ok _ |- _ =>
        destruct (Hbin _ _ Hb) as (u & -> & Hr & Hl)
    end.
    apply Hfin; assumption.
  - match goal with
    | Hb : tensor_binary _ _ _ = Ok _ |- _ =>
        destruct (Hbin _ _ Hb) as (u & -> & Hr & Hl)
    end.
    apply Hfin; assumption.
  - match goal with
    | Hb : tensor_binary _ _ _ = Ok _, Ht : scale_by_size _ _ _ = Ok _ |- _ =>
        destruct (Hsc _ _ (Hbin _ _ Hb) Ht) as (u & -> & Hr & Hl)
    end.
    apply Hfin; assumption.
  - match goal with
    | Hb : tensor_binary _ _ _ = Ok _, Ht : scale_by_size _ _ _ = Ok _ |- _ =>
        destruct (Hsc _ _ (Hbin _ _ Hb) Ht) as (u & -> & Hr & Hl)
    end.
    apply Hfin; assumption.
Qed.

(** X19.  [perm] and the permuting forms of [scale], [add] and [mult]
    keep the class invariant on the sizes: the shape returned is
    well-sized, its range is the permuted range and its size vectors are
    the permuted size vectors of the left operand. *)
Theorem permuting_operations_keep_sizes (g : Statics) (factor : value_type)
    (p : Permutation_) (S other R : SparseShape_) (x : TensorImpl) :
  tile_norms_ S = Some x -> sized S ->
  perm p S = Ok R \/ scale_perm g factor p S = Ok R
  \/ add_perm p S other = Ok R \/ add_scaled_perm g factor p S other = Ok R
  \/ mult_perm g p S other = Ok R \/ mult_scaled_perm g factor p S other = Ok R ->
  sized R
  /\ validate R (permute_vec (dim (range_ x)) 0 p (range_ x)) = true
  /\ size_vectors_ R = permute_vec (dim (range_ x)) [] p (size_vectors_ S).
Proof.
  intros E Hs H. pose proof Hs as Hs'. unfold sized in Hs'. rewrite E in Hs'.
  destruct Hs' as [Hd Hsv].
  set (r' := permute_vec (dim (range_ x)) 0 p (range_ x)).
  set (sv' := permute_vec (dim (range_ x)) [] p (size_vectors_ S)).
  assert (map length sv' = r') as Hsv'.
  { unfold sv', r'. rewrite (permute_vec_map length), Hsv. reflexivity. }
  assert (forall sv, perm_size_vectors p S = Ok sv -> sv = sv') as Hpsv.
  { intros sv Hv. unfold perm_size_vectors in Hv. rewrite E in Hv. simpl in Hv.
    inversion Hv. reflexivity. }
  assert (forall u t', range_ u = range_ x -> tensor_permute p (Some u) = Ok t' ->
            exists u', t' = Some u' /\ range_ u' = r'
                       /\ length (data_ u') = volume (range_ u')) as Hperm.
  { intros u t' Hr Hp. apply tensor_permute_shape in Hp.
    destruct Hp as (u' & -> & Hr' & Hl'). exists u'. split; [reflexivity|].
    split; [|exact Hl']. rewrite Hr', Hr. reflexivity. }
  assert (forall op t',
            tensor_binary_perm op p (tile_norms_ S) (tile_norms_ other) = Ok t' ->
            exists u', t' = Some u' /\ range_ u' = r'
                       /\ length (data_ u') = volume (range_ u')) as Hbin.
  { intros op t' Hb. unfold tensor_binary_perm in Hb. inv_ok.
    match goal with
    | Hb' : tensor_binary _ _ _ = Ok _ |- _ =>
        apply tensor_binary_ok in Hb'; destruct Hb' as (u & v & Hu & _ & _ & ->)
    end.
    rewrite E in Hu. inversion Hu; subst u; clear Hu.
    eapply Hperm; [|eassumption]. reflexivity. }
  assert (forall u, range_ u = r' -> length (data_ u) = volume (range_ u) ->
            sized (mkShape (Some u) sv')
            /\ validate (mkShape (Some u) sv') r' = true /\ sv' = sv') as Hfin.
  { intros u Hr Hl. split; [apply sized_intro; congruence|].
    split; [|reflexivity]. unfold validate. simpl.
    apply bool_decide_eq_true. congruence. }
  assert (forall t t', (exists u, t = Some u /\ range_ u = r'
                                  /\ length (data_ u) = volume (range_ u)) ->
            scale_by_size g t sv' = Ok t' ->
            exists u, t' = Some u /\ range_ u = r'
                      /\ length (data_ u) = volume (range_ u)) as Hsc.
  { intros t t' (u & -> & Hr & Hl) Ht.
    apply scale_by_size_shape in Ht; [| exact Hl | congruence].
    destruct Ht as (u' & -> & Hr' & Hl'). exists u'.
    split; [reflexivity|]. split; congruence. }
  destruct H as [H|[H|[H|[H|[H|H]]]]];
    [ unfold perm in H | unfold scale_perm, tensor_unary_perm in H
    | unfold add_perm, tensor_add_perm in H | unfold add_scaled_perm in H
    | unfold mult_perm, tensor_mult_perm in H
    | unfold mult_scaled_perm, tensor_mult_scaled_perm in H ];
    inv_ok;
    repeat match goal with
    | Hv : perm_size_vectors p S = Ok _ |- _ => apply Hpsv in Hv; subst
    end.
  - match goal with
    | Hp : tensor_permute _ _ = Ok _ |- _ => rewrite E in Hp
    end.
    match goal with
    | Hp : tensor_permute _ _ = Ok _ |- _ =>
        destruct (Hperm _ _ eq_refl Hp) as (u' & -> & Hr & Hl)
    end.
    apply Hfin; assumption.
  - match goal with
    | Hu : tensor_unary _ _ = Ok _ |- _ =>
        apply tensor_unary_ok in Hu; destruct Hu as (u & Hsome & ->)
    end.
    rewrite E in Hsome. inversion Hsome; subst u; clear Hsome.
    match goal with
    | Hp : tensor_permute _ _ = Ok _ |- _ =>
        apply Hperm in Hp; [destruct Hp as (u' & -> & Hr & Hl) | reflexivity]
    end.
    apply Hfin; assumption.
  - match goal with
    | Hb : tensor_binary_perm _ _ _ _ = Ok _ |- _ =>
        destruct (Hbin _ _ Hb) as (u & -> & Hr & Hl)
    end.
    apply Hfin; assumption.
  - match goal with
    | Hb : tensor_binary_perm _ _ _ _ = Ok _ |- _ =>
        destruct (Hbin _ _ Hb) as (u & -> & Hr & Hl)
    end.
    apply Hfin; assumption.
  - match goal with
    | Hb : tensor_binary_perm _ _ _ _ = Ok _, Ht : scale_by_size _ _ _ = Ok _ |- _ =>
        destruct (Hsc _ _ (Hbin _ _ Hb) Ht) as (u & -> & Hr & Hl)
    end.
    apply Hfin; assumption.
  - match goal with
    | Hb : tensor_binary_perm _ _ _ _ = Ok _, Ht : scale_by_size _ _ _ = Ok _ |- _ =>
        destruct (Hsc _ _ (Hbin _ _ Hb) Ht) as (u & -> & Hr & Hl)
    end.
    apply Hfin; assumption.
Qed.

(** ** The identity permutation *)

Lemma identity_is_permutation (n : nat) : is_permutation n (seq 0 n).
Proof. unfold is_permutation. reflexivity. Qed.

Lemma permute_vec_identity {X : Type} (n : nat) (d : X) (v : list X) :
  length v = n -> permute_vec n d (seq 0 n) v = v.
Proof.
  intros Hv. apply (nth_ext _ _ d d).
  - rewrite permute_vec_length. symmetry. exact Hv.
  - rewrite permute_vec_length. intros i Hi.
    rewrite <- (permute_vec_nth n d (seq 0 n) v i (identity_is_permutation n) Hi).
    rewrite seq_nth by exact Hi. reflexivity.
Qed.

Lemma unpermute_index_identity (idx : list nat) :
  unpermute_index (seq 0 (length idx)) idx = idx.
Proof.
  apply (nth_ext _ _ 0 0).
  - apply unpermute_index_length.
  - rewrite unpermute_index_length. intros d Hd.
    rewrite unpermute_index_nth by exact Hd.
    rewrite seq_nth by exact Hd. reflexivity.
Qed.

(** X20.  Permuting a well-sized shape with the identity permutation
    returns the shape unchanged. *)
Theorem perm_identity (S : SparseShape_) (x : TensorImpl) :
  tile_norms_ S = Some x -> sized S ->
  perm (seq 0 (dim (range_ x))) S = Ok S.
Proof.
  destruct S as [t sv]. simpl. intros -> [Hd Hs].
  assert (length sv = dim (range_ x)) as Hlen
    by (unfold dim; rewrite <- Hs, length_map; reflexivity).
  unfold perm, perm_size_vectors, tensor_permute. simpl.
  rewrite (permute_vec_identity (dim (range_ x)) 0 (range_ x) eq_refl).
  rewrite (permute_vec_identity (dim (range_ x)) [] sv Hlen).
  do 3 f_equal. destruct x as [r data]. simpl in *. f_equal.
  apply (nth_ext _ _ 0%Q 0%Q).
  - rewrite length_map, length_seq. symmetry. exact Hd.
  - rewrite length_map, length_seq. intros k Hk.
    rewrite nth_map_seq by exact Hk.
    destruct (ord_unord r k Hk) as [Hin Hord].
    assert (length (unord r k) = dim r) as Hl
      by (apply Forall2_length in Hin; exact Hin).
    rewrite <- Hl, unpermute_index_identity, Hord. reflexivity.
Qed.

(** ** [sparsity] *)



(** ** The example shape *)

Lemma example_shape_sized : sized example_shape.
Proof. split; reflexivity. Qed.

Lemma example_shape_hard_zeroed : hard_zeroed example_statics example_shape.
Proof.
  unfold hard_zeroed. simpl.
  repeat constructor; intros H; first [reflexivity | vm_compute in H; discriminate H].
Qed.

Lemma example_shape_nonneg : nonneg example_shape.
Proof. unfold nonneg. simpl. repeat constructor. Qed.

Lemma scale_thresholds_witness :
  exists R, scale example_statics (1 # 4)%Q example_shape = Ok R
            /\ hard_zeroed example_statics R.
Proof.
  eexists. split; [reflexivity|].
  apply (scale_thresholds example_statics (1 # 4)%Q [] example_shape).
  left. reflexivity.
Defined.

Lemma scaled_add_thresholds_witness :
  exists R, add_scaled example_statics (1 # 4)%Q example_shape example_shape = Ok R
            /\ hard_zeroed example_statics R.
Proof.
  eexists. split; [reflexivity|].
  apply (scaled_add_thresholds (fun v => v) example_statics (1 # 4)%Q 0%Q []
           example_shape example_shape).
  left. reflexivity.
Defined.

Lemma gemm_thresholds_witness :
  exists R, gemm example_statics 1%Q (mkGemmHelper 2 0 1 1 2 1 2 0 1)
                 example_shape example_shape = Ok R
            /\ hard_zeroed example_statics R.
Proof.
  eexists. split; [reflexivity|].
  apply (gemm_thresholds example_statics 1%Q (mkGemmHelper 2 0 1 1 2 1 2 0 1) []
           example_shape example_shape).
  left. reflexivity.
Defined.

Lemma is_zero_iff_stored_zero_witness :
  exists b, is_zero example_statics example_shape 1 = Ok b
            /\ (b = true <-> Qeq 0%Q 0%Q).
Proof.
  apply (is_zero_iff_stored_zero example_statics example_shape 1 0%Q).
  - reflexivity.
  - exact example_shape_hard_zeroed.
  - reflexivity.
Defined.

Lemma make_shape_returns_witness :
  (exists S, make_shape example_statics (Some example_norms)
               [[(0, 1); (1, 2)]; [(0, 1); (1, 2)]] = Ok S)
  <-> exists x, Some example_norms = Some x
                /\ range_ x = tiles [[(0, 1); (1, 2)]; [(0, 1); (1, 2)]]
                /\ 1 <= dim (range_ x) /\ Forall not_negative (data_ x).
Proof.
  apply (make_shape_returns example_statics (Some example_norms)
           [[(0, 1); (1, 2)]; [(0, 1); (1, 2)]]).
  reflexivity.
Defined.

Lemma make_shape_invariant_witness :
  sized example_shape /\ hard_zeroed example_statics example_shape
  /\ validate example_shape (tiles [[(0, 1); (1, 2)]; [(0, 1); (1, 2)]]) = true
  /\ size_vectors_ example_shape
     = initialize_size_vectors [[(0, 1); (1, 2)]; [(0, 1); (1, 2)]].
Proof.
  apply (make_shape_invariant example_statics (Some example_norms)
           [[(0, 1); (1, 2)]; [(0, 1); (1, 2)]] example_shape).
  - reflexivity.
  - reflexivity.
Defined.

Lemma mult_thresholds_above_one_dimension_witness :
  exists R, mult example_statics example_shape example_shape = Ok R
            /\ hard_zeroed example_statics R.
Proof.
  eexists. split; [reflexivity|].
  apply (mult_thresholds_above_one_dimension example_statics 1%Q [] example_shape
           example_shape _ example_norms eq_refl example_shape_sized).
  - simpl. lia.
  - left. reflexivity.
Defined.

Lemma add_keeps_hard_zeros_witness :
  exists R, add example_shape example_shape = Ok R
            /\ hard_zeroed example_statics R /\ nonneg R.
Proof.
  eexists. split; [reflexivity|].
  apply (add_keeps_hard_zeros example_statics [] example_shape example_shape _
           example_shape_nonneg example_shape_nonneg
           example_shape_hard_zeroed example_shape_hard_zeroed).
  left. reflexivity.
Defined.

Lemma elementwise_operations_keep_sizes_witness :
  exists R, mult example_statics example_shape example_shape = Ok R
            /\ sized R /\ validate R [2; 2] = true
            /\ size_vectors_ R = size_vectors_ example_shape.
Proof.
  eexists. split; [reflexivity|].
  apply (elementwise_operations_keep_sizes example_statics 1%Q example_shape
           example_shape _ example_norms eq_refl
           example_shape_sized example_shape_sized).
  right. right. right. left. reflexivity.
Defined.

Lemma permuting_operations_keep_sizes_witness :
  exists R, mult_perm example_statics [1; 0] example_shape example_shape = Ok R
            /\ sized R /\ validate R (permute_vec 2 0 [1; 0] [2; 2]) = true
            /\ size_vectors_ R
               = permute_vec 2 [] [1; 0] (size_vectors_ example_shape).
Proof.
  eexists. split; [reflexivity|].
  apply (permuting_operations_keep_sizes example_statics 1%Q [1; 0] example_shape
           example_shape _ example_norms eq_refl example_shape_sized).
  right. right. right. right. left. reflexivity.
Defined.

Lemma perm_identity_witness : perm [0; 1] example_shape = Ok example_shape.
Proof. exact (perm_identity example_shape example_norms eq_refl example_shape_sized). Defined.


(** X23.  For [dim >= 1] size vectors and an operation that keeps the
    lengths, [recursive_outer_product] returns, the same vector at every
    depth of recursion from [dim] on, and that vector has as many elements
    as the tile grid of the [dim] dimensions has tiles. *)
Theorem recursive_outer_product_result (dim : nat) (size_vectors : list vector_type)
    (op : vector_type -> vector_type) :
  1 <= dim -> dim <= length size_vectors ->
  (forall x, length (op x) = length x) ->
  exists v,
    (forall fuel, dim <= fuel ->
       recursive_outer_product fuel size_vectors dim op = Some v)
    /\ length v = volume (map length (take dim size_vectors)).
Proof.
  intros Hd Hl Hop. destruct (rop_result dim size_vectors op Hd) as (v & Hv & Hlen).
  exists v. split; [exact Hv | exact (Hlen Hl Hop)].
Qed.

Lemma recursive_outer_product_result_witness :
  exists v,
    (forall fuel, 3 <= fuel ->
       recursive_outer_product fuel
         [[1%Q; 2%Q]; [3%Q]; [4%Q; 5%Q]] 3 (fun x => x) = Some v)
    /\ length v = 4.
Proof.
  apply (recursive_outer_product_result 3 [[1%Q; 2%Q]; [3%Q]; [4%Q; 5%Q]]
           (fun x => x)).
  - lia.
  - simpl. lia.
  - reflexivity.
Defined.

End SparseShapeMoreFacts.

(* ===================================================================== *)
(** * Part VI: properties of [ContractReduce]                            *)
(* ===================================================================== *)

Module ContractReduceFacts.
Import ReduceTask ReduceTaskMore ReduceTaskFacts ContractReduce.

(** X24.  The call of [ContractReduce] on two pairs does what two calls on
    one pair do, provided the first contraction leaves a tile that is not
    empty (the call on two pairs does not test [empty()] again before the
    second contraction). *)
Theorem fused_contraction (T : Tiles) (f : ContractReduce_) (result result1 : Result)
    (left1 : Left) (right1 : Right) (left2 : Left) (right2 : Right) :
  call_contract f result left1 right1 = SparseShape.Ok result1 ->
  tile_empty result1 = false ->
  call_contract2 f result left1 right1 left2 right2
  = call_contract f result1 left2 right2.
Proof.
  unfold call_contract, call_contract2, asserted.
  destruct f as [pimpl_|]; [|discriminate].
  intros H He. inversion H as [H1]. subst result1.
  unfold contract2, contract in *. rewrite He. reflexivity.
Qed.

(** X25.  A [ReducePairTask] over [ContractReduce], for tiles whose
    operations add up under a measure, delivers on every schedule a tile
    that measures the sum of what the contractions of the pairs added
    contribute. *)
Theorem contraction_reducer_delivers (T : Tiles) (pimpl_ : Impl)
    (val : Result -> Z) (w : Left -> Right -> Z) (callback : bool)
    (adds : list (Left * Right * bool)) :
  contraction_adds_up pimpl_ val w ->
  always_reaches
    (delivered (op := ReducePairOpWrapper (ContractReduceOp pimpl_)) val
       (ztotal (fun x => w (fst (fst x)) (snd (fst x))) adds))
    (init (op := ReducePairOpWrapper (ContractReduceOp pimpl_)) callback adds).
Proof.
  intros (Hempty & Hnew & Hsum & Hgemm & Hto).
  apply (additive_delivers (op := ReducePairOpWrapper (ContractReduceOp pimpl_))
           val (fun a => w (fst a) (snd a))).
  unfold additive. simpl. unfold make, reduce_results, contract, contract2.
  split; [apply Hempty, Hnew|]. split; [exact Hsum|]. split.
  - intros r a. destruct (tile_empty r) eqn:E.
    + rewrite Hgemm, (Hempty r E). lia.
    + apply Hto.
  - intros r a b. rewrite Hto. destruct (tile_empty r) eqn:E.
    + rewrite Hgemm, (Hempty r E). lia.
    + rewrite Hto. lia.
Qed.

Lemma fused_contraction_witness :
  call_contract2 (T := ScalarTiles)
    (Some (mkImpl (T := ScalarTiles) (SparseShape.mkGemmHelper 2 0 1 1 2 1 2 0 1) 2%Z []))
    None 3%Z 4%Z 5%Z 6%Z
  = call_contract (T := ScalarTiles)
      (Some (mkImpl (T := ScalarTiles) (SparseShape.mkGemmHelper 2 0 1 1 2 1 2 0 1) 2%Z []))
      (Some 24%Z) 5%Z 6%Z.
Proof.
  apply (fused_contraction ScalarTiles
           (Some (mkImpl (T := ScalarTiles)
                    (SparseShape.mkGemmHelper 2 0 1 1 2 1 2 0 1) 2%Z []))
           None (Some 24%Z) 3%Z 4%Z 5%Z 6%Z).
  - reflexivity.
  - reflexivity.
Defined.

Lemma contraction_reducer_delivers_witness :
  always_reaches
    (delivered
       (op := ReducePairOpWrapper
                (ContractReduceOp (T := ScalarTiles)
                   (mkImpl (T := ScalarTiles)
                      (SparseShape.mkGemmHelper 2 0 1 1 2 1 2 0 1) 2%Z [])))
       (fun t : option Z => default 0%Z t) 84%Z)
    (init
       (op := ReducePairOpWrapper
                (ContractReduceOp (T := ScalarTiles)
                   (mkImpl (T := ScalarTiles)
                      (SparseShape.mkGemmHelper 2 0 1 1 2 1 2 0 1) 2%Z [])))
       false [((3, 4)%Z, true); ((5, 6)%Z, false)]).
Proof.
  refine (contraction_reducer_delivers ScalarTiles
            (mkImpl (T := ScalarTiles)
               (SparseShape.mkGemmHelper 2 0 1 1 2 1 2 0 1) 2%Z [])
            (fun t : option Z => default 0%Z t) (fun l r => (2 * (l * r))%Z)
            false [((3, 4)%Z, true); ((5, 6)%Z, false)] _).
  unfold contraction_adds_up. simpl.
  split; [intros [t|] H; [discriminate | reflexivity] | repeat split].
Defined.

End ContractReduceFacts.

(* ===================================================================== *)
(** * Part VII: properties of [DimensionOrder]                           *)
(* ===================================================================== *)

Module CoordinateSystemFacts.
Import CoordinateSystem.

#[local] Instance in_order_trans : Transitive in_order.
Proof.
  intros a b c. unfold in_order, less_order_. rewrite !Nat.ltb_ge. lia.
Qed.

#[local] Instance in_order_total : Total in_order.
Proof.
  intros a b. unfold in_order, less_order_. rewrite !Nat.ltb_ge. lia.
Qed.

Lemma merge_sort_sorts : sorts (merge_sort in_order).
Proof.
  split; intros l.
  - apply merge_sort_Permutation.
  - apply Sorted_merge_sort. apply _.
Qed.

Lemma pairs_keys (DIM : nat) (ord : list nat) :
  length ord = DIM ->
  map snd (map (fun d => (d, nth d ord 0)) (seq 0 DIM)) = ord.
Proof.
  intros Hl. rewrite map_map. simpl. apply (nth_ext _ _ 0 0).
  - rewrite length_map, length_seq. symmetry. exact Hl.
  - rewrite length_map, length_seq. intros d Hd.
    apply (SparseShapeFacts.nth_map_seq (fun d => nth d ord 0) DIM d 0 Hd).
Qed.

Lemma seq_sorted (start n : nat) : Sorted le (seq start n).
Proof.
  revert start. induction n as [|n IH]; intros start; simpl; [constructor|].
  constructor; [apply IH|]. destruct n; simpl; constructor. lia.
Qed.

Section Sorting.

Variable sort : list DimOrderPair -> list DimOrderPair.
Hypothesis Hsort : sorts sort.

Variable DIM : nat.
Variable ord : list nat.
Hypothesis Hord : Permutation ord (seq 0 DIM).

Local Abbreviation pairs := (map (fun d => (d, nth d ord 0)) (seq 0 DIM)).

Lemma ord_length : length ord = DIM.
Proof using Hord. rewrite (Permutation_length Hord). apply length_seq. Qed.

Lemma ord_injective (d d' : nat) :
  d < DIM -> d' < DIM -> nth d ord 0 = nth d' ord 0 -> d = d'.
Proof using Hord.
  intros Hd Hd'. pose proof ord_length as Hl.
  assert (List.NoDup ord) as Hnd.
  { apply NoDup_ListNoDup. rewrite Hord. apply NoDup_ListNoDup, seq_NoDup. }
  rewrite List.NoDup_nth in Hnd. apply Hnd; lia.
Qed.

(** The sorted pairs carry the keys [0 .. DIM-1] in this order. *)
Lemma sorted_keys : map snd (sort pairs) = seq 0 DIM.
Proof using Hsort Hord.
  destruct Hsort as [Hperm Hsorted].
  apply (Sorted_unique le).
  - specialize (Hsorted pairs). induction Hsorted as [|a l Hl IH Hhd]; simpl;
      constructor; [exact IH|].
    destruct Hhd as [|b l Hab]; simpl; constructor.
    unfold in_order, less_order_ in Hab. apply Nat.ltb_ge in Hab. exact Hab.
  - apply seq_sorted.
  - rewrite (Hperm pairs), (pairs_keys DIM ord ord_length). exact Hord.
Qed.

Lemma sorted_member (o : nat) :
  o < DIM -> exists d, d < DIM /\ nth o (sort pairs) (0, 0) = (d, nth d ord 0).
Proof using Hsort.
  intros Ho. destruct Hsort as [Hperm _].
  assert (length (sort pairs) = DIM) as Hl
    by (rewrite (Permutation_length (Hperm pairs)), length_map, length_seq; reflexivity).
  assert (In (nth o (sort pairs) (0, 0)) pairs) as Hin.
  { apply (Permutation_in _ (Hperm pairs)). apply nth_In. lia. }
  apply in_map_iff in Hin. destruct Hin as (d & Hd & Hin).
  apply in_seq in Hin. exists d. split; [lia | symmetry; exact Hd].
Qed.

(** [dim_] is the inverse of [ord_]. *)
Lemma init_inverts (d : nat) :
  d < DIM ->
  nth (nth d ord 0) (init_ sort DIM ord) 0 = d
  /\ nth (nth d (init_ sort DIM ord) 0) ord 0 = d.
Proof using Hsort Hord.
  intros Hd. unfold init_.
  assert (forall o, o < DIM ->
            exists d', d' < DIM /\ nth o ord 0 = nth o ord 0
              /\ nth o (map (fun k => fst (nth k (sort pairs) (0, 0))) (seq 0 DIM)) 0 = d'
              /\ nth d' ord 0 = o) as Hat.
  { intros o Ho. destruct (sorted_member o Ho) as (d' & Hd' & Heq).
    exists d'. split; [exact Hd'|]. split; [reflexivity|].
    rewrite (SparseShapeFacts.nth_map_seq
               (fun k => fst (nth k (sort pairs) (0, 0))) DIM o 0 Ho).
    rewrite Heq. split; [reflexivity|].
    assert (nth o (map snd (sort pairs)) 0 = nth d' ord 0) as Hk.
    { transitivity (snd (nth o (sort pairs) (0, 0)));
        [exact (map_nth snd (sort pairs) (0, 0) o) | rewrite Heq; reflexivity]. }
    rewrite sorted_keys, seq_nth in Hk by exact Ho. simpl in Hk. congruence. }
  assert (nth d ord 0 < DIM) as Hb.
  { assert (In (nth d ord 0) (seq 0 DIM)) as Hin.
    { apply (Permutation_in _ Hord). apply nth_In. rewrite ord_length. exact Hd. }
    apply in_seq in Hin. lia. }
  split.
  - destruct (Hat _ Hb) as (d' & Hd' & _ & -> & Hk).
    apply ord_injective; assumption.
  - destruct (Hat _ Hd) as (d' & Hd' & _ & -> & Hk). exact Hk.
Qed.

End Sorting.

Lemma decreasing_is_rev (DIM : nat) :
  map (fun d => DIM - d - 1) (seq 0 DIM) = rev (seq 0 DIM).
Proof.
  apply (nth_ext _ _ 0 0).
  - rewrite length_map, length_rev. reflexivity.
  - rewrite length_map, length_seq. intros d Hd.
    rewrite (SparseShapeFacts.nth_map_seq (fun d => DIM - d - 1) DIM d 0 Hd).
    rewrite rev_nth by (rewrite length_seq; exact Hd).
    rewrite length_seq, seq_nth by lia. lia.
Qed.

Lemma init_length (sort : list DimOrderPair -> list DimOrderPair) (DIM : nat)
    (ord : list nat) :
  length (init_ sort DIM ord) = DIM.
Proof. unfold init_. rewrite length_map, length_seq. reflexivity. Qed.

Lemma constructed_order (sort : list DimOrderPair -> list DimOrderPair) (DIM : nat)
    (order : DimensionOrderType) (D : DimensionOrder_) :
  DimensionOrder sort DIM order = Constructed D ->
  Permutation (ord_ D) (seq 0 DIM) /\ dim_ D = init_ sort DIM (ord_ D).
Proof.
  destruct order; simpl; intros H; inversion H; subst; clear H; simpl.
  - split; [|reflexivity]. rewrite decreasing_is_rev. symmetry.
    apply Permutation_rev.
  - split; [|reflexivity]. rewrite map_id. reflexivity.
Qed.

(** X26.  In a [DimensionOrder] built by the constructor, [order2dim] and
    [dim2order] are inverse to each other on [0 .. DIM-1], for every
    [std::sort] that meets its contract. *)
Theorem dimension_order_inverse (sort : list DimOrderPair -> list DimOrderPair)
    (DIM : nat) (order : DimensionOrderType) (D : DimensionOrder_) (d : nat) :
  sorts sort -> DimensionOrder sort DIM order = Constructed D -> d < DIM ->
  order2dim D (dim2order D d) = d /\ dim2order D (order2dim D d) = d.
Proof.
  intros Hsort HD Hd. destruct (constructed_order sort DIM order D HD) as [Hp Hdim].
  unfold order2dim, dim2order. rewrite Hdim.
  exact (init_inverts sort Hsort DIM (ord_ D) Hp d Hd).
Qed.

Lemma dimension_order_inverse_witness :
  order2dim (mkDimensionOrder [2; 1; 0] [2; 1; 0])
            (dim2order (mkDimensionOrder [2; 1; 0] [2; 1; 0]) 0) = 0
  /\ dim2order (mkDimensionOrder [2; 1; 0] [2; 1; 0])
               (order2dim (mkDimensionOrder [2; 1; 0] [2; 1; 0]) 0) = 0.
Proof.
  refine (dimension_order_inverse (merge_sort in_order) 3 decreasing_dimension_order
            (mkDimensionOrder [2; 1; 0] [2; 1; 0]) 0 merge_sort_sorts _ _).
  - vm_compute. reflexivity.
  - lia.
Defined.

(** X27.  For the increasing order both maps of a [DimensionOrder] are the
    identity; for the decreasing (C-style) order both are the reversal
    [d -> DIM-1-d], so that iteration from [begin()] starts at the last
    dimension; any other value of the enumeration makes the constructor
    throw [std::runtime_error]. *)
Theorem dimension_order_tables (sort : list DimOrderPair -> list DimOrderPair)
    (DIM : nat) :
  sorts sort ->
  DimensionOrder sort DIM increasing_dimension_order
  = Constructed (mkDimensionOrder (seq 0 DIM) (seq 0 DIM))
  /\ DimensionOrder sort DIM decreasing_dimension_order
     = Constructed (mkDimensionOrder (rev (seq 0 DIM)) (rev (seq 0 DIM)))
  /\ forall v, DimensionOrder sort DIM (unlisted_order v) = runtime_error.
Proof.
  intros Hsort. split; [|split; [|reflexivity]]; simpl.
  - rewrite map_id. do 2 f_equal. apply (nth_ext _ _ 0 0).
    + rewrite init_length, length_seq. reflexivity.
    + rewrite init_length. intros o Ho.
      destruct (init_inverts sort Hsort DIM (seq 0 DIM) ltac:(reflexivity) o Ho)
        as [H1 _].
      rewrite seq_nth in H1 by exact Ho. rewrite seq_nth by exact Ho. exact H1.
  - rewrite decreasing_is_rev. do 2 f_equal. apply (nth_ext _ _ 0 0).
    + rewrite init_length, length_rev, length_seq. reflexivity.
    + rewrite init_length. intros o Ho.
      assert (Permutation (rev (seq 0 DIM)) (seq 0 DIM)) as Hp
        by (symmetry; apply Permutation_rev).
      destruct (init_inverts sort Hsort DIM (rev (seq 0 DIM)) Hp (DIM - o - 1)
                  ltac:(lia)) as [H1 _].
      rewrite rev_nth in H1 by (rewrite length_seq; lia).
      rewrite length_seq, seq_nth in H1 by lia.
      replace (0 + (DIM - S (DIM - o - 1))) with o in H1 by lia.
      rewrite H1. rewrite rev_nth by (rewrite length_seq; exact Ho).
      rewrite length_seq, seq_nth by lia. lia.
Qed.

Lemma dimension_order_tables_witness :
  DimensionOrder (merge_sort in_order) 3 increasing_dimension_order
  = Constructed (mkDimensionOrder [0; 1; 2] [0; 1; 2])
  /\ DimensionOrder (merge_sort in_order) 3 decreasing_dimension_order
     = Constructed (mkDimensionOrder [2; 1; 0] [2; 1; 0])
  /\ forall v, DimensionOrder (merge_sort in_order) 3 (unlisted_order v) = runtime_error.
Proof. exact (dimension_order_tables (merge_sort in_order) 3 merge_sort_sorts). Defined.

End CoordinateSystemFacts.

(* ===================================================================== *)
(** * Part VIII: properties of the expressions                           *)
(* ===================================================================== *)

Module ExpressionFacts.
Import Expression.

Section Facts.

Variable Array : Type.
Variable double : Type.
Variable negate : double -> double.
Variable times : double -> double -> double.
Variable divided_by : double -> double -> double.

Local Abbreviation Expr := (Expression_ Array double).

Lemma index_from_spec (more N : nat) (e : Expr) :
  index_from Array double more N e
  = if (N <=? length e) && (length e <=? N + more) then Some (length e) else None.
Proof.
  revert N. induction more as [|more IH]; intros N; simpl.
  - destruct (Nat.eqb_spec N (length e)) as [->|Hne].
    + rewrite Nat.add_0_r, Nat.leb_refl. reflexivity.
    + destruct (Nat.leb_spec N (length e)), (Nat.leb_spec (length e) (N + 0));
        simpl; try reflexivity; lia.
  - destruct (Nat.eqb_spec N (length e)) as [->|Hne].
    + rewrite Nat.leb_refl. simpl.
      destruct (Nat.leb_spec (length e) (length e + S more)); [reflexivity | lia].
    + rewrite IH.
      destruct (Nat.leb_spec (N + 1) (length e)), (Nat.leb_spec N (length e)),
        (Nat.leb_spec (length e) (N + 1 + more)),
        (Nat.leb_spec (length e) (N + S more)); simpl; try reflexivity; lia.
Qed.

Lemma add_terms (a b : Expr) : add Array double a b = a ++ b.
Proof.
  unfold add. revert a. induction b as [|t b IH]; intros a; simpl.
  - symmetry. apply app_nil_r.
  - rewrite IH, <- app_assoc. destruct t; reflexivity.
Qed.

Lemma sub_length (a b : Expr) :
  length (sub Array double negate a b) = length a + length b.
Proof.
  unfold sub. revert a. induction b as [|t b IH]; intros a; simpl; [lia|].
  rewrite IH, length_app. simpl. lia.
Qed.

Lemma index_cases (MAX : nat) (e : Expr) :
  1 <= MAX ->
  (1 <= length e <= MAX /\ index Array double MAX e = Some (length e))
  \/ ((length e = 0 \/ MAX < length e) /\ index Array double MAX e = None).
Proof.
  intros HM. unfold index. rewrite index_from_spec.
  replace (1 + (MAX - 1)) with MAX by lia.
  destruct (Nat.leb_spec 1 (length e)), (Nat.leb_spec (length e) MAX); simpl;
    [left | right | right | right]; split; try reflexivity; lia.
Qed.

(** X28.  With [TA_PYTHON_MAX_EXPRESSION = MAX >= 1], [index] returns the
    number of terms of an expression when it is between 1 and [MAX] and
    throws [std::domain_error] otherwise; so it throws on a sum or a
    difference exactly when the two expressions have no term or more than
    [MAX] terms together, and scaling an expression does not change what
    [index] returns. *)
Theorem expression_index (MAX : nat) (a b : Expr) (f : double) :
  1 <= MAX ->
  (forall n, index Array double MAX a = Some n <-> n = length a /\ 1 <= n <= MAX)
  /\ (index Array double MAX (add Array double a b) = None
      <-> length a + length b = 0 \/ MAX < length a + length b)
  /\ (index Array double MAX (sub Array double negate a b) = None
      <-> length a + length b = 0 \/ MAX < length a + length b)
  /\ index Array double MAX (mul Array double times a f) = index Array double MAX a
  /\ index Array double MAX (div Array double divided_by a f) = index Array double MAX a.
Proof.
  intros HM. split; [|split; [|split; [|split]]].
  - intros n. destruct (index_cases MAX a HM) as [[Hl ->]|[Hl ->]]; split.
    + intros H. inversion H; subst. split; [reflexivity | exact Hl].
    + intros [-> _]. reflexivity.
    + discriminate.
    + intros [-> Hn]. lia.
  - destruct (index_cases MAX (add Array double a b) HM) as [[Hl ->]|[Hl ->]];
      rewrite add_terms, length_app in Hl; split; try discriminate; auto; lia.
  - destruct (index_cases MAX (sub Array double negate a b) HM) as [[Hl ->]|[Hl ->]];
      rewrite sub_length in Hl; split; try discriminate; auto; lia.
  - unfold index. rewrite !index_from_spec. unfold mul. rewrite length_map.
    reflexivity.
  - unfold index. rewrite !index_from_spec. unfold div. rewrite length_map.
    reflexivity.
Qed.

End Facts.

Lemma expression_index_witness :
  (forall n,
     index unit Z 3 (getitem unit Z 1%Z tt String.EmptyString) = Some n
     <-> n = 1 /\ 1 <= n <= 3)
  /\ (index unit Z 3
        (add unit Z (getitem unit Z 1%Z tt String.EmptyString)
                    (getitem unit Z 1%Z tt String.EmptyString)) = None
      <-> 1 + 1 = 0 \/ 3 < 1 + 1)
  /\ (index unit Z 3
        (sub unit Z Z.opp (getitem unit Z 1%Z tt String.EmptyString)
                          (getitem unit Z 1%Z tt String.EmptyString)) = None
      <-> 1 + 1 = 0 \/ 3 < 1 + 1)
  /\ index unit Z 3 (mul unit Z Z.mul (getitem unit Z 1%Z tt String.EmptyString) 2%Z)
     = index unit Z 3 (getitem unit Z 1%Z tt String.EmptyString)
  /\ index unit Z 3 (div unit Z Z.div (getitem unit Z 1%Z tt String.EmptyString) 2%Z)
     = index unit Z 3 (getitem unit Z 1%Z tt String.EmptyString).
Proof.
  apply (expression_index unit Z Z.opp Z.mul Z.div 3
           (getitem unit Z 1%Z tt String.EmptyString)
           (getitem unit Z 1%Z tt String.EmptyString) 2%Z).
  lia.
Defined.

End ExpressionFacts.
